(** * A tape-machine interpreter and its x86-64 code generator

    Shallow embedding of [interpreter.cc]: the text-walking interpreter
    [bfInterpret], the single-pass code generator [bfJITCompile] with its
    relocation stack, and [setupExecutableMem], together with a model of
    the fragment of x86-64 that the generator emits. *)

From Stdlib Require Import ZArith Ascii String Lia.
From stdpp Require Import base list.

Local Open Scope Z_scope.

(** ** Outcomes *)

(** How a call of one of the modelled functions ends. *)
Inductive result (A : Type) : Type :=
| Ok (a : A)            (* the function returns *)
| Terminate             (* std::terminate() *)
| Exit (status : Z) (err : string)   (* std::exit(status), with what went to std::cerr *)
| Undefined             (* undefined behaviour: an access or pointer outside its object *)
| Timeout.              (* the fuel ran out before the run finished *)

Arguments Ok {A} a.
Arguments Terminate {A}.
Arguments Exit {A} status err.
Arguments Undefined {A}.
Arguments Timeout {A}.

Definition and_then {A B : Type} (r : result A) (f : A -> result B) : result B :=
  match r with
  | Ok a => f a
  | Terminate => Terminate
  | Exit status err => Exit status err
  | Undefined => Undefined
  | Timeout => Timeout
  end.

(** ** Program text *)

Definition NUL : ascii := "000"%char.

(** [*p] for a pointer at index [i] of the text of [bfInterpret], a C
    string: the text is followed by a NUL.  The code generator works on
    a vector, which has no terminator; it uses [char_at] for [*tok]
    inside the vector only and [scan] for its look-ahead. *)
Definition char_at (text : list ascii) (i : nat) : ascii :=
  default NUL (text !! i).

(** The cases of the two [switch] statements. *)
Inductive token : Type :=
| TLt | TGt | TPlus | TMinus | TComma | TDot | TOpen | TClose | TSpace | TNul | TOther.

Definition classify (c : ascii) : token :=
  if (c =? "<")%char then TLt
  else if (c =? ">")%char then TGt
  else if (c =? "+")%char then TPlus
  else if (c =? "-")%char then TMinus
  else if (c =? ",")%char then TComma
  else if (c =? ".")%char then TDot
  else if (c =? "[")%char then TOpen
  else if (c =? "]")%char then TClose
  else if (c =? " ")%char then TSpace
  else if (c =? NUL)%char then TNul
  else TOther.

(** [for (n = 0; *p == c; ++n, ++p);] on the text that starts at [p]. *)
Fixpoint span_len (c : ascii) (l : list ascii) : nat :=
  match l with
  | x :: r => if (x =? c)%char then S (span_len c r) else O
  | [] => O
  end.

(** The same loop for an iterator at index [p] of a vector: the scan
    stops inside the vector at a character other than [c]; when every
    character from [p] on is [c] (or [p] is [cend()] already) it
    dereferences [cend()], which is undefined. *)
Definition scan (c : ascii) (p : nat) (text : list ascii) : option nat :=
  let n := span_len c (drop p text) in
  if (p + n <? length text)%nat then Some n else None.

(** ** The abstract machine *)

Definition TAPE_SIZE : nat := Z.to_nat 30000.
Definition MAX_NESTING : nat := 100.

(** [struct bfState]: the tape and [ptr], kept as the index [ptr - tape]. *)
Record bfState : Type := mkState { tape : list Z; ptr : Z }.

Definition bfState_init : bfState :=
  {| tape := replicate TAPE_SIZE 0; ptr := 0 |}.

(** [*state->ptr] as an rvalue. *)
Definition deref (s : bfState) : option Z :=
  if 0 <=? ptr s then tape s !! Z.to_nat (ptr s) else None.

(** [*state->ptr = v]. *)
Definition assign (s : bfState) (v : Z) : option bfState :=
  if (0 <=? ptr s) && (ptr s <? Z.of_nat (length (tape s)))
  then Some {| tape := <[Z.to_nat (ptr s) := v]> (tape s); ptr := ptr s |}
  else None.

(** [state->ptr += d]: the result has to point into the tape or just past it. *)
Definition shift (s : bfState) (d : Z) : option bfState :=
  let p := ptr s + d in
  if (0 <=? p) && (p <=? Z.of_nat (length (tape s)))
  then Some {| tape := tape s; ptr := p |}
  else None.

(** ** The host's byte streams *)

Record stdio : Type := mkStdio {
  stdin : list Z;        (* bytes not yet read *)
  stdin_eof : bool;      (* the end-of-file indicator of stdin *)
  stdout : list Z        (* bytes written so far, oldest first *)
}.

Definition EOF : Z := -1.

(** [std::getchar()]. *)
Definition getchar (w : stdio) : Z * stdio :=
  match stdin w with
  | b :: rest => (b, {| stdin := rest; stdin_eof := stdin_eof w; stdout := stdout w |})
  | [] => (EOF, {| stdin := []; stdin_eof := true; stdout := stdout w |})
  end.

(** [std::cout << b] for an [unsigned char]. *)
Definition putchar (w : stdio) (b : Z) : stdio :=
  {| stdin := stdin w; stdin_eof := stdin_eof w; stdout := stdout w ++ [b] |}.

Definition to_uchar (z : Z) : Z := z mod 256.

(** ** The interpreter *)

(** The locals of [bfInterpret] with the state it works on.  [program] is
    the index of the next character; [loops] holds [loops[0 .. nloops)]
    with [loops[nloops - 1]] first, so [nloops] is its length. *)
Record interp : Type := mkInterp {
  program : nat;
  loops : list nat;
  nskip : nat;
  machine : bfState;
  host : stdio
}.

Inductive step (A : Type) : Type :=
| Next (a : A)          (* break: on to the next iteration *)
| Halt (a : A)          (* return *)
| Abort                 (* std::terminate() *)
| Stuck.                (* undefined behaviour *)

Arguments Next {A} a.
Arguments Halt {A} a.
Arguments Abort {A}.
Arguments Stuck {A}.

Definition with_machine (k : interp) (pc : nat) (o : option bfState) : step interp :=
  match o with
  | Some s => Next {| program := pc; loops := loops k; nskip := nskip k;
                      machine := s; host := host k |}
  | None => Stuck
  end.

Definition skip_to (k : interp) (pc : nat) : step interp :=
  Next {| program := pc; loops := loops k; nskip := nskip k;
          machine := machine k; host := host k |}.

(** One iteration of the [while (true)] loop: the [switch] on the character
    at [program], which is stepped past it first. *)
Definition bfInterpret_step (text : list ascii) (k : interp) : step interp :=
  let c := char_at text (program k) in
  let pc := S (program k) in
  match classify c with
  | TLt =>
      let n := S (span_len "<" (drop pc text)) in
      let pc := (pc + (n - 1))%nat in
      if (nskip k =? 0)%nat
      then with_machine k pc (shift (machine k) (- Z.of_nat n))
      else skip_to k pc
  | TGt =>
      let n := S (span_len ">" (drop pc text)) in
      let pc := (pc + (n - 1))%nat in
      if (nskip k =? 0)%nat
      then with_machine k pc (shift (machine k) (Z.of_nat n))
      else skip_to k pc
  | TPlus =>
      let n := S (span_len "+" (drop pc text)) in
      let pc := (pc + (n - 1))%nat in
      if (nskip k =? 0)%nat
      then with_machine k pc
             (v ← deref (machine k); assign (machine k) (to_uchar (v + Z.of_nat n)))
      else skip_to k pc
  | TMinus =>
      let n := S (span_len "-" (drop pc text)) in
      let pc := (pc + (n - 1))%nat in
      if (nskip k =? 0)%nat
      then with_machine k pc
             (v ← deref (machine k); assign (machine k) (to_uchar (v - Z.of_nat n)))
      else skip_to k pc
  | TComma =>
      if (nskip k =? 0)%nat
      then let '(r, w) := getchar (host k) in
           match assign (machine k) (to_uchar r) with
           | Some s => Next {| program := pc; loops := loops k; nskip := nskip k;
                               machine := s; host := w |}
           | None => Stuck
           end
      else skip_to k pc
  | TDot =>
      if (nskip k =? 0)%nat
      then match deref (machine k) with
           | Some v => Next {| program := pc; loops := loops k; nskip := nskip k;
                               machine := machine k; host := putchar (host k) v |}
           | None => Stuck
           end
      else skip_to k pc
  | TOpen =>
      if (length (loops k) =? MAX_NESTING)%nat then Abort
      else match deref (machine k) with
           | Some v =>
               Next {| program := pc; loops := pc :: loops k;
                       nskip := if v =? 0 then S (nskip k) else nskip k;
                       machine := machine k; host := host k |}
           | None => Stuck
           end
  | TClose =>
      match loops k with
      | [] => Abort
      | top :: below =>
          match deref (machine k) with
          | Some v =>
              Next {| program := if v =? 0 then pc else top;
                      loops := if v =? 0 then below else top :: below;
                      nskip := Nat.pred (nskip k);
                      machine := machine k; host := host k |}
          | None => Stuck
          end
      end
  | TSpace =>
      let n := S (span_len " " (drop pc text)) in
      skip_to k (pc + (n - 1))%nat
  | TNul => Halt k
  | TOther => skip_to k pc
  end.

(** The [while (true)] loop, for at most [fuel] iterations. *)
Fixpoint bfInterpret_loop (fuel : nat) (text : list ascii) (k : interp) : result interp :=
  match fuel with
  | O => Timeout
  | S fuel' =>
      match bfInterpret_step text k with
      | Next k' => bfInterpret_loop fuel' text k'
      | Halt k' => Ok k'
      | Abort => Terminate
      | Stuck => Undefined
      end
  end.

Definition interp_init (s : bfState) (w : stdio) : interp :=
  {| program := O; loops := []; nskip := O; machine := s; host := w |}.

Definition bfInterpret (fuel : nat) (text : list ascii) (s : bfState) (w : stdio)
  : result interp :=
  bfInterpret_loop fuel text (interp_init s w).

Definition bfRunDefault (fuel : nat) (text : list ascii) (w : stdio) : result interp :=
  bfInterpret fuel text bfState_init w.

(** ** The code generator *)

(** [static_cast<uint8_t>], [static_cast<uint32_t>] and [size_t] arithmetic. *)
Definition to_uint8 (z : Z) : Z := z mod 2^8.
Definition to_uint32 (z : Z) : Z := z mod 2^32.
Definition to_size_t (z : Z) : Z := z mod 2^64.

Definition _resolvePtrAddr (ptrAddr : Z) : list Z :=
  [ to_uint8 (Z.land ptrAddr 0xff);
    to_uint8 (Z.shiftr (Z.land ptrAddr 0xff00) 8);
    to_uint8 (Z.shiftr (Z.land ptrAddr 0xff0000) 16);
    to_uint8 (Z.shiftr (Z.land ptrAddr 0xff000000) 24);
    to_uint8 (Z.shiftr (Z.land ptrAddr 0xff00000000) 32);
    to_uint8 (Z.shiftr (Z.land ptrAddr 0xff0000000000) 40);
    to_uint8 (Z.shiftr (Z.land ptrAddr 0xff000000000000) 48);
    to_uint8 (Z.shiftr (Z.land ptrAddr 0xff00000000000000) 56) ].

Definition _resolveAddrDiff (addrDiff : Z) : list Z :=
  [ to_uint8 (Z.land addrDiff 0xff);
    to_uint8 (Z.shiftr (Z.land addrDiff 0xff00) 8);
    to_uint8 (Z.shiftr (Z.land addrDiff 0xff0000) 16);
    to_uint8 (Z.shiftr (Z.land addrDiff 0xff000000) 24) ].

(** The byte sequences of the [switch] in [bfJITCompile]. *)
Definition read_code : list Z :=
  [ 0xb8; 0x3; 0x0; 0x0; 0x2;
    0xbf; 0x0; 0x0; 0x0; 0x0;
    0x48; 0x89; 0xde;
    0xba; 0x1; 0x0; 0x0; 0x0;
    0xf; 0x5 ].

Definition write_code : list Z :=
  [ 0xb8; 0x4; 0x0; 0x0; 0x2;
    0xbf; 0x1; 0x0; 0x0; 0x0;
    0x48; 0x89; 0xde;
    0xba; 0x1; 0x0; 0x0; 0x0;
    0xf; 0x5 ].

Definition open_code : list Z :=
  [ 0x80; 0x3b; 0x0; 0xf; 0x84; 0x0; 0x0; 0x0; 0x0 ].

Definition close_code : list Z :=
  [ 0x80; 0x3b; 0x0; 0xf; 0x85; 0x0; 0x0; 0x0; 0x0 ].

(** [v.erase(v.begin() + first, v.begin() + last)] and
    [v.insert(v.begin() + pos, bytes.begin(), bytes.end())]. *)
Definition erase (first last : nat) (v : list Z) : list Z :=
  take first v ++ drop last v.

Definition insert_at (pos : nat) (bytes : list Z) (v : list Z) : list Z :=
  take pos v ++ bytes ++ drop pos v.

(** The variables of the code generation loop.  [jmpLocIndex] is used
    through [push_back], [back] and [pop_back] only and is kept with its
    [back()] first. *)
Record jit : Type := mkJit {
  tok : nat;
  machineCode : list Z;
  jmpLocIndex : list nat
}.

(** The body of the [for] loop over the text, with the [++tok] that ends
    the iteration.  The loop enters the body with [tok] before [cend()]
    only.  The scans of a run and the look-ahead behind a closing
    bracket go on until they find another character: at the end of the
    vector they read [*cend()]. *)
Definition bfJITCompile_step (text : list ascii) (g : jit) : result jit :=
  match classify (char_at text (tok g)) with
  | TPlus =>
      match scan "+" (tok g) text with
      | Some n =>
          Ok {| tok := S (tok g + n - 1);
                machineCode := machineCode g ++ [0x80; 0x3; to_uint8 (Z.of_nat n)];
                jmpLocIndex := jmpLocIndex g |}
      | None => Undefined               (* *tok at cend() *)
      end
  | TMinus =>
      match scan "-" (tok g) text with
      | Some n =>
          Ok {| tok := S (tok g + n - 1);
                machineCode := machineCode g ++ [0x80; 0x2b; to_uint8 (Z.of_nat n)];
                jmpLocIndex := jmpLocIndex g |}
      | None => Undefined               (* *tok at cend() *)
      end
  | TGt =>
      match scan ">" (tok g) text with
      | Some n =>
          Ok {| tok := S (tok g + n - 1);
                machineCode := machineCode g ++ [0x48; 0x83; 0xc3; to_uint8 (Z.of_nat n)];
                jmpLocIndex := jmpLocIndex g |}
      | None => Undefined               (* *tok at cend() *)
      end
  | TLt =>
      match scan "<" (tok g) text with
      | Some n =>
          Ok {| tok := S (tok g + n - 1);
                machineCode := machineCode g ++ [0x48; 0x83; 0xeb; to_uint8 (Z.of_nat n)];
                jmpLocIndex := jmpLocIndex g |}
      | None => Undefined               (* *tok at cend() *)
      end
  | TComma =>
      Ok {| tok := S (tok g);
            machineCode := machineCode g ++ read_code;
            jmpLocIndex := jmpLocIndex g |}
  | TDot =>
      Ok {| tok := S (tok g);
            machineCode := machineCode g ++ write_code;
            jmpLocIndex := jmpLocIndex g |}
  | TOpen =>
      let code := machineCode g ++ open_code in
      Ok {| tok := S (tok g);
            machineCode := code;
            jmpLocIndex := length code :: jmpLocIndex g |}
  | TClose =>
      let code := machineCode g ++ close_code in
      match jmpLocIndex g with
      | [] => Undefined                 (* back() of an empty vector *)
      | back :: rest =>
          let size := Z.of_nat (length code) in
          let bDiff := _resolveAddrDiff (to_uint32 (to_size_t (Z.of_nat back - size))) in
          let fDiff := _resolveAddrDiff (to_uint32 (to_size_t (size - Z.of_nat back))) in
          let code := erase (length code - 4) (length code) code in
          let code := insert_at (length code) bDiff code in
          if (4 <=? back)%nat && (back <=? length code)%nat
          then
            let code := erase (back - 4) back code in
            let code := insert_at (back - 4) fDiff code in
            match scan "]" (S (tok g)) text with
            | Some n =>
                Ok {| tok := S (tok g);
                      machineCode :=
                        if (0 <? n)%nat
                        then code ++ [0xeb; to_uint8 (to_size_t (Z.of_nat n * 11 - 2))]
                        else code;
                      jmpLocIndex := rest |}
            | None => Undefined         (* *ctok at cend() *)
            end
          else Undefined                (* iterators outside the vector *)
      end
  | TSpace | TNul | TOther =>
      Ok {| tok := S (tok g);
            machineCode := machineCode g;
            jmpLocIndex := jmpLocIndex g |}
  end.

(** [for (tok = cbegin(); tok != cend(); ++tok)], for at most [fuel]
    iterations. *)
Fixpoint bfJITCompile_loop (fuel : nat) (text : list ascii) (g : jit) : result jit :=
  if (tok g =? length text)%nat then Ok g
  else match fuel with
       | O => Timeout
       | S fuel' =>
           match bfJITCompile_step text g with
           | Ok g' => bfJITCompile_loop fuel' text g'
           | r => r
           end
       end.

Definition prologue (ptrAddr : Z) : list Z :=
  let machineCode := [0x48; 0xbb] in
  let basePtrBytes := _resolvePtrAddr ptrAddr in
  take 2 machineCode ++ basePtrBytes ++ drop 2 machineCode.

Definition epilogue : list Z := [0x58; 0xff; 0xe0].

Definition jit_init (ptrAddr : Z) : jit :=
  {| tok := O; machineCode := prologue ptrAddr; jmpLocIndex := [] |}.

(** [bfJITCompile] up to the call of [setupExecutableMem]: the vector that
    is handed over.  [ptrAddr] is [state->ptr] as an integer.  Every
    iteration moves [tok] forward, so the length of the text is fuel
    enough. *)
Definition bfJITCompile_code (text : list ascii) (ptrAddr : Z) : result (list Z) :=
  and_then (bfJITCompile_loop (length text) text (jit_init ptrAddr))
    (fun g => Ok (machineCode g ++ epilogue)).

(** ** The processor

    The instructions that the generator emits, with their x86-64
    meaning.  [rip] is counted from the first byte of the mapped region;
    data memory is the tape, which lies at [tape_addr]. *)

Inductive instr : Type :=
| MovRbx (imm64 : Z)        (* 48 bb iq   movabs $imm64, %rbx *)
| AddbMem (imm8 : Z)        (* 80 03 ib   addb $imm8, (%rbx) *)
| SubbMem (imm8 : Z)        (* 80 2b ib   subb $imm8, (%rbx) *)
| CmpbMem (imm8 : Z)        (* 80 3b ib   cmpb $imm8, (%rbx) *)
| AddRbx (imm8 : Z)         (* 48 83 c3 ib   add $imm8, %rbx, imm8 sign-extended *)
| SubRbx (imm8 : Z)         (* 48 83 eb ib   sub $imm8, %rbx, imm8 sign-extended *)
| MovEax (imm32 : Z)        (* b8 id      mov $imm32, %eax *)
| MovEdi (imm32 : Z)        (* bf id      mov $imm32, %edi *)
| MovEdx (imm32 : Z)        (* ba id      mov $imm32, %edx *)
| MovRsiRbx                 (* 48 89 de   mov %rbx, %rsi *)
| Syscall                   (* 0f 05 *)
| Je (rel32 : Z)            (* 0f 84 cd *)
| Jne (rel32 : Z)           (* 0f 85 cd *)
| JmpShort (rel8 : Z)       (* eb cb *)
| PopRax                    (* 58 *)
| JmpRax.                   (* ff e0      jmpq *%rax *)

(** Little-endian immediates. *)
Fixpoint le_uint (bytes : list Z) : Z :=
  match bytes with
  | [] => 0
  | b :: rest => b + 256 * le_uint rest
  end.

Definition sext (bits : Z) (u : Z) : Z :=
  if u <? 2 ^ (bits - 1) then u else u - 2 ^ bits.

(** The instruction that starts the byte sequence, with its length. *)
Definition decode (bytes : list Z) : option (instr * Z) :=
  match bytes with
  | 0x48 :: 0xbb :: b0 :: b1 :: b2 :: b3 :: b4 :: b5 :: b6 :: b7 :: _ =>
      Some (MovRbx (le_uint [b0; b1; b2; b3; b4; b5; b6; b7]), 10)
  | 0x80 :: 0x03 :: ib :: _ => Some (AddbMem ib, 3)
  | 0x80 :: 0x2b :: ib :: _ => Some (SubbMem ib, 3)
  | 0x80 :: 0x3b :: ib :: _ => Some (CmpbMem ib, 3)
  | 0x48 :: 0x83 :: 0xc3 :: ib :: _ => Some (AddRbx (sext 8 ib), 4)
  | 0x48 :: 0x83 :: 0xeb :: ib :: _ => Some (SubRbx (sext 8 ib), 4)
  | 0xb8 :: b0 :: b1 :: b2 :: b3 :: _ => Some (MovEax (le_uint [b0; b1; b2; b3]), 5)
  | 0xbf :: b0 :: b1 :: b2 :: b3 :: _ => Some (MovEdi (le_uint [b0; b1; b2; b3]), 5)
  | 0xba :: b0 :: b1 :: b2 :: b3 :: _ => Some (MovEdx (le_uint [b0; b1; b2; b3]), 5)
  | 0x48 :: 0x89 :: 0xde :: _ => Some (MovRsiRbx, 3)
  | 0x0f :: 0x05 :: _ => Some (Syscall, 2)
  | 0x0f :: 0x84 :: b0 :: b1 :: b2 :: b3 :: _ =>
      Some (Je (sext 32 (le_uint [b0; b1; b2; b3])), 6)
  | 0x0f :: 0x85 :: b0 :: b1 :: b2 :: b3 :: _ =>
      Some (Jne (sext 32 (le_uint [b0; b1; b2; b3])), 6)
  | 0xeb :: cb :: _ => Some (JmpShort (sext 8 cb), 2)
  | 0x58 :: _ => Some (PopRax, 1)
  | 0xff :: 0xe0 :: _ => Some (JmpRax, 2)
  | _ => None
  end.

(** Standard input and output as the kernel sees them. *)
Record fds : Type := mkFds {
  fd0 : list Z;          (* bytes still to be read from descriptor 0 *)
  fd1 : list Z           (* bytes written to descriptor 1, oldest first *)
}.

Record x86 : Type := mkX86 {
  rip : Z;
  rax : Z;
  rbx : Z;
  rdi : Z;
  rsi : Z;
  rdx : Z;
  zf : bool;
  stack : list Z;        (* the quadwords from (%rsp) upwards *)
  mem : list Z;          (* the bytes of the tape *)
  files : fds
}.

Section Processor.

(** Where the tape lies, and where [jmpq *%rax] has to go to get back
    into [setupExecutableMem]. *)
Variable tape_addr : Z.
Variable return_addr : Z.

Definition load (m : x86) (addr : Z) : option Z :=
  if tape_addr <=? addr then mem m !! Z.to_nat (addr - tape_addr) else None.

Definition store (m : x86) (addr : Z) (v : Z) : option (list Z) :=
  if (tape_addr <=? addr) && (addr <? tape_addr + Z.of_nat (length (mem m)))
  then Some (<[Z.to_nat (addr - tape_addr) := v]> (mem m))
  else None.

Definition SYS_read : Z := 0x2000003.
Definition SYS_write : Z := 0x2000004.

(** [syscall] for the two calls that the generated code makes, each for
    one byte: [read(0, %rsi, 1)] and [write(1, %rsi, 1)]. *)
Definition syscall (m : x86) (next : Z) : step x86 :=
  if (rax m =? SYS_read) && (rdi m =? 0) && (rdx m =? 1) then
    match fd0 (files m) with
    | b :: rest =>
        match store m (rsi m) b with
        | Some mem' =>
            Next {| rip := next; rax := 1; rbx := rbx m; rdi := rdi m; rsi := rsi m;
                    rdx := rdx m; zf := zf m; stack := stack m; mem := mem';
                    files := {| fd0 := rest; fd1 := fd1 (files m) |} |}
        | None => Stuck
        end
    | [] =>
        (* end of input: nothing is stored and the call returns 0 *)
        Next {| rip := next; rax := 0; rbx := rbx m; rdi := rdi m; rsi := rsi m;
                rdx := rdx m; zf := zf m; stack := stack m; mem := mem m;
                files := files m |}
    end
  else if (rax m =? SYS_write) && (rdi m =? 1) && (rdx m =? 1) then
    match load m (rsi m) with
    | Some b =>
        Next {| rip := next; rax := 1; rbx := rbx m; rdi := rdi m; rsi := rsi m;
                rdx := rdx m; zf := zf m; stack := stack m; mem := mem m;
                files := {| fd0 := fd0 (files m); fd1 := fd1 (files m) ++ [b] |} |}
    | None => Stuck
    end
  else Stuck.

Definition set_rip (m : x86) (next : Z) : x86 :=
  {| rip := next; rax := rax m; rbx := rbx m; rdi := rdi m; rsi := rsi m;
     rdx := rdx m; zf := zf m; stack := stack m; mem := mem m; files := files m |}.

Definition exec (i : instr) (next : Z) (m : x86) : step x86 :=
  match i with
  | MovRbx imm =>
      Next {| rip := next; rax := rax m; rbx := imm; rdi := rdi m; rsi := rsi m;
              rdx := rdx m; zf := zf m; stack := stack m; mem := mem m; files := files m |}
  | AddbMem imm =>
      match load m (rbx m) with
      | Some v =>
          let r := (v + imm) mod 2^8 in
          match store m (rbx m) r with
          | Some mem' =>
              Next {| rip := next; rax := rax m; rbx := rbx m; rdi := rdi m; rsi := rsi m;
                      rdx := rdx m; zf := r =? 0; stack := stack m; mem := mem';
                      files := files m |}
          | None => Stuck
          end
      | None => Stuck
      end
  | SubbMem imm =>
      match load m (rbx m) with
      | Some v =>
          let r := (v - imm) mod 2^8 in
          match store m (rbx m) r with
          | Some mem' =>
              Next {| rip := next; rax := rax m; rbx := rbx m; rdi := rdi m; rsi := rsi m;
                      rdx := rdx m; zf := r =? 0; stack := stack m; mem := mem';
                      files := files m |}
          | None => Stuck
          end
      | None => Stuck
      end
  | CmpbMem imm =>
      match load m (rbx m) with
      | Some v =>
          Next {| rip := next; rax := rax m; rbx := rbx m; rdi := rdi m; rsi := rsi m;
                  rdx := rdx m; zf := (v - imm) mod 2^8 =? 0; stack := stack m;
                  mem := mem m; files := files m |}
      | None => Stuck
      end
  | AddRbx imm =>
      let r := (rbx m + imm) mod 2^64 in
      Next {| rip := next; rax := rax m; rbx := r; rdi := rdi m; rsi := rsi m;
              rdx := rdx m; zf := r =? 0; stack := stack m; mem := mem m; files := files m |}
  | SubRbx imm =>
      let r := (rbx m - imm) mod 2^64 in
      Next {| rip := next; rax := rax m; rbx := r; rdi := rdi m; rsi := rsi m;
              rdx := rdx m; zf := r =? 0; stack := stack m; mem := mem m; files := files m |}
  | MovEax imm =>
      Next {| rip := next; rax := imm; rbx := rbx m; rdi := rdi m; rsi := rsi m;
              rdx := rdx m; zf := zf m; stack := stack m; mem := mem m; files := files m |}
  | MovEdi imm =>
      Next {| rip := next; rax := rax m; rbx := rbx m; rdi := imm; rsi := rsi m;
              rdx := rdx m; zf := zf m; stack := stack m; mem := mem m; files := files m |}
  | MovEdx imm =>
      Next {| rip := next; rax := rax m; rbx := rbx m; rdi := rdi m; rsi := rsi m;
              rdx := imm; zf := zf m; stack := stack m; mem := mem m; files := files m |}
  | MovRsiRbx =>
      Next {| rip := next; rax := rax m; rbx := rbx m; rdi := rdi m; rsi := rbx m;
              rdx := rdx m; zf := zf m; stack := stack m; mem := mem m; files := files m |}
  | Syscall => syscall m next
  | Je rel => Next (set_rip m (if zf m then next + rel else next))
  | Jne rel => Next (set_rip m (if zf m then next else next + rel))
  | JmpShort rel => Next (set_rip m (next + rel))
  | PopRax =>
      match stack m with
      | top :: below =>
          Next {| rip := next; rax := top; rbx := rbx m; rdi := rdi m; rsi := rsi m;
                  rdx := rdx m; zf := zf m; stack := below; mem := mem m; files := files m |}
      | [] => Stuck
      end
  | JmpRax =>
      (* the only address outside the region that is modelled is the
         one that setupExecutableMem left on the stack *)
      if rax m =? return_addr then Halt m else Stuck
  end.

(** Fetch, decode and execute the instruction at [rip]. *)
Definition x86_step (code : list Z) (m : x86) : step x86 :=
  if rip m <? 0 then Stuck
  else match decode (drop (Z.to_nat (rip m)) code) with
       | Some (i, len) => exec i (rip m + len) m
       | None => Stuck
       end.

Fixpoint x86_run (fuel : nat) (code : list Z) (m : x86) : result x86 :=
  match fuel with
  | O => Timeout
  | S fuel' =>
      match x86_step code m with
      | Next m' => x86_run fuel' code m'
      | Halt m' => Ok m'
      | Abort => Terminate
      | Stuck => Undefined
      end
  end.

End Processor.

(** ** Executable memory *)

(** What [setupExecutableMem] gets from the system. *)
Record system : Type := mkSystem {
  pageSize : Z;          (* getpagesize() *)
  mmap_fails : bool;     (* mmap returns MAP_FAILED *)
  tape_addr : Z;         (* the address of the tape *)
  return_addr : Z        (* the address that the lea computes *)
}.

(** The length that is passed to [mmap]:
    [ceil(machineCode->size() / static_cast<double>(pageSize))]. *)
Definition mmap_length (size pageSize : Z) : Z :=
  (size + pageSize - 1) / pageSize.

(** [mmap] maps whole pages: the bytes of a mapping of length [len]. *)
Definition mapped_bytes (len pageSize : Z) : Z :=
  (len + pageSize - 1) / pageSize * pageSize.

Definition cannot_allocate : string :=
  String.append "[error] Can't allocate memory." (String "010" EmptyString).

Definition entry_state (sys : system) (s : bfState) (io : fds) : x86 :=
  {| rip := 0; rax := 0; rbx := 0; rdi := 0; rsi := 0; rdx := 0; zf := false;
     stack := [return_addr sys]; mem := tape s; files := io |}.

(** [setupExecutableMem]: map, copy, push the return address and jump to
    the first byte.  The generated code runs for at most [fuel]
    instructions. *)
Definition setupExecutableMem (fuel : nat) (sys : system) (machineCode : list Z)
    (s : bfState) (io : fds) : result x86 :=
  let size := Z.of_nat (length machineCode) in
  let len := mmap_length size (pageSize sys) in
  if mmap_fails sys then Exit 1 cannot_allocate
  else
    let region := mapped_bytes len (pageSize sys) in
    if size <=? region
    then x86_run (tape_addr sys) (return_addr sys) fuel
           (machineCode ++ replicate (Z.to_nat (region - size)) 0)
           (entry_state sys s io)
    else Undefined.       (* mem[i] = ... beyond the mapping *)

Definition bfJITCompile (fuel : nat) (sys : system) (text : list ascii)
    (s : bfState) (io : fds) : result x86 :=
  and_then (bfJITCompile_code text (tape_addr sys + ptr s))
    (fun machineCode => setupExecutableMem fuel sys machineCode s io).

Definition bfRunJIT (fuel : nat) (sys : system) (text : list ascii) (io : fds)
  : result x86 :=
  bfJITCompile fuel sys text bfState_init io.

(** The text of a string literal. *)
Definition src (s : string) : list ascii := list_ascii_of_string s.

(** Streams at the start of a run. *)
Definition stdio_init (input : list Z) : stdio :=
  {| stdin := input; stdin_eof := false; stdout := [] |}.

Definition fds_init (input : list Z) : fds :=
  {| fd0 := input; fd1 := [] |}.

(** The opcode bytes that precede the count of a run. *)
Definition run_opcode (c : ascii) : list Z :=
  match classify c with
  | TPlus => [0x80; 0x3]
  | TMinus => [0x80; 0x2b]
  | TGt => [0x48; 0x83; 0xc3]
  | TLt => [0x48; 0x83; 0xeb]
  | _ => []
  end.

(** A system with pages of 4096 bytes in which mmap succeeds. *)
Definition system_4k : system :=
  {| pageSize := 4096; mmap_fails := false;
     tape_addr := 0x7ffeefb00000; return_addr := 0x100003f00 |}.

(** ** The generator's run, state by state *)

(** The states that the loop of [bfJITCompile] goes through. *)
Inductive generates (text : list ascii) (ptrAddr : Z) : jit -> Prop :=
| generates_init : generates text ptrAddr (jit_init ptrAddr)
| generates_step (g g' : jit) :
    generates text ptrAddr g ->
    (tok g < length text)%nat ->
    bfJITCompile_step text g = Ok g' ->
    generates text ptrAddr g'.

(** The bytes [bytes] stand in [code] from index [off] on. *)
Definition has_bytes (code : list Z) (off : nat) (bytes : list Z) : Prop :=
  forall i b, bytes !! i = Some b -> code !! (off + i)%nat = Some b.

(** Index [i] of the code is written and is not one of the four
    placeholder bytes of a jump that waits on the relocation stack. *)
Definition settled (g : jit) (i : nat) : Prop :=
  (i < length (machineCode g))%nat /\
  Forall (fun L => ~ (L - 4 <= i < L)%nat) (jmpLocIndex g).

(** Every recorded position lies behind a complete jump in the code, and
    the jumps of the positions further down lie before that jump. *)
Fixpoint stack_sorted (bound : nat) (stk : list nat) : Prop :=
  match stk with
  | [] => True
  | L :: rest => (9 <= L <= bound)%nat /\ stack_sorted (L - 9) rest
  end.

Definition stack_ok (g : jit) : Prop :=
  stack_sorted (length (machineCode g)) (jmpLocIndex g).

(** The short jump that follows the code of a closing bracket at index
    [p] of the text, if there is one. *)
Definition elision (text : list ascii) (p : nat) : list Z :=
  let n := span_len "]" (drop (S p) text) in
  if (0 <? n)%nat then [0xeb; to_uint8 (to_size_t (Z.of_nat n * 11 - 2))] else [].

(** The code after the iteration for a closing bracket, when [L] is on
    top of the relocation stack. *)
Definition closed_code (text : list ascii) (g : jit) (L : nat) : list Z :=
  let E := Z.of_nat (length (machineCode g) + 9) in
  take (L - 4) (machineCode g)
    ++ _resolveAddrDiff (to_uint32 (to_size_t (E - Z.of_nat L)))
    ++ drop L (machineCode g)
    ++ [0x80; 0x3b; 0x0; 0xf; 0x85]
    ++ _resolveAddrDiff (to_uint32 (to_size_t (Z.of_nat L - E)))
    ++ elision text (tok g).

(** [closes n g g']: from [g] the generator handles [n] closing brackets
    one after the other and is then in [g']. *)
Inductive closes (text : list ascii) : nat -> jit -> jit -> Prop :=
| closes_O (g : jit) : closes text O g g
| closes_S (n : nat) (g g' g'' : jit) :
    (tok g < length text)%nat ->
    classify (char_at text (tok g)) = TClose ->
    bfJITCompile_step text g = Ok g' ->
    closes text n g' g'' ->
    closes text (S n) g g''.

(** ** Well-formed texts *)

(** The brackets of [l] are matched when [d] brackets are open before it. *)
Fixpoint balanced_from (d : nat) (l : list ascii) : bool :=
  match l with
  | [] => (d =? 0)%nat
  | c :: r =>
      match classify c with
      | TOpen => balanced_from (S d) r
      | TClose => match d with O => false | S d' => balanced_from d' r end
      | _ => balanced_from d r
      end
  end.

Definition balanced (text : list ascii) : bool := balanced_from O text.

(** The longest run of [c] in [l]. *)
Fixpoint max_span (c : ascii) (l : list ascii) : nat :=
  match l with
  | [] => O
  | _ :: r => Nat.max (span_len c l) (max_span c r)
  end.

Definition is_byte (z : Z) : Prop := 0 <= z < 256.

(** ** Relating the two runs *)

(** Several instructions of the generated code, one after the other. *)
Inductive x86_steps (tape_addr return_addr : Z) (code : list Z) : x86 -> x86 -> Prop :=
| x86_steps_refl (m : x86) : x86_steps tape_addr return_addr code m m
| x86_steps_next (m m' m'' : x86) :
    x86_step tape_addr return_addr code m = Next m' ->
    x86_steps tape_addr return_addr code m' m'' ->
    x86_steps tape_addr return_addr code m m''.

(** The processor and the interpreter see the same tape, cursor and
    streams. *)
Record agrees (sys : system) (k : interp) (m : x86) : Prop := mkAgrees {
  agrees_mem : mem m = tape (machine k);
  agrees_rbx : rbx m = tape_addr sys + ptr (machine k);
  agrees_in : fd0 (files m) = stdin (host k);
  agrees_out : fd1 (files m) = stdout (host k);
  agrees_stack : stack m = [return_addr sys]
}.

(** Cells and input are bytes, and the tape lies in the address space. *)
Record wf (sys : system) (k : interp) : Prop := mkWf {
  wf_tape : Forall is_byte (tape (machine k));
  wf_input : Forall is_byte (stdin (host k));
  wf_addr : 0 <= tape_addr sys /\
            tape_addr sys + Z.of_nat (length (tape (machine k))) < 2 ^ 64
}.

(** The loop stack of the interpreter against the relocation stack of
    the generator: each position after an opening bracket against the
    length of the code at that position, where the final code has the
    comparison and the opcode of the forward jump. *)
Inductive linked (text : list ascii) (a : Z) (final : list Z)
  : list nat -> list nat -> Prop :=
| linked_nil : linked text a final [] []
| linked_cons (p L : nat) (ps Ls : list nat) (g : jit) :
    generates text a g ->
    tok g = p ->
    length (machineCode g) = L ->
    jmpLocIndex g = L :: Ls ->
    has_bytes final (L - 9) [0x80; 0x3b; 0x0; 0xf; 0x84] ->
    linked text a final ps Ls ->
    linked text a final (p :: ps) (L :: Ls).

(** The simulation relation.  When nothing is suppressed the processor
    is at the code of the next character, or, with the cell at zero,
    behind the closing brackets that a short jump has skipped and that
    the interpreter still has to pop.  While the interpreter skips a
    loop body the processor waits at the comparison of the opening
    bracket that started the skipping. *)
Definition sim (sys : system) (text : list ascii) (a : Z) (final : list Z)
    (k : interp) (m : x86) : Prop :=
  agrees sys k m /\ wf sys k /\
  exists g, generates text a g /\ tok g = program k /\
    linked text a final (loops k) (jmpLocIndex g) /\
    match nskip k with
    | O => exists n g', closes text n g g' /\
             (n <> O -> deref (machine k) = Some 0) /\
             rip m = Z.of_nat (length (machineCode g'))
    | S d => deref (machine k) = Some 0 /\
             exists L, jmpLocIndex g !! d = Some L /\ rip m = Z.of_nat L - 9
    end.

(** ** Example texts *)

(** Brackets nested 101 deep, with a space behind every closing bracket. *)
Definition nest_101 : list ascii :=
  replicate 101 "["%char ++ concat (replicate 101 (src "] ")) ++ src "+.".

(** A 1 in cell 0, right by 127 and by 1, left by a run of 128, and the
    cell is written. *)
Definition move_128 : list ascii :=
  src "+" ++ replicate 127 ">"%char ++ src "a>" ++ replicate 128 "<"%char ++ src ".".

(** The code of a run of [n] characters [c], [+] or [-]. *)
Definition arith_code (c : ascii) (n : nat) : list Z :=
  match n with
  | O => []
  | S _ => run_opcode c ++ [Z.of_nat n mod 256]
  end.

(** ** Pairs of brackets *)

(** The opening bracket at index [i] of the text and the closing bracket
    at index [j] belong together: the text between them is balanced. *)
Definition matched (text : list ascii) (i j : nat) : Prop :=
  classify (char_at text i) = TOpen /\
  classify (char_at text j) = TClose /\
  (i < j)%nat /\
  balanced (take (j - S i) (drop (S i) text)) = true.

(** In [code] a compare-and-branch block with [je] starts at offset [o]
    and one with [jne] at offset [c]; the displacement of each jump,
    counted from the end of its block, leads to the end of the other
    block. *)
Definition jumps_linked (code : list Z) (o c : nat) : Prop :=
  exists df db : list Z,
    length df = 4%nat /\ length db = 4%nat /\
    has_bytes code o ([0x80; 0x3b; 0x0; 0xf; 0x84] ++ df) /\
    has_bytes code c ([0x80; 0x3b; 0x0; 0xf; 0x85] ++ db) /\
    Z.of_nat (o + 9) + sext 32 (le_uint df) = Z.of_nat (c + 9) /\
    Z.of_nat (c + 9) + sext 32 (le_uint db) = Z.of_nat (o + 9).

(** A loop around [n] characters [,], and a [.] behind it. *)
Definition comma_loop (n : nat) : list ascii :=
  "["%char :: replicate n ","%char ++ src "].".

(** A loop whose body takes 2147483640 bytes of code. *)
Definition huge_loop : list ascii := comma_loop (Z.to_nat 107374182).

(** Loops nested 13 deep around a [-], entered with 1 in the cell, then
    [+.]. *)
Definition nest_13 : list ascii :=
  "+"%char :: replicate 13 "["%char ++ "-"%char :: replicate 13 "]"%char ++ src "+.".

(** ** Texts that the generator accepts *)

(** No closing bracket of [l] comes without an opening bracket that is
    still open, [d] brackets being open before [l]. *)
Fixpoint closers_covered (d : nat) (l : list ascii) : bool :=
  match l with
  | [] => true
  | c :: r =>
      match classify c with
      | TOpen => closers_covered (S d) r
      | TClose => match d with O => false | S d' => closers_covered d' r end
      | _ => closers_covered d r
      end
  end.

(** The characters behind which the generator looks ahead: the rest of
    a run behind [+ - < >], further closing brackets behind []]. *)
Definition looks_ahead (c : ascii) : bool :=
  match classify c with
  | TPlus | TMinus | TLt | TGt | TClose => true
  | _ => false
  end.

(** The text ends in such a character, so that the look-ahead behind it
    starts at [cend()] or runs up to it. *)
Definition ends_looking_ahead (text : list ascii) : bool :=
  match last text with
  | Some c => looks_ahead c
  | None => false
  end.

(** ** The entry point *)

(** [std::isspace] in the "C" locale: the characters that
    [operator>>] skips before it extracts one. *)
Definition isspace (c : ascii) : bool :=
  let n := nat_of_ascii c in
  (n =? 32)%nat || ((9 <=? n)%nat && (n <=? 13)%nat).

(** [while (f.is_open() && f.good() && f >> token) v.push_back(token);]
    on a file that could be opened, [s] being what is left of it: a
    whitespace character is skipped by [operator>>], any other
    character is extracted and pushed; at the end of the file the
    extraction fails and the loop is left. *)
Fixpoint read_tokens (s : list ascii) (v : list ascii) : list ascii :=
  match s with
  | [] => v
  | c :: r => if isspace c then read_tokens r v else read_tokens r (v ++ [c])
  end.

(** What [main] does with the vector [v] that it has read. *)
Inductive call : Type :=
| NoCall                                  (* v.size() is 0: on to [return 0] *)
| CallDefault (sourceCode : list ascii)   (* bfRunDefault(v.data()) *)
| CallJIT (sourceCode : list ascii).      (* bfRunJIT(&v) *)

(** [main] up to the call that it makes: reading the file and choosing
    the mode.  [open_file name] is the content of the file that
    [std::ifstream] opens for [name], if it can be opened.  [argc] is
    the length of [argv].  The call itself is [bfRunDefault] or
    [bfRunJIT] above; [main] comes to its [return 0] when there is no
    call or when the call returns. *)
Definition main (argv : list string) (open_file : string -> option (list ascii))
  : call :=
  let v :=
    match argv with
    | _ :: inputSourceFileName :: _ =>
        match open_file inputSourceFileName with
        | Some content => read_tokens content []
        | None => []                  (* is_open() is false *)
        end
    | _ => []
    end in
  if (0 <? length v)%nat
  then match argv with
       | _ :: _ :: flag :: _ =>
           if String.eqb flag "--jit" then CallJIT v else CallDefault v
       | _ => CallDefault v
       end
  else NoCall.

(** ** The interpreter's loop, iteration by iteration *)

(** The variables of [bfInterpret] after [n] more iterations of its
    loop, if it gets that far without returning or failing. *)
Fixpoint bfInterpret_after (n : nat) (text : list ascii) (k : interp) : option interp :=
  match n with
  | O => Some k
  | S n' =>
      match bfInterpret_step text k with
      | Next k' => bfInterpret_after n' text k'
      | _ => None
      end
  end.

(** What holds of the variables of [bfInterpret] between iterations. *)
Record interp_ok (text : list ascii) (k : interp) : Prop := mkInterpOk {
  ok_program : (program k <= length text)%nat;
  ok_loops : (length (loops k) <= MAX_NESTING)%nat;
  ok_nskip : (nskip k <= length (loops k))%nat;
  ok_return :
    Forall (fun p => (1 <= p <= length text)%nat /\
                     classify (char_at text (p - 1)) = TOpen) (loops k);
  ok_cells : Forall is_byte (tape (machine k));
  ok_zero : nskip k <> O -> deref (machine k) = Some 0
}.

(** The deepest nesting in [l], [d] brackets being open before it. *)
Fixpoint max_depth (d : nat) (l : list ascii) : nat :=
  match l with
  | [] => d
  | c :: r =>
      Nat.max d
        match classify c with
        | TOpen => max_depth (S d) r
        | TClose => max_depth (Nat.pred d) r
        | _ => max_depth d r
        end
  end.

(** ** The brackets that are open at a position of the text *)

(** The return positions of the brackets that are open behind [l],
    innermost first, when [l] starts at index [p] of the text and
    [stk] are those open before it; nothing when a closing bracket has
    no opening bracket. *)
Fixpoint open_after (stk : list nat) (p : nat) (l : list ascii) : option (list nat) :=
  match l with
  | [] => Some stk
  | c :: r =>
      match classify c with
      | TOpen => open_after (S p :: stk) (S p) r
      | TClose =>
          match stk with
          | [] => None
          | _ :: below => open_after below (S p) r
          end
      | _ => open_after stk (S p) r
      end
  end.

(** The brackets that are open at index [q] of the text. *)
Definition open_at (text : list ascii) (q : nat) : option (list nat) :=
  open_after [] 0 (take q text).

(** * Properties *)

(** ** Characters and runs *)

Lemma classify_cases (c : ascii) :
  match classify c with
  | TLt => c = "<"%char
  | TGt => c = ">"%char
  | TPlus => c = "+"%char
  | TMinus => c = "-"%char
  | TComma => c = ","%char
  | TDot => c = "."%char
  | TOpen => c = "["%char
  | TClose => c = "]"%char
  | TSpace => c = " "%char
  | TNul => c = NUL
  | TOther => True
  end.
Proof.
  unfold classify.
  repeat match goal with
         | |- context [Ascii.eqb c ?d] => destruct (Ascii.eqb_spec c d); [assumption|]
         end.
  exact I.
Qed.

Lemma span_len_le (c : ascii) (l : list ascii) : (span_len c l <= length l)%nat.
Proof.
  induction l as [|x r IH]; simpl; [lia|].
  destruct (Ascii.eqb x c); lia.
Qed.

Lemma span_len_replicate (c d : ascii) (n : nat) (l : list ascii) :
  span_len c (replicate n c ++ d :: l) = if Ascii.eqb d c then S (n + span_len c l) else n.
Proof.
  induction n as [|n IH]; simpl.
  - destruct (Ascii.eqb d c); reflexivity.
  - rewrite Ascii.eqb_refl, IH. destruct (Ascii.eqb d c); lia.
Qed.

Lemma span_len_replicate_nil (c : ascii) (n : nat) :
  span_len c (replicate n c) = n.
Proof.
  induction n as [|n IH]; simpl; [reflexivity|].
  now rewrite Ascii.eqb_refl, IH.
Qed.

Lemma span_len_stop (c d : ascii) (l r : list ascii) :
  d <> c -> span_len c (l ++ d :: r) = span_len c l.
Proof.
  intros Hd. induction l as [|x l IH]; simpl.
  - destruct (Ascii.eqb_spec d c); congruence.
  - destruct (Ascii.eqb x c); [now rewrite IH|reflexivity].
Qed.

Lemma scan_inv (c : ascii) (p : nat) (text : list ascii) (n : nat) :
  scan c p text = Some n ->
  n = span_len c (drop p text) /\ (p + n < length text)%nat.
Proof.
  unfold scan. destruct (Nat.ltb_spec (p + span_len c (drop p text)) (length text));
    [|discriminate].
  intros [= <-]. now split.
Qed.

Lemma scan_ok (c : ascii) (p : nat) (text : list ascii) :
  (p + span_len c (drop p text) < length text)%nat ->
  scan c p text = Some (span_len c (drop p text)).
Proof.
  intros H. unfold scan.
  destruct (Nat.ltb_spec (p + span_len c (drop p text)) (length text)); [reflexivity|lia].
Qed.

Lemma scan_end (c : ascii) (p : nat) (text : list ascii) :
  (length text <= p + span_len c (drop p text))%nat -> scan c p text = None.
Proof.
  intros H. unfold scan.
  destruct (Nat.ltb_spec (p + span_len c (drop p text)) (length text)); [lia|reflexivity].
Qed.

Lemma char_at_app_l (l r : list ascii) (i : nat) :
  (i < length l)%nat -> char_at (l ++ r) i = char_at l i.
Proof. intros H. unfold char_at. now rewrite lookup_app_l. Qed.

Lemma char_at_middle (l r : list ascii) (c : ascii) :
  char_at (l ++ c :: r) (length l) = c.
Proof. unfold char_at. now rewrite list_lookup_middle. Qed.

Lemma char_at_end (l : list ascii) (i : nat) :
  (length l <= i)%nat -> char_at l i = NUL.
Proof. intros H. unfold char_at. now rewrite lookup_ge_None_2. Qed.

Lemma char_at_drop (l : list ascii) (i : nat) :
  char_at l i = match drop i l with c :: _ => c | [] => NUL end.
Proof.
  unfold char_at. revert i. induction l as [|x l IH]; intros [|i]; simpl; auto.
Qed.

(** ** The machine *)

Lemma deref_in_range (s : bfState) (v : Z) :
  deref s = Some v -> 0 <= ptr s < Z.of_nat (length (tape s)).
Proof.
  unfold deref. destruct (Z.leb_spec 0 (ptr s)) as [Hp|Hp]; [|discriminate].
  intros Hl%lookup_lt_Some. lia.
Qed.

Lemma assign_in_range (s : bfState) (v : Z) :
  0 <= ptr s < Z.of_nat (length (tape s)) ->
  assign s v = Some {| tape := <[Z.to_nat (ptr s) := v]> (tape s); ptr := ptr s |}.
Proof.
  intros H. unfold assign.
  destruct (Z.leb_spec 0 (ptr s)); [|lia].
  destruct (Z.ltb_spec (ptr s) (Z.of_nat (length (tape s)))); [reflexivity|lia].
Qed.

Lemma deref_assign (s : bfState) (v : Z) :
  0 <= ptr s < Z.of_nat (length (tape s)) ->
  deref {| tape := <[Z.to_nat (ptr s) := v]> (tape s); ptr := ptr s |} = Some v.
Proof.
  intros H. unfold deref. simpl.
  destruct (Z.leb_spec 0 (ptr s)); [|lia].
  apply list_lookup_insert_eq. lia.
Qed.

(** ** Suppressed execution *)

(** C7: while the suppression depth is not zero, no step of the
    interpreter changes the tape, the cursor or the streams; the six
    operations only move on in the text, an opening bracket still pushes
    the position after it, and a closing bracket still pops or repeats
    and lowers the suppression depth. *)
Theorem suppressed_step_frame (text : list ascii) (k : interp) :
  nskip k <> O ->
  (forall k', bfInterpret_step text k = Next k' \/ bfInterpret_step text k = Halt k' ->
     machine k' = machine k /\ host k' = host k) /\
  (In (classify (char_at text (program k))) [TPlus; TMinus; TLt; TGt; TComma; TDot] ->
     exists pc, (program k < pc)%nat /\ bfInterpret_step text k = skip_to k pc) /\
  (classify (char_at text (program k)) = TOpen ->
     forall v, length (loops k) <> MAX_NESTING -> deref (machine k) = Some v ->
     bfInterpret_step text k =
       Next {| program := S (program k); loops := S (program k) :: loops k;
               nskip := if v =? 0 then S (nskip k) else nskip k;
               machine := machine k; host := host k |}) /\
  (classify (char_at text (program k)) = TClose ->
     forall top below v, loops k = top :: below -> deref (machine k) = Some v ->
     bfInterpret_step text k =
       Next {| program := if v =? 0 then S (program k) else top;
               loops := if v =? 0 then below else top :: below;
               nskip := Nat.pred (nskip k);
               machine := machine k; host := host k |}).
Proof.
  intros Hs.
  assert (Hn : (nskip k =? 0)%nat = false) by now apply Nat.eqb_neq.
  unfold bfInterpret_step.
  split; [|split; [|split]].
  - intros k'.
    destruct (classify (char_at text (program k))); rewrite ?Hn; unfold skip_to;
      repeat match goal with
             | |- context [if ?b then Abort else _] => destruct b
             | |- context [match ?l with [] => _ | _ :: _ => _ end] => destruct l
             | |- context [match ?o with Some _ => _ | None => _ end] => destruct o
             end;
      intros [E|E]; inversion E; split; reflexivity.
  - intros Hc. destruct (classify (char_at text (program k))); rewrite ?Hn;
      simpl in Hc; try (exfalso; intuition discriminate);
      eexists; (split; [|reflexivity]); lia.
  - intros Hc v Hl Hd. rewrite Hc.
    apply Nat.eqb_neq in Hl. now rewrite Hl, Hd.
  - intros Hc top below v Hl Hd. now rewrite Hc, Hl, Hd.
Qed.

Lemma suppressed_step_frame_witness :
  let k := {| program := O; loops := [1%nat]; nskip := 1; machine := bfState_init;
              host := stdio_init [7] |} in
  nskip k <> O /\
  exists pc, (program k < pc)%nat /\ bfInterpret_step (src "+++]") k = skip_to k pc.
Proof.
  intros k. assert (H : nskip k <> O) by discriminate.
  split; [exact H|].
  apply (proj1 (proj2 (suppressed_step_frame (src "+++]") k H))).
  left. reflexivity.
Defined.

(** ** Input at the end of the stream *)

(** C10: a [,] that is executed when standard input is exhausted stores
    255, the value of EOF as an unsigned char, in the current cell and
    goes on with the next character. *)
Theorem comma_at_eof_stores_255 (text : list ascii) (k : interp) :
  classify (char_at text (program k)) = TComma ->
  nskip k = O ->
  stdin (host k) = [] ->
  0 <= ptr (machine k) < Z.of_nat (length (tape (machine k))) ->
  bfInterpret_step text k =
    Next {| program := S (program k); loops := loops k; nskip := nskip k;
            machine := {| tape := <[Z.to_nat (ptr (machine k)) := 255]> (tape (machine k));
                          ptr := ptr (machine k) |};
            host := {| stdin := []; stdin_eof := true; stdout := stdout (host k) |} |}.
Proof.
  intros Hc Hs Hin Hp. unfold bfInterpret_step. rewrite Hc, Hs. simpl.
  unfold getchar. rewrite Hin.
  change (to_uchar EOF) with 255.
  now rewrite assign_in_range.
Qed.

Lemma comma_at_eof_stores_255_witness :
  bfInterpret_step (src ",") (interp_init bfState_init (stdio_init [])) =
    Next {| program := 1; loops := []; nskip := O;
            machine := {| tape := <[O := 255]> (tape bfState_init); ptr := 0 |};
            host := {| stdin := []; stdin_eof := true; stdout := [] |} |}.
Proof.
  apply (comma_at_eof_stores_255 (src ",") (interp_init bfState_init (stdio_init []))).
  - reflexivity.
  - reflexivity.
  - reflexivity.
  - vm_compute. split; [discriminate|reflexivity].
Defined.

(** ** The end of the text *)

Lemma step_cut_at_nul (p1 p2 : list ascii) (k : interp) :
  (program k <= length p1)%nat ->
  Forall (fun l => (l <= length p1)%nat) (loops k) ->
  bfInterpret_step (p1 ++ NUL :: p2) k = bfInterpret_step p1 k /\
  (forall k', bfInterpret_step p1 k = Next k' ->
     (program k' <= length p1)%nat /\ Forall (fun l => (l <= length p1)%nat) (loops k')).
Proof.
  intros Hpc Hl.
  assert (Hc : char_at (p1 ++ NUL :: p2) (program k) = char_at p1 (program k)).
  { destruct (Nat.eq_dec (program k) (length p1)) as [->|Hne].
    - now rewrite char_at_middle, char_at_end.
    - apply char_at_app_l. lia. }
  assert (Hspan : forall c, c <> NUL -> (program k < length p1)%nat ->
            span_len c (drop (S (program k)) (p1 ++ NUL :: p2)) =
            span_len c (drop (S (program k)) p1)).
  { intros c Hne Hlt. rewrite drop_app_le by lia. apply span_len_stop. congruence. }
  assert (Hlen : forall c, (S (program k) + span_len c (drop (S (program k)) p1)
                            <= length p1 \/ length p1 <= program k)%nat).
  { intros c. pose proof (span_len_le c (drop (S (program k)) p1)) as H.
    rewrite length_drop in H. lia. }
  unfold bfInterpret_step. rewrite Hc.
  destruct (classify (char_at p1 (program k))) eqn:Ecl.
  all: try (assert (Hlt : (program k < length p1)%nat)
             by (destruct (Nat.lt_ge_cases (program k) (length p1)) as [?|Hge];
                 [assumption|rewrite (char_at_end _ _ Hge) in Ecl; discriminate])).
  all: rewrite ?Hspan by (try assumption; discriminate).
  all: split; [reflexivity|].
  all: pose proof (Hlen "<"%char); pose proof (Hlen ">"%char); pose proof (Hlen "+"%char);
       pose proof (Hlen "-"%char); pose proof (Hlen " "%char).
  all: intros k'; unfold with_machine, skip_to;
       repeat match goal with
         | |- context [if ?b then _ else _] => destruct b
         | |- context [match ?l with [] => _ | _ :: _ => _ end] =>
             let E := fresh "E" in destruct l eqn:E
         | |- context [match ?o with Some _ => _ | None => _ end] => destruct o
         | |- context [let '(_, _) := ?p in _] => destruct p
         end;
       intros E'; inversion E'; subst; cbn [program loops].
  all: split; [try lia|]; try assumption.
  all: try (constructor; [lia|assumption]).
  all: inversion Hl; subst; try assumption; lia.
Qed.

Lemma loop_cut_at_nul (p1 p2 : list ascii) (fuel : nat) (k : interp) :
  (program k <= length p1)%nat ->
  Forall (fun l => (l <= length p1)%nat) (loops k) ->
  bfInterpret_loop fuel (p1 ++ NUL :: p2) k = bfInterpret_loop fuel p1 k.
Proof.
  revert k. induction fuel as [|fuel IH]; intros k Hpc Hl; [reflexivity|].
  simpl. destruct (step_cut_at_nul p1 p2 k Hpc Hl) as [-> Hinv].
  destruct (bfInterpret_step p1 k) as [k'| | |]; try reflexivity.
  destruct (Hinv k' eq_refl). now apply IH.
Qed.

(** C9: a NUL in the text ends the program.  The step at a NUL returns,
    and a text with a NUL in it runs as the text before the NUL does:
    nothing behind the NUL is executed. *)
Theorem nul_ends_program (p1 p2 : list ascii) :
  (forall l n m h,
     bfInterpret_step (p1 ++ NUL :: p2) (mkInterp (length p1) l n m h) =
       Halt (mkInterp (length p1) l n m h)) /\
  (forall fuel s w,
     bfInterpret fuel (p1 ++ NUL :: p2) s w = bfInterpret fuel p1 s w).
Proof.
  split.
  - intros l n m h. unfold bfInterpret_step. simpl program.
    now rewrite char_at_middle.
  - intros fuel s w. unfold bfInterpret. apply loop_cut_at_nul; simpl; [lia|constructor].
Qed.

(** ** Runs in the code generator *)

Lemma span_len_replicate_app (c : ascii) (n : nat) (l : list ascii) :
  span_len c (replicate n c ++ l) = (n + span_len c l)%nat.
Proof.
  induction n as [|n IH]; simpl; [reflexivity|].
  now rewrite Ascii.eqb_refl, IH.
Qed.

Lemma span_len_head (c : ascii) (l : list ascii) :
  char_at l 0 <> c -> span_len c l = O.
Proof.
  destruct l as [|x l]; [reflexivity|]. unfold char_at. simpl.
  intros H. destruct (Ascii.eqb_spec x c); congruence.
Qed.

Lemma jit_step_run (pre post : list ascii) (c : ascii) (n : nat) (g : jit) :
  In c ["+"; "-"; ">"; "<"]%char ->
  post <> [] ->
  char_at post 0 <> c ->
  tok g = length pre ->
  bfJITCompile_step (pre ++ replicate (S n) c ++ post) g =
    Ok {| tok := length pre + S n;
          machineCode := machineCode g ++ run_opcode c ++ [Z.of_nat (S n) mod 256];
          jmpLocIndex := jmpLocIndex g |}.
Proof.
  intros Hc Hne Hpost Htok. unfold bfJITCompile_step. rewrite Htok.
  assert (Hch : char_at (pre ++ replicate (S n) c ++ post) (length pre) = c)
    by apply char_at_middle.
  assert (Hsp : span_len c (drop (length pre) (pre ++ replicate (S n) c ++ post)) = S n).
  { rewrite drop_app_length, span_len_replicate_app, span_len_head by assumption. lia. }
  assert (Hsc : scan c (length pre) (pre ++ replicate (S n) c ++ post) = Some (S n)).
  { unfold scan. rewrite Hsp, !length_app, length_replicate.
    destruct post; [congruence|].
    destruct (Nat.ltb_spec (length pre + S n) (length pre + (S n + length (a :: post))));
      [reflexivity|simpl in *; lia]. }
  rewrite Hch.
  simpl in Hc. destruct Hc as [<-|[<-|[<-|[<-|[]]]]]; cbn [classify Ascii.eqb Bool.eqb];
    rewrite Hsc; unfold run_opcode, to_uint8; cbn [classify Ascii.eqb Bool.eqb];
    repeat f_equal; lia.
Qed.

(** A run that ends the text: the scan dereferences [cend()]. *)
Lemma jit_step_run_end (pre : list ascii) (c : ascii) (n : nat) (g : jit) :
  In c ["+"; "-"; ">"; "<"]%char ->
  tok g = length pre ->
  bfJITCompile_step (pre ++ replicate (S n) c) g = Undefined.
Proof.
  intros Hc Htok. unfold bfJITCompile_step. rewrite Htok.
  assert (Hch : char_at (pre ++ replicate (S n) c) (length pre) = c).
  { change (replicate (S n) c) with (c :: replicate n c). apply char_at_middle. }
  assert (Hsc : scan c (length pre) (pre ++ replicate (S n) c) = None).
  { apply scan_end. rewrite drop_app_length.
    rewrite <- (app_nil_r (replicate (S n) c)) at 2.
    rewrite span_len_replicate_app, length_app, length_replicate. simpl. lia. }
  rewrite Hch.
  simpl in Hc. destruct Hc as [<-|[<-|[<-|[<-|[]]]]]; cbn [classify Ascii.eqb Bool.eqb];
    now rewrite Hsc.
Qed.

(** C2, as the generator has it: a run of [+], [-], [>] or [<] of any
    length that is followed by another character becomes one
    instruction, whose one-byte immediate is the length of the run
    modulo 256; a run of more than 255 is not split. *)
Theorem run_is_one_instruction (pre post : list ascii) (c : ascii) (n : nat) (g : jit) :
  In c ["+"; "-"; ">"; "<"]%char ->
  post <> [] ->
  char_at post 0 <> c ->
  tok g = length pre ->
  bfJITCompile_step (pre ++ replicate (S n) c ++ post) g =
    Ok {| tok := length pre + S n;
          machineCode := machineCode g ++ run_opcode c ++ [Z.of_nat (S n) mod 256];
          jmpLocIndex := jmpLocIndex g |}.
Proof. apply jit_step_run. Qed.

Lemma run_is_one_instruction_witness :
  bfJITCompile_step (src "++++.") (jit_init 0) =
    Ok {| tok := 4; machineCode := prologue 0 ++ [0x80; 0x3; 4]; jmpLocIndex := [] |}.
Proof.
  apply (run_is_one_instruction [] (src ".") "+"%char 3 (jit_init 0)).
  - left. reflexivity.
  - discriminate.
  - discriminate.
  - reflexivity.
Defined.

(** A run of 256 [+] before a [.] becomes one [addb] with the
    immediate 0. *)
Lemma run_of_256_is_not_split :
  bfJITCompile_code (replicate 256 "+"%char ++ src ".") 0 =
    Ok (prologue 0 ++ [0x80; 0x3; 0] ++ write_code ++ epilogue).
Proof. vm_compute. reflexivity. Qed.

(** ** An unmatched closing bracket *)

Lemma interp_close_empty (text : list ascii) (k : interp) :
  classify (char_at text (program k)) = TClose -> loops k = [] ->
  bfInterpret_step text k = Abort.
Proof. intros Hc Hl. unfold bfInterpret_step. now rewrite Hc, Hl. Qed.

Lemma jit_step_close_empty (text : list ascii) (g : jit) :
  classify (char_at text (tok g)) = TClose -> jmpLocIndex g = [] ->
  bfJITCompile_step text g = Undefined.
Proof. intros Hc Hl. unfold bfJITCompile_step. now rewrite Hc, Hl. Qed.

(** C3 on the text "]": the interpreter calls std::terminate(), the code
    generator calls back() on its empty relocation stack without a
    check, which is undefined. *)
Theorem unmatched_close_in_both_modes :
  (forall fuel w, bfRunDefault (S fuel) (src "]") w = Terminate) /\
  (forall fuel sys io, bfRunJIT fuel sys (src "]") io = Undefined).
Proof.
  split.
  - intros fuel w. reflexivity.
  - intros fuel sys io. reflexivity.
Qed.

(** ** The size of the mapping *)

Lemma mapped_bytes_one_page (size ps : Z) :
  0 < size <= ps -> mapped_bytes (mmap_length size ps) ps = ps.
Proof.
  intros H. unfold mapped_bytes, mmap_length.
  assert (E : (size + ps - 1) / ps = 1)
    by (symmetry; apply Z.div_unique with (r := size - 1); lia).
  rewrite E.
  replace ((1 + ps - 1) / ps) with 1; [lia|].
  apply Z.div_unique with (r := 0); lia.
Qed.

Lemma mapped_bytes_too_small (size ps : Z) :
  2 <= ps -> ps < size -> mapped_bytes (mmap_length size ps) ps < size.
Proof.
  intros Hps Hsize. unfold mapped_bytes, mmap_length.
  set (q := (size + ps - 1) / ps).
  assert (Hq : ps * q <= size + ps - 1 < ps * q + ps).
  { unfold q. pose proof (Z.div_mod (size + ps - 1) ps ltac:(lia)).
    pose proof (Z.mod_pos_bound (size + ps - 1) ps ltac:(lia)). lia. }
  assert (Hq2 : 2 <= q) by nia.
  set (p := (q + ps - 1) / ps).
  assert (Hp : ps * p <= q + ps - 1 < ps * p + ps).
  { unfold p. pose proof (Z.div_mod (q + ps - 1) ps ltac:(lia)).
    pose proof (Z.mod_pos_bound (q + ps - 1) ps ltac:(lia)). lia. }
  fold p. destruct (Z.eq_dec q 2) as [E|E].
  - assert (p = 1) by nia. lia.
  - assert (q + ps - 1 < size) by nia. nia.
Qed.

(** C4 at a buffer of 4113 bytes, the code of 205 [,], with pages of 4096
    bytes: the length passed to mmap is the number of pages, 2, so one
    page is mapped and the copy runs past its end.  When mmap fails the
    process exits with status 1 and no generated code is run. *)
Theorem mapping_smaller_than_buffer :
  (forall fuel io,
     bfJITCompile_code (replicate 205 ","%char) (tape_addr system_4k) <> Undefined /\
     mmap_length 4113 (pageSize system_4k) = 2 /\
     mapped_bytes 2 (pageSize system_4k) = 4096 /\
     bfRunJIT fuel system_4k (replicate 205 ","%char) io = Undefined) /\
  (forall fuel ps a r code s io,
     setupExecutableMem fuel (mkSystem ps true a r) code s io = Exit 1 cannot_allocate).
Proof.
  split.
  - intros fuel io. split; [|split; [|split]].
    + vm_compute. discriminate.
    + reflexivity.
    + reflexivity.
    + vm_compute. reflexivity.
  - reflexivity.
Qed.

(** ** Overwriting four bytes of the code *)

Lemma overwrite_eq (v d : list Z) (L : nat) :
  (4 <= L <= length v)%nat ->
  insert_at (L - 4) d (erase (L - 4) L v) = take (L - 4) v ++ d ++ drop L v.
Proof.
  intros H. unfold insert_at, erase.
  assert (Hl : length (take (L - 4) v) = (L - 4)%nat) by (rewrite length_take; lia).
  rewrite <- Hl at 1 3. now rewrite take_app_length, drop_app_length.
Qed.

Lemma overwrite_length (v d : list Z) (L : nat) :
  length d = 4%nat -> (4 <= L <= length v)%nat ->
  length (take (L - 4) v ++ d ++ drop L v) = length v.
Proof.
  intros Hd H. rewrite !length_app, length_take, length_drop. lia.
Qed.

Lemma overwrite_lookup_other (v d : list Z) (L i : nat) :
  length d = 4%nat -> (4 <= L <= length v)%nat -> (i < L - 4 \/ L <= i)%nat ->
  (take (L - 4) v ++ d ++ drop L v) !! i = v !! i.
Proof.
  intros Hd H Hi.
  assert (Hl : length (take (L - 4) v) = (L - 4)%nat) by (rewrite length_take; lia).
  destruct Hi as [Hi|Hi].
  - rewrite lookup_app_l by lia. rewrite lookup_take. now destruct (decide (i < L - 4)%nat).
  - rewrite lookup_app_r by lia. rewrite lookup_app_r by lia.
    rewrite lookup_drop. f_equal. lia.
Qed.

Lemma overwrite_lookup_in (v d : list Z) (L j : nat) :
  (4 <= L <= length v)%nat -> (j < length d)%nat ->
  (take (L - 4) v ++ d ++ drop L v) !! (L - 4 + j)%nat = d !! j.
Proof.
  intros H Hj.
  assert (Hl : length (take (L - 4) v) = (L - 4)%nat) by (rewrite length_take; lia).
  rewrite lookup_app_r by lia. rewrite lookup_app_l by lia. f_equal. lia.
Qed.

Lemma length_resolveAddrDiff (d : Z) : length (_resolveAddrDiff d) = 4%nat.
Proof. reflexivity. Qed.

Lemma length_prologue (a : Z) : length (prologue a) = 10%nat.
Proof. reflexivity. Qed.

(** ** One iteration of the generator *)

Lemma span_len_pos (text : list ascii) (p : nat) (c : ascii) :
  (p < length text)%nat -> char_at text p = c ->
  (1 <= span_len c (drop p text) <= length text - p)%nat.
Proof.
  intros Hp Hc. pose proof (span_len_le c (drop p text)) as Hle.
  rewrite length_drop in Hle. split; [|exact Hle].
  rewrite char_at_drop in Hc.
  destruct (drop p text) as [|x r] eqn:E.
  - apply (f_equal length) in E. rewrite length_drop in E. simpl in E. lia.
  - simpl. subst x. rewrite Ascii.eqb_refl. lia.
Qed.

Lemma jit_step_tok (text : list ascii) (g g' : jit) :
  (tok g < length text)%nat ->
  bfJITCompile_step text g = Ok g' ->
  (tok g < tok g' <= length text)%nat.
Proof.
  intros Hlt. unfold bfJITCompile_step.
  pose proof (classify_cases (char_at text (tok g))) as Hc.
  destruct (classify (char_at text (tok g)));
    try (pose proof (span_len_pos text (tok g) _ Hlt Hc));
    repeat match goal with
           | |- context [match ?l with [] => _ | _ :: _ => _ end] => destruct l
           | |- context [if ?b then _ else _] => destruct b
           | |- context [scan ?c ?p ?t] =>
               let Es := fresh "Es" in
               destruct (scan c p t) eqn:Es; [apply scan_inv in Es as [-> ?]|]
           end;
    intros E; inversion E; subst; simpl; try lia.
Qed.

(** The iteration for a closing bracket with [L] on top of the
    relocation stack: defined when the look-ahead finds a character
    other than a closing bracket inside the vector. *)
Lemma jit_step_close (text : list ascii) (g : jit) (L : nat) (rest : list nat) :
  classify (char_at text (tok g)) = TClose ->
  jmpLocIndex g = L :: rest ->
  (9 <= L <= length (machineCode g))%nat ->
  bfJITCompile_step text g =
    if (S (tok g) + span_len "]" (drop (S (tok g)) text) <? length text)%nat
    then Ok {| tok := S (tok g); machineCode := closed_code text g L; jmpLocIndex := rest |}
    else Undefined.
Proof.
  intros Hc Hstk HL. unfold bfJITCompile_step, closed_code, elision. rewrite Hc, Hstk.
  unfold scan.
  destruct (S (tok g) + span_len "]" (drop (S (tok g)) text) <? length text)%nat;
    [|now destruct (_ && _)].
  assert (Hsz : length (machineCode g ++ close_code) = (length (machineCode g) + 9)%nat)
    by (rewrite length_app; reflexivity).
  rewrite !Hsz.
  set (d1 := _resolveAddrDiff (to_uint32 (to_size_t (Z.of_nat L - _)))).
  set (d2 := _resolveAddrDiff (to_uint32 (to_size_t (_ - Z.of_nat L)))).
  assert (E0 : erase (length (machineCode g) + 9 - 4) (length (machineCode g) + 9)
                 (machineCode g ++ close_code)
               = machineCode g ++ [0x80; 0x3b; 0x0; 0xf; 0x85]).
  { unfold erase. rewrite drop_ge by lia. rewrite app_nil_r.
    replace (length (machineCode g) + 9 - 4)%nat with (length (machineCode g) + 5)%nat by lia.
    now rewrite take_app_add. }
  rewrite E0.
  assert (E1 : insert_at (length (machineCode g ++ [0x80; 0x3b; 0x0; 0xf; 0x85])) d1
                 (machineCode g ++ [0x80; 0x3b; 0x0; 0xf; 0x85])
               = machineCode g ++ [0x80; 0x3b; 0x0; 0xf; 0x85] ++ d1).
  { unfold insert_at. rewrite take_ge, drop_ge by lia. now rewrite app_nil_r, <- app_assoc. }
  rewrite E1.
  assert (Hlen : length (machineCode g ++ [0x80; 0x3b; 0x0; 0xf; 0x85] ++ d1)
                 = (length (machineCode g) + 9)%nat)
    by (rewrite !length_app; reflexivity).
  rewrite Hlen.
  destruct (Nat.leb_spec 4 L); [|lia].
  destruct (Nat.leb_spec L (length (machineCode g) + 9)); [|lia].
  cbn [andb].
  rewrite overwrite_eq by lia.
  rewrite take_app_le by lia. rewrite drop_app_le by lia.
  do 2 f_equal.
  destruct (0 <? span_len "]" (drop (S (tok g)) text))%nat.
  - now rewrite <- !app_assoc.
  - now rewrite !app_nil_r.
Qed.

(** What an iteration does to the code and to the relocation stack: it
    appends, or appends and pushes, or overwrites the four bytes before
    the popped position and appends. *)
Lemma jit_step_shape (text : list ascii) (g g' : jit) :
  stack_ok g ->
  bfJITCompile_step text g = Ok g' ->
  (exists bytes, machineCode g' = machineCode g ++ bytes /\ jmpLocIndex g' = jmpLocIndex g) \/
  (machineCode g' = machineCode g ++ open_code /\
   jmpLocIndex g' = length (machineCode g ++ open_code) :: jmpLocIndex g) \/
  (exists L rest d tail,
     jmpLocIndex g = L :: rest /\ jmpLocIndex g' = rest /\ length d = 4%nat /\
     machineCode g' = take (L - 4) (machineCode g) ++ d ++ drop L (machineCode g) ++ tail).
Proof.
  intros Hok.
  destruct (classify (char_at text (tok g))) eqn:Hc.
  8: { destruct (jmpLocIndex g) as [|L rest] eqn:Estk.
       - now rewrite jit_step_close_empty.
       - unfold stack_ok in Hok. rewrite Estk in Hok. destruct Hok as [HL Hrest].
         rewrite (jit_step_close text g L rest Hc Estk HL).
         destruct (_ <? _)%nat; [|discriminate]. intros [= <-].
         right. right. do 4 eexists.
         split; [reflexivity|split; [reflexivity|split; [|reflexivity]]]. reflexivity. }
  all: unfold bfJITCompile_step; rewrite Hc; try (destruct (scan _ _ _); [|discriminate]);
    intros [= <-]; cbn [machineCode jmpLocIndex].
  7: { right. left. split; reflexivity. }
  all: left; eexists; (split; [|reflexivity]); try reflexivity.
  all: now rewrite app_nil_r.
Qed.

Lemma stack_sorted_mono (b b' : nat) (stk : list nat) :
  (b <= b')%nat -> stack_sorted b stk -> stack_sorted b' stk.
Proof.
  destruct stk as [|L rest]; simpl; [trivial|]. intros Hb [HL Hrest]. split; [lia|assumption].
Qed.

Lemma stack_sorted_Forall (b : nat) (stk : list nat) :
  stack_sorted b stk -> Forall (fun L => (9 <= L <= b)%nat) stk.
Proof.
  revert b. induction stk as [|L rest IH]; intros b; simpl; [constructor|].
  intros [HL Hrest]. constructor; [assumption|].
  eapply Forall_impl; [apply (IH _ Hrest)|]. simpl. intros; lia.
Qed.

Lemma jit_step_stack_ok (text : list ascii) (g g' : jit) :
  stack_ok g ->
  bfJITCompile_step text g = Ok g' ->
  stack_ok g' /\ (length (machineCode g) <= length (machineCode g'))%nat.
Proof.
  intros Hok Hstep.
  destruct (jit_step_shape text g g' Hok Hstep)
    as [(bytes & Hmc & Hstk)|[(Hmc & Hstk)|(L & rest & d & tail & Hs & Hstk & Hd & Hmc)]];
    unfold stack_ok in *.
  - rewrite Hmc, Hstk, length_app. split; [|lia].
    eapply stack_sorted_mono; [|exact Hok]. lia.
  - rewrite Hmc, Hstk, length_app. split; [|lia].
    simpl. split; [lia|].
    eapply stack_sorted_mono; [|exact Hok]. lia.
  - rewrite Hs in Hok. destruct Hok as [HL Hrest].
    assert (Hlen : length (machineCode g') = (length (machineCode g) + length tail)%nat).
    { rewrite Hmc, !length_app, length_take, length_drop. lia. }
    rewrite Hstk, Hlen. split; [|lia].
    eapply stack_sorted_mono; [|exact Hrest]. lia.
Qed.

Lemma jit_step_settled (text : list ascii) (g g' : jit) (i : nat) :
  stack_ok g ->
  bfJITCompile_step text g = Ok g' ->
  settled g i ->
  settled g' i /\ machineCode g' !! i = machineCode g !! i.
Proof.
  intros Hok Hstep [Hi Hfree]. unfold settled.
  destruct (jit_step_shape text g g' Hok Hstep)
    as [(bytes & Hmc & Hstk)|[(Hmc & Hstk)|(L & rest & d & tail & Hs & Hstk & Hd & Hmc)]].
  - rewrite Hmc, Hstk, length_app. split; [split; [lia|assumption]|].
    now apply lookup_app_l.
  - rewrite Hmc, Hstk, length_app. split; [split; [lia|]|now apply lookup_app_l].
    constructor; [simpl; lia|assumption].
  - unfold stack_ok in Hok. rewrite Hs in Hok, Hfree.
    destruct Hok as [HL Hrest]. apply Forall_cons in Hfree as [HiL Hfrest].
    assert (Hlen : length (take (L - 4) (machineCode g) ++ d ++ drop L (machineCode g))
                   = length (machineCode g)) by (apply overwrite_length; lia).
    rewrite Hstk, Hmc.
    replace (take (L - 4) (machineCode g) ++ d ++ drop L (machineCode g) ++ tail)
      with ((take (L - 4) (machineCode g) ++ d ++ drop L (machineCode g)) ++ tail)
      by now rewrite <- !app_assoc.
    rewrite length_app, Hlen. split; [split; [lia|assumption]|].
    rewrite lookup_app_l by lia. apply overwrite_lookup_other; lia.
Qed.

(** ** The generator's loop *)

Lemma jit_loop_done (text : list ascii) (fuel : nat) (g : jit) :
  tok g = length text -> bfJITCompile_loop fuel text g = Ok g.
Proof.
  intros H. destruct fuel; simpl; now rewrite H, Nat.eqb_refl.
Qed.

Lemma jit_loop_unfold (text : list ascii) (fuel : nat) (g : jit) :
  tok g <> length text ->
  bfJITCompile_loop (S fuel) text g =
    and_then (bfJITCompile_step text g) (bfJITCompile_loop fuel text).
Proof.
  intros H. simpl. apply Nat.eqb_neq in H. rewrite H.
  now destruct (bfJITCompile_step text g).
Qed.

Lemma jit_loop_mono (text : list ascii) (f f' : nat) (g gf : jit) :
  bfJITCompile_loop f text g = Ok gf -> (f <= f')%nat ->
  bfJITCompile_loop f' text g = Ok gf.
Proof.
  revert f' g. induction f as [|f IH]; intros f' g H Hle.
  - simpl in H. destruct (Nat.eqb_spec (tok g) (length text)); [|discriminate].
    injection H as <-. now apply jit_loop_done.
  - destruct f' as [|f']; [lia|]. simpl in *.
    destruct (Nat.eqb_spec (tok g) (length text)); [assumption|].
    destruct (bfJITCompile_step text g) as [g'| | | |]; try discriminate.
    apply IH; [assumption|lia].
Qed.

Lemma jit_loop_inv (text : list ascii) (fuel : nat) (g gf : jit) :
  bfJITCompile_loop fuel text g = Ok gf ->
  tok g <> length text ->
  exists fuel' g', fuel = S fuel' /\ bfJITCompile_step text g = Ok g' /\
                   bfJITCompile_loop fuel' text g' = Ok gf.
Proof.
  intros Hloop Hne. destruct fuel as [|fuel].
  - simpl in Hloop. apply Nat.eqb_neq in Hne. rewrite Hne in Hloop. discriminate.
  - rewrite jit_loop_unfold in Hloop by assumption.
    destruct (bfJITCompile_step text g) as [g'| | | |]; try discriminate.
    now exists fuel, g'.
Qed.

Lemma jit_loop_final (text : list ascii) (fuel : nat) (g gf : jit) :
  bfJITCompile_loop fuel text g = Ok gf -> tok gf = length text.
Proof.
  revert g. induction fuel as [|fuel IH]; intros g; simpl.
  - destruct (Nat.eqb_spec (tok g) (length text)); [|discriminate]. now intros [= <-].
  - destruct (Nat.eqb_spec (tok g) (length text)); [now intros [= <-]|].
    destruct (bfJITCompile_step text g) as [g'| | | |]; try discriminate. apply IH.
Qed.

Lemma jit_loop_settled (text : list ascii) (fuel : nat) (g gf : jit) (i : nat) :
  bfJITCompile_loop fuel text g = Ok gf ->
  stack_ok g ->
  settled g i ->
  settled gf i /\ machineCode gf !! i = machineCode g !! i.
Proof.
  revert g. induction fuel as [|fuel IH]; intros g; simpl.
  - destruct (Nat.eqb_spec (tok g) (length text)); [|discriminate]. now intros [= <-].
  - destruct (Nat.eqb_spec (tok g) (length text)); [now intros [= <-]|].
    destruct (bfJITCompile_step text g) as [g'| | | |] eqn:Hstep; try discriminate.
    intros Hloop Hok Hset.
    destruct (jit_step_stack_ok text g g' Hok Hstep) as [Hok' _].
    destruct (jit_step_settled text g g' i Hok Hstep Hset) as [Hset' Heq].
    destruct (IH g' Hloop Hok' Hset') as [Hsf Hf]. split; [assumption|congruence].
Qed.

Lemma jit_loop_length (text : list ascii) (fuel : nat) (g gf : jit) :
  bfJITCompile_loop fuel text g = Ok gf ->
  stack_ok g ->
  (length (machineCode g) <= length (machineCode gf))%nat.
Proof.
  revert g. induction fuel as [|fuel IH]; intros g; simpl.
  - destruct (Nat.eqb_spec (tok g) (length text)); [|discriminate]. now intros [= <-].
  - destruct (Nat.eqb_spec (tok g) (length text)); [now intros [= <-]|].
    destruct (bfJITCompile_step text g) as [g'| | | |] eqn:Hstep; try discriminate.
    intros Hloop Hok.
    destruct (jit_step_stack_ok text g g' Hok Hstep) as [Hok' Hle].
    specialize (IH g' Hloop Hok'). lia.
Qed.

Lemma generates_inv (text : list ascii) (a : Z) (g : jit) :
  generates text a g ->
  stack_ok g /\ (tok g <= length text)%nat /\ (10 <= length (machineCode g))%nat.
Proof.
  induction 1 as [|g g' Hg (Hok & Htok & Hlen) Hlt Hstep].
  - split; [exact I|]. split; [simpl; lia|].
    cbn [jit_init machineCode]. rewrite length_prologue. lia.
  - destruct (jit_step_stack_ok text g g' Hok Hstep) as [Hok' Hle].
    pose proof (jit_step_tok text g g' Hlt Hstep). split; [assumption|]. split; lia.
Qed.

(** From every state of the run the loop goes on to the same final state. *)
Lemma generates_loop (text : list ascii) (a : Z) (g gf : jit) :
  bfJITCompile_loop (length text) text (jit_init a) = Ok gf ->
  generates text a g ->
  exists fuel, bfJITCompile_loop fuel text g = Ok gf.
Proof.
  intros Hf. induction 1 as [|g g' Hg [fuel IH] Hlt Hstep].
  - now exists (length text).
  - destruct (jit_loop_inv text fuel g gf IH ltac:(lia)) as (fuel' & g'' & -> & Hs & Hl).
    rewrite Hstep in Hs. injection Hs as <-. now exists fuel'.
Qed.

Lemma generates_final (text : list ascii) (a : Z) (g gf : jit) :
  bfJITCompile_loop (length text) text (jit_init a) = Ok gf ->
  generates text a g ->
  tok g = length text ->
  g = gf.
Proof.
  intros Hf Hg Htok. destruct (generates_loop text a g gf Hf Hg) as [fuel Hl].
  rewrite jit_loop_done in Hl by assumption. congruence.
Qed.

(** The next state of the run, when the text is not at its end. *)
Lemma generates_next (text : list ascii) (a : Z) (g gf : jit) :
  bfJITCompile_loop (length text) text (jit_init a) = Ok gf ->
  generates text a g ->
  (tok g < length text)%nat ->
  exists g', bfJITCompile_step text g = Ok g' /\ generates text a g'.
Proof.
  intros Hf Hg Hlt. destruct (generates_loop text a g gf Hf Hg) as [fuel Hl].
  destruct (jit_loop_inv text fuel g gf Hl ltac:(lia)) as (fuel' & g' & -> & Hs & _).
  exists g'. split; [assumption|]. now apply generates_step with g.
Qed.

(** ** Bytes that stay *)

Lemma has_bytes_app (code bytes : list Z) :
  has_bytes (code ++ bytes) (length code) bytes.
Proof.
  intros i b Hb. rewrite lookup_app_r by lia.
  now replace (length code + i - length code)%nat with i by lia.
Qed.

Lemma has_bytes_app_l (code rest bytes : list Z) (off : nat) :
  has_bytes code off bytes -> has_bytes (code ++ rest) off bytes.
Proof.
  intros H i b Hb. specialize (H i b Hb).
  rewrite lookup_app_l; [assumption|]. now apply lookup_lt_Some in H.
Qed.

Lemma has_bytes_prefix (code : list Z) (off : nat) (b1 b2 : list Z) :
  has_bytes code off (b1 ++ b2) ->
  has_bytes code off b1 /\ has_bytes code (off + length b1) b2.
Proof.
  intros H. split; intros i b Hb.
  - apply H. rewrite lookup_app_l; [assumption|]. now apply lookup_lt_Some in Hb.
  - replace (off + length b1 + i)%nat with (off + (length b1 + i))%nat by lia.
    apply H. rewrite lookup_app_r by lia.
    now replace (length b1 + i - length b1)%nat with i by lia.
Qed.

Lemma has_bytes_drop (code : list Z) (off : nat) (bytes : list Z) :
  has_bytes code off bytes -> exists rest, drop off code = bytes ++ rest.
Proof.
  revert off. induction bytes as [|b bytes IH]; intros off H.
  - now exists (drop off code).
  - assert (Hb : code !! off = Some b).
    { specialize (H O b eq_refl). now rewrite Nat.add_0_r in H. }
    destruct (IH (S off)) as [rest Hrest].
    { intros i x Hx. specialize (H (S i) x Hx).
      now replace (S off + i)%nat with (off + S i)%nat by lia. }
    exists rest. rewrite (drop_S _ _ _ Hb). simpl. now rewrite Hrest.
Qed.

Lemma has_bytes_final (text : list ascii) (fuel : nat) (g gf : jit)
    (off : nat) (bytes : list Z) :
  bfJITCompile_loop fuel text g = Ok gf ->
  stack_ok g ->
  has_bytes (machineCode g) off bytes ->
  (forall i, (i < length bytes)%nat -> settled g (off + i)) ->
  has_bytes (machineCode gf) off bytes.
Proof.
  intros Hl Hok Hb Hs i b Hi.
  assert (Hlt : (i < length bytes)%nat) by now apply lookup_lt_Some in Hi.
  destruct (jit_loop_settled text fuel g gf (off + i) Hl Hok (Hs i Hlt)) as [_ ->].
  now apply Hb.
Qed.

(** ** The final code *)

Lemma stack_sorted_free (b i : nat) (stk : list nat) :
  stack_sorted b stk -> (b <= i)%nat ->
  Forall (fun L => ~ (L - 4 <= i < L)%nat) stk.
Proof.
  intros Hs Hi. eapply Forall_impl; [apply stack_sorted_Forall, Hs|].
  simpl. intros; lia.
Qed.

Section Generated.

Variable text : list ascii.
Variable a : Z.
Variable gf : jit.
Hypothesis Hfinal : bfJITCompile_loop (length text) text (jit_init a) = Ok gf.

Lemma final_settled (g : jit) (off : nat) (bytes : list Z) :
  generates text a g ->
  has_bytes (machineCode g) off bytes ->
  (forall i, (i < length bytes)%nat -> settled g (off + i)) ->
  has_bytes (machineCode gf) off bytes.
Proof.
  intros Hg Hb Hs. destruct (generates_loop text a g gf Hfinal Hg) as [fuel Hl].
  eapply has_bytes_final; eauto. apply generates_inv in Hg. tauto.
Qed.

(** Bytes that an iteration appends without touching the stack are in
    the final code. *)
Lemma final_appended (g g' : jit) (bytes : list Z) :
  generates text a g ->
  (tok g < length text)%nat ->
  bfJITCompile_step text g = Ok g' ->
  machineCode g' = machineCode g ++ bytes ->
  jmpLocIndex g' = jmpLocIndex g ->
  has_bytes (machineCode gf) (length (machineCode g)) bytes.
Proof.
  intros Hg Hlt Hstep Hmc Hstk.
  assert (Hg' : generates text a g') by (eapply generates_step; eauto).
  apply (final_settled g'); [assumption| |].
  - rewrite Hmc. apply has_bytes_app.
  - intros i Hi. split.
    + rewrite Hmc, length_app. lia.
    + rewrite Hstk. destruct (generates_inv _ _ _ Hg) as (Hok & _).
      eapply stack_sorted_free; [exact Hok|lia].
Qed.

Lemma final_open (g : jit) :
  generates text a g ->
  (tok g < length text)%nat ->
  classify (char_at text (tok g)) = TOpen ->
  let g' := {| tok := S (tok g); machineCode := machineCode g ++ open_code;
               jmpLocIndex := (length (machineCode g) + 9)%nat :: jmpLocIndex g |} in
  bfJITCompile_step text g = Ok g' /\ generates text a g' /\
  has_bytes (machineCode gf) (length (machineCode g)) [0x80; 0x3b; 0x0; 0xf; 0x84].
Proof.
  intros Hg Hlt Hc g'.
  assert (Hstep : bfJITCompile_step text g = Ok g').
  { unfold bfJITCompile_step. rewrite Hc. unfold g'. now rewrite length_app. }
  assert (Hg' : generates text a g') by (eapply generates_step; eauto).
  split; [assumption|]. split; [assumption|].
  apply (final_settled g'); [assumption| |].
  - apply (has_bytes_prefix _ _ [0x80; 0x3b; 0x0; 0xf; 0x84] [0; 0; 0; 0]).
    apply has_bytes_app.
  - intros i Hi. simpl in Hi. split.
    + simpl. rewrite length_app. simpl. lia.
    + destruct (generates_inv _ _ _ Hg) as (Hok & _).
      simpl. constructor; [lia|].
      eapply stack_sorted_free; [exact Hok|lia].
Qed.

Lemma final_close (g : jit) (L : nat) (rest : list nat) :
  generates text a g ->
  (tok g < length text)%nat ->
  classify (char_at text (tok g)) = TClose ->
  jmpLocIndex g = L :: rest ->
  let E := Z.of_nat (length (machineCode g) + 9) in
  let g' := {| tok := S (tok g); machineCode := closed_code text g L; jmpLocIndex := rest |} in
  bfJITCompile_step text g = Ok g' /\ generates text a g' /\
  length (machineCode g') = (length (machineCode g) + 9 + length (elision text (tok g)))%nat /\
  has_bytes (machineCode gf) (length (machineCode g))
    ([0x80; 0x3b; 0x0; 0xf; 0x85]
       ++ _resolveAddrDiff (to_uint32 (to_size_t (Z.of_nat L - E)))
       ++ elision text (tok g)) /\
  has_bytes (machineCode gf) (L - 4)
    (_resolveAddrDiff (to_uint32 (to_size_t (E - Z.of_nat L)))).
Proof.
  intros Hg Hlt Hc Hstk E g'.
  destruct (generates_inv _ _ _ Hg) as (Hok & _).
  unfold stack_ok in Hok. rewrite Hstk in Hok. destruct Hok as [HL Hrest].
  assert (Hstep : bfJITCompile_step text g = Ok g').
  { destruct (generates_next text a g gf Hfinal Hg Hlt) as (g1 & Hs1 & _).
    rewrite (jit_step_close text g L rest Hc Hstk HL) in Hs1 |- *.
    destruct (_ <? _)%nat; [reflexivity|discriminate]. }
  assert (Hg' : generates text a g') by (eapply generates_step; eauto).
  assert (Hlen : length (machineCode g')
                 = (length (machineCode g) + 9 + length (elision text (tok g)))%nat).
  { unfold g', closed_code. cbn [machineCode].
    rewrite !length_app, length_take, length_drop, !length_resolveAddrDiff. simpl. lia. }
  split; [assumption|]. split; [assumption|]. split; [assumption|].
  set (fd := _resolveAddrDiff (to_uint32 (to_size_t (E - Z.of_nat L)))).
  set (bd := _resolveAddrDiff (to_uint32 (to_size_t (Z.of_nat L - E)))).
  assert (Hcode : machineCode g' =
            (take (L - 4) (machineCode g) ++ fd ++ drop L (machineCode g))
              ++ ([0x80; 0x3b; 0x0; 0xf; 0x85] ++ bd ++ elision text (tok g))).
  { unfold g', closed_code. cbn [machineCode]. fold E fd bd. now rewrite <- !app_assoc. }
  assert (Hov : length (take (L - 4) (machineCode g) ++ fd ++ drop L (machineCode g))
                = length (machineCode g)) by (apply overwrite_length; [reflexivity|lia]).
  split.
  - apply (final_settled g'); [assumption| |].
    + rewrite Hcode, <- Hov. apply has_bytes_app.
    + intros i Hi. split.
      * rewrite Hlen. rewrite !length_app in Hi. unfold bd in Hi.
        rewrite length_resolveAddrDiff in Hi. simpl in Hi. lia.
      * simpl. eapply stack_sorted_free; [exact Hrest|lia].
  - apply (final_settled g'); [assumption| |].
    + rewrite Hcode. apply has_bytes_app_l. intros i b Hb.
      rewrite overwrite_lookup_in; [assumption|lia|]. now apply lookup_lt_Some in Hb.
    + intros i Hi. unfold fd in Hi. rewrite length_resolveAddrDiff in Hi. split.
      * rewrite Hlen. lia.
      * simpl. eapply stack_sorted_free; [exact Hrest|lia].
Qed.

End Generated.

(** ** Immediates *)

Lemma byte_of (x m n : Z) :
  0 <= n -> Z.shiftr m n = 255 ->
  to_uint8 (Z.shiftr (Z.land x m) n) = (x / 2 ^ n) mod 256.
Proof.
  intros Hn Hm. unfold to_uint8.
  rewrite Z.shiftr_land, Hm. change 255 with (Z.ones 8).
  rewrite Z.land_ones by lia. rewrite Z.shiftr_div_pow2 by lia.
  change (2 ^ 8) with 256. apply Z.mod_mod. lia.
Qed.

Lemma byte_of_0 (x : Z) : to_uint8 (Z.land x 255) = x mod 256.
Proof.
  unfold to_uint8. change 255 with (Z.ones 8). rewrite Z.land_ones by lia.
  change (2 ^ 8) with 256. apply Z.mod_mod. lia.
Qed.

Lemma le_uint_resolveAddrDiff (x : Z) :
  0 <= x < 2 ^ 32 -> le_uint (_resolveAddrDiff x) = x.
Proof.
  intros Hx. unfold _resolveAddrDiff.
  rewrite byte_of_0, !byte_of by (try lia; reflexivity).
  cbn [le_uint].
  change (2 ^ 8) with 256. change (2 ^ 16) with (256 * 256).
  change (2 ^ 24) with (256 * 256 * 256).
  rewrite <- !Z.div_div by lia.
  change (2 ^ 32) with 4294967296 in Hx.
  Z.div_mod_to_equations. lia.
Qed.

Lemma le_uint_resolvePtrAddr (x : Z) :
  0 <= x < 2 ^ 64 -> le_uint (_resolvePtrAddr x) = x.
Proof.
  intros Hx. unfold _resolvePtrAddr.
  rewrite byte_of_0, !byte_of by (try lia; reflexivity).
  cbn [le_uint].
  change (2 ^ 8) with 256. change (2 ^ 16) with (256 * 256).
  change (2 ^ 24) with (256 * 256 * 256).
  change (2 ^ 32) with (256 * 256 * 256 * 256).
  change (2 ^ 40) with (256 * 256 * 256 * 256 * 256).
  change (2 ^ 48) with (256 * 256 * 256 * 256 * 256 * 256).
  change (2 ^ 56) with (256 * 256 * 256 * 256 * 256 * 256 * 256).
  rewrite <- !Z.div_div by lia.
  change (2 ^ 64) with 18446744073709551616 in Hx.
  Z.div_mod_to_equations. lia.
Qed.

(** The displacement that is stored for a distance [d] is read back as
    [d] when it fits in 32 bits with sign. *)
Lemma rel32_round_trip (d : Z) :
  - 2 ^ 31 <= d < 2 ^ 31 ->
  sext 32 (le_uint (_resolveAddrDiff (to_uint32 (to_size_t d)))) = d.
Proof.
  intros Hd. unfold to_uint32, to_size_t.
  assert (E : (d mod 2 ^ 64) mod 2 ^ 32 = d mod 2 ^ 32).
  { change (2 ^ 64) with 18446744073709551616. change (2 ^ 32) with 4294967296.
    Z.div_mod_to_equations. lia. }
  rewrite E. rewrite le_uint_resolveAddrDiff by (apply Z.mod_pos_bound; lia).
  unfold sext. change (2 ^ (32 - 1)) with 2147483648 in *.
  change (2 ^ 31) with 2147483648 in *. change (2 ^ 32) with 4294967296 in *.
  destruct (Z.ltb_spec (d mod 4294967296) 2147483648); Z.div_mod_to_equations; lia.
Qed.

(** ** Running the generated code *)

Section Stepping.

Variable tape_addr : Z.
Variable return_addr : Z.
Variable code : list Z.

Lemma x86_step_chunk (m : x86) (off k : nat) (chunk : list Z) (i : instr) (len : Z) :
  has_bytes code off chunk ->
  rip m = Z.of_nat off + Z.of_nat k ->
  (forall rest, decode (drop k chunk ++ rest) = Some (i, len)) ->
  (k <= length chunk)%nat ->
  x86_step tape_addr return_addr code m = exec tape_addr return_addr i (rip m + len) m.
Proof.
  intros Hb Hrip Hdec Hk. unfold x86_step.
  destruct (Z.ltb_spec (rip m) 0); [lia|].
  destruct (has_bytes_drop code off chunk Hb) as [rest Hrest].
  replace (Z.to_nat (rip m)) with (off + k)%nat by lia.
  rewrite <- drop_drop, Hrest, drop_app_le by assumption.
  now rewrite Hdec.
Qed.

Lemma x86_steps_trans (m1 m2 m3 : x86) :
  x86_steps tape_addr return_addr code m1 m2 -> x86_steps tape_addr return_addr code m2 m3 -> x86_steps tape_addr return_addr code m1 m3.
Proof.
  induction 1 as [|m m' m'' Hs H IH]; [trivial|].
  intros H3. eapply x86_steps_next; eauto.
Qed.

Lemma x86_steps_one (m m' : x86) :
  x86_step tape_addr return_addr code m = Next m' -> x86_steps tape_addr return_addr code m m'.
Proof. intros H. eapply x86_steps_next; [exact H|apply x86_steps_refl]. Qed.

Lemma x86_run_steps (m m' r : x86) (fuel : nat) :
  x86_steps tape_addr return_addr code m m' ->
  x86_run tape_addr return_addr fuel code m' = Ok r ->
  exists fuel', x86_run tape_addr return_addr fuel' code m = Ok r.
Proof.
  induction 1 as [|m m' m'' Hs H IH]; intros Hr; [now exists fuel|].
  destruct (IH Hr) as [fuel' Hf]. exists (S fuel'). simpl. now rewrite Hs.
Qed.

End Stepping.

(** ** Tokens of the generator *)

Lemma drop_char_at (text : list ascii) (p : nat) :
  (p < length text)%nat -> drop p text = char_at text p :: drop (S p) text.
Proof.
  intros Hp. destruct (lookup_lt_is_Some_2 text p Hp) as [x Hx].
  unfold char_at. rewrite Hx. simpl. now apply drop_S.
Qed.

Lemma span_len_drop_S (text : list ascii) (p : nat) (c : ascii) :
  (p < length text)%nat -> char_at text p = c ->
  span_len c (drop p text) = S (span_len c (drop (S p) text)).
Proof.
  intros Hp Hc. rewrite drop_char_at by assumption. simpl.
  now rewrite Hc, Ascii.eqb_refl.
Qed.

Lemma span_len_char_at (text : list ascii) (p i : nat) (c : ascii) :
  (i < span_len c (drop p text))%nat -> char_at text (p + i) = c.
Proof.
  revert p. induction i as [|i IH]; intros p Hi.
  - rewrite Nat.add_0_r.
    destruct (Nat.lt_ge_cases p (length text)) as [Hp|Hp].
    + rewrite drop_char_at in Hi by assumption. simpl in Hi.
      destruct (Ascii.eqb_spec (char_at text p) c); [assumption|lia].
    + rewrite drop_ge in Hi by assumption. simpl in Hi. lia.
  - destruct (Nat.lt_ge_cases p (length text)) as [Hp|Hp].
    + rewrite drop_char_at in Hi by assumption. simpl in Hi.
      destruct (Ascii.eqb_spec (char_at text p) c); [|lia].
      replace (p + S i)%nat with (S p + i)%nat by lia. apply IH. lia.
    + rewrite drop_ge in Hi by assumption. simpl in Hi. lia.
Qed.

Lemma span_len_in_text (text : list ascii) (p : nat) (c : ascii) :
  (p + span_len c (drop p text) <= length text \/ length text <= p)%nat.
Proof.
  pose proof (span_len_le c (drop p text)) as H. rewrite length_drop in H. lia.
Qed.

(** A scan that comes to the end of the text has passed over its last
    character. *)
Lemma span_to_end (text : list ascii) (p : nat) (c : ascii) :
  (p < length text)%nat ->
  (length text <= p + span_len c (drop p text))%nat ->
  last text = Some c.
Proof.
  intros Hp Hend.
  pose proof (span_len_char_at text p (length text - 1 - p) c ltac:(lia)) as Hc.
  replace (p + (length text - 1 - p))%nat with (pred (length text)) in Hc by lia.
  rewrite last_lookup.
  destruct (lookup_lt_is_Some_2 text (pred (length text)) ltac:(lia)) as [x Hx].
  unfold char_at in Hc. rewrite Hx in Hc. simpl in Hc. now rewrite Hx, Hc.
Qed.

Lemma span_inside (text : list ascii) (p : nat) (c : ascii) :
  ends_looking_ahead text = false ->
  looks_ahead c = true ->
  (p < length text)%nat ->
  (p + span_len c (drop p text) < length text)%nat.
Proof.
  intros He Hc Hp.
  destruct (Nat.lt_ge_cases (p + span_len c (drop p text)) (length text)) as [|Hge];
    [assumption|].
  unfold ends_looking_ahead in He. rewrite (span_to_end text p c Hp Hge) in He.
  congruence.
Qed.

Lemma scan_none_end (text : list ascii) (p : nat) (c : ascii) :
  (p < length text)%nat -> looks_ahead c = true ->
  scan c p text = None ->
  ends_looking_ahead text = true.
Proof.
  intros Hp Hc Hs. unfold scan in Hs.
  destruct (Nat.ltb_spec (p + span_len c (drop p text)) (length text)); [discriminate|].
  unfold ends_looking_ahead. now rewrite (span_to_end text p c Hp).
Qed.

Lemma char_at_lt (text : list ascii) (p : nat) :
  char_at text p <> NUL -> (p < length text)%nat.
Proof.
  intros H. destruct (Nat.lt_ge_cases p (length text)); [assumption|].
  now rewrite char_at_end in H.
Qed.

Lemma jit_loop_generates (text : list ascii) (a : Z) (fuel : nat) (g gf : jit) :
  generates text a g ->
  bfJITCompile_loop fuel text g = Ok gf ->
  generates text a gf.
Proof.
  revert g. induction fuel as [|fuel IH]; intros g Hg; simpl.
  - destruct (Nat.eqb_spec (tok g) (length text)); [|discriminate]. now intros [= <-].
  - destruct (Nat.eqb_spec (tok g) (length text)); [now intros [= <-]|].
    destruct (bfJITCompile_step text g) as [g'| | | |] eqn:Hstep; try discriminate.
    apply IH. eapply generates_step; eauto.
    destruct (generates_inv _ _ _ Hg) as (_ & Hle & _). lia.
Qed.

Section Tokens.

Variable text : list ascii.
Variable a : Z.
Variable gf : jit.
Hypothesis Hfinal : bfJITCompile_loop (length text) text (jit_init a) = Ok gf.

Lemma gen_run (g : jit) (c : ascii) :
  generates text a g ->
  (tok g < length text)%nat ->
  char_at text (tok g) = c ->
  In c ["+"; "-"; ">"; "<"]%char ->
  let n := S (span_len c (drop (S (tok g)) text)) in
  let g' := {| tok := tok g + n;
               machineCode := machineCode g ++ run_opcode c ++ [to_uint8 (Z.of_nat n)];
               jmpLocIndex := jmpLocIndex g |} in
  generates text a g' /\
  has_bytes (machineCode gf) (length (machineCode g))
    (run_opcode c ++ [to_uint8 (Z.of_nat n)]).
Proof.
  intros Hg Hlt Hc Hin n g'.
  assert (Hstep : bfJITCompile_step text g = Ok g').
  { destruct (generates_next text a g gf Hfinal Hg Hlt) as (g1 & Hs1 & _).
    rewrite Hs1. f_equal. revert Hs1. unfold bfJITCompile_step, g', n. rewrite Hc.
    simpl in Hin. destruct Hin as [<-|[<-|[<-|[<-|[]]]]]; cbn [classify Ascii.eqb Bool.eqb];
      (destruct (scan _ _ _) as [m|] eqn:Es; [|discriminate]);
      apply scan_inv in Es as [-> _];
      rewrite (span_len_drop_S text (tok g) _ Hlt Hc); intros [= <-]; unfold run_opcode;
      cbn [classify Ascii.eqb Bool.eqb]; f_equal; lia. }
  split; [eapply generates_step; eauto|].
  eapply final_appended; eauto.
Qed.

Lemma gen_io (g : jit) (bytes : list Z) :
  generates text a g ->
  (tok g < length text)%nat ->
  (classify (char_at text (tok g)) = TComma /\ bytes = read_code \/
   classify (char_at text (tok g)) = TDot /\ bytes = write_code) ->
  let g' := {| tok := S (tok g); machineCode := machineCode g ++ bytes;
               jmpLocIndex := jmpLocIndex g |} in
  generates text a g' /\ has_bytes (machineCode gf) (length (machineCode g)) bytes.
Proof.
  intros Hg Hlt Hc g'.
  assert (Hstep : bfJITCompile_step text g = Ok g').
  { unfold bfJITCompile_step, g'. destruct Hc as [[-> ->]|[-> ->]]; reflexivity. }
  split; [eapply generates_step; eauto|].
  eapply final_appended; eauto.
Qed.

Lemma gen_noop (g : jit) :
  generates text a g ->
  (tok g < length text)%nat ->
  In (classify (char_at text (tok g))) [TSpace; TNul; TOther] ->
  generates text a {| tok := S (tok g); machineCode := machineCode g;
                      jmpLocIndex := jmpLocIndex g |}.
Proof.
  intros Hg Hlt Hc. eapply generates_step; [exact Hg|exact Hlt|].
  unfold bfJITCompile_step. simpl in Hc.
  destruct Hc as [<-|[<-|[<-|[]]]]; reflexivity.
Qed.

Lemma gen_spaces (n : nat) (g : jit) :
  generates text a g ->
  (forall i, (i < n)%nat -> char_at text (tok g + i) = " "%char) ->
  generates text a {| tok := tok g + n; machineCode := machineCode g;
                      jmpLocIndex := jmpLocIndex g |}.
Proof.
  revert g. induction n as [|n IH]; intros g Hg Hsp.
  - rewrite Nat.add_0_r. now destruct g.
  - assert (Hc : char_at text (tok g) = " "%char).
    { rewrite <- (Nat.add_0_r (tok g)). apply Hsp. lia. }
    assert (Hlt : (tok g < length text)%nat) by (apply char_at_lt; now rewrite Hc).
    pose proof (gen_noop g Hg Hlt) as Hg'. rewrite Hc in Hg'.
    specialize (Hg' ltac:(left; reflexivity)).
    specialize (IH _ Hg'). cbn [tok machineCode jmpLocIndex] in IH.
    replace (tok g + S n)%nat with (S (tok g) + n)%nat by lia. apply IH.
    intros i Hi. replace (S (tok g) + i)%nat with (tok g + S i)%nat by lia.
    apply Hsp. lia.
Qed.

(** The code of a run of closing brackets: nine bytes each, with a
    short jump between one and the next. *)
Lemma closers_run (n : nat) (g : jit) :
  generates text a g ->
  span_len "]" (drop (tok g) text) = n ->
  exists g', closes text n g g' /\ generates text a g' /\
    (length (machineCode g') + (if (n =? 0)%nat then 0 else 2)
     = length (machineCode g) + 11 * n)%nat.
Proof.
  revert g. induction n as [|n IH]; intros g Hg Hn.
  - exists g. split; [constructor|]. split; [assumption|]. simpl. lia.
  - assert (Hc : char_at text (tok g) = "]"%char).
    { rewrite <- (Nat.add_0_r (tok g)). apply span_len_char_at. lia. }
    assert (Hlt : (tok g < length text)%nat) by (apply char_at_lt; now rewrite Hc).
    assert (Hcl : classify (char_at text (tok g)) = TClose) by now rewrite Hc.
    rewrite (span_len_drop_S text (tok g) _ Hlt Hc) in Hn. injection Hn as Hn.
    destruct (generates_next text a g gf Hfinal Hg Hlt) as (g1 & Hstep & Hg1).
    destruct (jmpLocIndex g) as [|L rest] eqn:Hstk.
    { rewrite jit_step_close_empty in Hstep by assumption. discriminate. }
    destruct (final_close text a gf Hfinal g L rest Hg Hlt Hcl Hstk)
      as (Hstep' & _ & Hlen & _).
    rewrite Hstep in Hstep'. injection Hstep' as ->.
    destruct (IH _ Hg1) as (g' & Hcloses & Hg' & Hl).
    { exact Hn. }
    exists g'. split; [eapply closes_S; eauto|]. split; [assumption|].
    rewrite Hlen in Hl. cbn [tok] in Hl. unfold elision in Hl. rewrite Hn in Hl.
    simpl Nat.eqb. cbv iota.
    destruct n as [|n]; simpl in Hl |- *; lia.
Qed.

(** In a balanced text no position is left on the relocation stack. *)
Lemma balanced_from_skip (c : ascii) (d : nat) (l : list ascii) :
  classify c <> TOpen -> classify c <> TClose ->
  balanced_from d (drop (span_len c l) l) = balanced_from d l.
Proof.
  intros Ho Hc. induction l as [|x l IH]; simpl; [reflexivity|].
  destruct (Ascii.eqb_spec x c) as [->|Hne]; [|reflexivity].
  simpl. rewrite IH. destruct (classify c); congruence.
Qed.

Lemma generates_balanced (g : jit) :
  generates text a g ->
  balanced_from (length (jmpLocIndex g)) (drop (tok g) text) = balanced text.
Proof.
  induction 1 as [|g g' Hg IH Hlt Hstep]; [reflexivity|].
  rewrite <- IH. clear IH.
  pose proof (classify_cases (char_at text (tok g))) as Hc.
  pose proof (span_len_drop_S text (tok g) _ Hlt eq_refl) as Hsp.
  rewrite (drop_char_at text (tok g) Hlt).
  unfold bfJITCompile_step in Hstep.
  cbn [balanced_from].
  destruct (classify (char_at text (tok g))) eqn:Ecl.
  1-4: (destruct (scan _ _ _) as [m|] eqn:Es; [|discriminate]);
       apply scan_inv in Es as [-> _];
       injection Hstep as <-; cbn [tok jmpLocIndex]; rewrite Hc in Hsp; rewrite Hsp;
       match goal with
       | |- context [S (?t + S ?x - 1)] =>
           replace (S (t + S x - 1)) with (S t + x)%nat by lia
       end;
       rewrite <- drop_drop; apply balanced_from_skip; discriminate.
  1-3, 5-7: injection Hstep as <-; reflexivity.
  destruct (jmpLocIndex g) as [|L rest]; [discriminate|].
  destruct (_ && _); [|discriminate].
  destruct (scan _ _ _); [|discriminate].
  injection Hstep as <-. reflexivity.
Qed.

Lemma balanced_stack_empty :
  balanced text = true -> jmpLocIndex gf = [].
Proof.
  intros Hb.
  assert (Hg : generates text a gf)
    by (eapply jit_loop_generates; [apply generates_init|exact Hfinal]).
  pose proof (generates_balanced gf Hg) as H.
  rewrite (jit_loop_final _ _ _ _ Hfinal), drop_all, Hb in H. simpl in H.
  destruct (jmpLocIndex gf); [reflexivity|discriminate].
Qed.

End Tokens.

(** ** The interpreter's streams and cells *)

Lemma max_span_bound (c : ascii) (text : list ascii) (p : nat) :
  (span_len c (drop p text) <= max_span c text)%nat.
Proof.
  revert p. induction text as [|x text IH]; intros p.
  - now rewrite drop_nil.
  - destruct p as [|p].
    + cbn [drop max_span]. lia.
    + cbn [drop max_span]. specialize (IH p). lia.
Qed.

Lemma has_bytes_join (code : list Z) (off : nat) (b1 b2 : list Z) :
  has_bytes code off b1 ->
  has_bytes code (off + length b1) b2 ->
  has_bytes code off (b1 ++ b2).
Proof.
  intros H1 H2 i b Hb.
  destruct (Nat.lt_ge_cases i (length b1)) as [Hi|Hi].
  - rewrite lookup_app_l in Hb by assumption. now apply H1.
  - rewrite lookup_app_r in Hb by assumption.
    replace (off + i)%nat with (off + length b1 + (i - length b1))%nat by lia.
    now apply H2.
Qed.

Lemma has_bytes_extend (code : list Z) (off : nat) (bytes : list Z) :
  has_bytes code off bytes ->
  (off + length bytes < length code)%nat ->
  exists x, has_bytes code off (bytes ++ [x]).
Proof.
  intros Hb Hlen.
  destruct (lookup_lt_is_Some_2 code (off + length bytes) Hlen) as [x Hx].
  exists x. apply has_bytes_join; [assumption|].
  intros [|i] b Hi; [|discriminate]. injection Hi as <-. now rewrite Nat.add_0_r.
Qed.

Lemma load_agrees (sys : system) (k : interp) (m : x86) :
  agrees sys k m -> load (tape_addr sys) m (rbx m) = deref (machine k).
Proof.
  intros [Hmem Hrbx _ _ _]. unfold load, deref. rewrite Hrbx, Hmem.
  replace (tape_addr sys + ptr (machine k) - tape_addr sys) with (ptr (machine k)) by lia.
  destruct (Z.leb_spec 0 (ptr (machine k))), (Z.leb_spec (tape_addr sys)
    (tape_addr sys + ptr (machine k))); try reflexivity; lia.
Qed.

Lemma store_agrees (sys : system) (k : interp) (m : x86) (v : Z) (s' : bfState) :
  agrees sys k m -> assign (machine k) v = Some s' ->
  store (tape_addr sys) m (rbx m) v = Some (tape s') /\ ptr s' = ptr (machine k) /\
  length (tape s') = length (tape (machine k)).
Proof.
  intros [Hmem Hrbx _ _ _]. unfold store, assign. rewrite Hrbx, Hmem.
  replace (tape_addr sys + ptr (machine k) - tape_addr sys) with (ptr (machine k)) by lia.
  destruct (Z.leb_spec 0 (ptr (machine k))), (Z.leb_spec (tape_addr sys)
    (tape_addr sys + ptr (machine k))); try lia; cbn [andb]; try discriminate.
  destruct (Z.ltb_spec (ptr (machine k)) (Z.of_nat (length (tape (machine k))))),
    (Z.ltb_spec (tape_addr sys + ptr (machine k))
       (tape_addr sys + Z.of_nat (length (tape (machine k))))); try lia; try discriminate.
  intros [= <-]. cbn [tape ptr]. now rewrite length_insert.
Qed.

Lemma deref_is_byte (s : bfState) (v : Z) :
  Forall is_byte (tape s) -> deref s = Some v -> is_byte v.
Proof.
  intros Hall. unfold deref. destruct (0 <=? ptr s); [|discriminate].
  intros H. eapply Forall_lookup_1; eauto.
Qed.

Lemma assign_is_byte (s s' : bfState) (v : Z) :
  Forall is_byte (tape s) -> is_byte v -> assign s v = Some s' ->
  Forall is_byte (tape s').
Proof.
  intros Hall Hv. unfold assign. destruct (_ && _); [|discriminate].
  intros [= <-]. cbn [tape]. now apply Forall_insert.
Qed.

Lemma to_uchar_is_byte (z : Z) : is_byte (to_uchar z).
Proof. unfold is_byte, to_uchar. apply Z.mod_pos_bound. lia. Qed.

Lemma step_eof_sticky (text : list ascii) (k k' : interp) :
  bfInterpret_step text k = Next k' ->
  stdin_eof (host k) = true -> stdin_eof (host k') = true.
Proof.
  unfold bfInterpret_step, with_machine, skip_to, getchar.
  destruct (classify (char_at text (program k)));
    repeat match goal with
           | |- context [if ?b then _ else _] => destruct b
           | |- context [match ?l with [] => _ | _ :: _ => _ end] => destruct l
           | |- context [match ?o with Some _ => _ | None => _ end] => destruct o
           end;
    intros [= <-]; cbn [host stdin_eof]; trivial.
Qed.

Lemma loop_eof_sticky (text : list ascii) (fuel : nat) (k kf : interp) :
  bfInterpret_loop fuel text k = Ok kf ->
  stdin_eof (host k) = true -> stdin_eof (host kf) = true.
Proof.
  revert k. induction fuel as [|fuel IH]; intros k; [discriminate|]. simpl.
  destruct (bfInterpret_step text k) as [k'|k'| |] eqn:Hs; try discriminate.
  - intros Hl He. apply (IH k' Hl). eapply step_eof_sticky; eauto.
  - unfold bfInterpret_step in Hs.
    destruct (classify (char_at text (program k))); unfold with_machine, skip_to in Hs;
      repeat match type of Hs with
             | context [if ?b then _ else _] => destruct b
             | context [match ?l with [] => _ | _ :: _ => _ end] => destruct l
             | context [match ?o with Some _ => _ | None => _ end] => destruct o
             | context [let '(_, _) := ?p in _] => destruct p
             end; try discriminate.
    injection Hs as <-. now intros [= <-].
Qed.

(** ** The simulation *)

Ltac x86_next Hb k :=
  eapply x86_steps_next;
  [ erewrite (x86_step_chunk _ _ _ _ _ k _ _ _ Hb);
    [|cbn [rip]; lia|intros ?; reflexivity|simpl; lia];
    cbn [exec rip rax rbx rdi rsi rdx zf stack mem files]; reflexivity
  |].

Section Simulation.

Variable sys : system.
Variable text : list ascii.
Variable a : Z.
Variable gf : jit.
Variable code : list Z.

Hypothesis Hfinal : bfJITCompile_loop (length text) text (jit_init a) = Ok gf.
Hypothesis Hcode : exists pad, code = machineCode gf ++ epilogue ++ pad.
Hypothesis Hsize : Z.of_nat (length (machineCode gf)) < 2 ^ 31.
Hypothesis Hlt : (max_span "<" text <= 127)%nat.
Hypothesis Hgt : (max_span ">" text <= 127)%nat.
Hypothesis Hcl : (max_span "]" text <= 12)%nat.

Lemma in_code (off : nat) (bytes : list Z) :
  has_bytes (machineCode gf) off bytes -> has_bytes code off bytes.
Proof.
  destruct Hcode as [pad ->]. apply has_bytes_app_l.
Qed.

Lemma generated_length (g : jit) :
  generates text a g -> (length (machineCode g) <= length (machineCode gf))%nat.
Proof.
  intros Hg. destruct (generates_loop text a g gf Hfinal Hg) as [fuel Hl].
  eapply jit_loop_length; eauto. apply generates_inv in Hg. tauto.
Qed.

Lemma closes_not_close (n : nat) (g g' : jit) :
  closes text n g g' ->
  classify (char_at text (tok g)) <> TClose ->
  n = O /\ g' = g.
Proof.
  intros H Hc. inversion H; subst; [now split|contradiction].
Qed.

(** [+] and [-] when nothing is suppressed. *)
Lemma sim_arith (k k' : interp) (m : x86) (g : jit) (c : ascii) :
  c = "+"%char \/ c = "-"%char ->
  agrees sys k m -> wf sys k ->
  generates text a g -> tok g = program k ->
  linked text a (machineCode gf) (loops k) (jmpLocIndex g) ->
  nskip k = O ->
  rip m = Z.of_nat (length (machineCode g)) ->
  char_at text (program k) = c ->
  bfInterpret_step text k = Next k' ->
  exists m', x86_steps (tape_addr sys) (return_addr sys) code m m' /\
             sim sys text a (machineCode gf) k' m'.
Proof.
  intros Hc Hag Hwf Hg Htok Hlink Hskip Hrip Hchar Hstep.
  assert (Hlt' : (tok g < length text)%nat).
  { rewrite Htok. apply char_at_lt. rewrite Hchar. destruct Hc as [->| ->]; discriminate. }
  destruct (gen_run text a gf Hfinal g c Hg Hlt' ltac:(now rewrite Htok))
    as (Hg1 & Hb).
  { simpl. destruct Hc as [->| ->]; tauto. }
  apply in_code in Hb.
  rewrite Htok in Hb, Hg1.
  set (n := S (span_len c (drop (S (program k)) text))) in *.
  unfold bfInterpret_step in Hstep. rewrite Hchar, Hskip in Hstep.
  assert (exists v s',
            deref (machine k) = Some v /\
            assign (machine k) (to_uchar (if Ascii.eqb c "+" then v + Z.of_nat n
                                           else v - Z.of_nat n)) = Some s' /\
            k' = {| program := (program k + n)%nat; loops := loops k; nskip := nskip k;
                    machine := s'; host := host k |}) as (v & s' & Hv & Hs' & ->).
  { destruct Hc as [->| ->];
      [change (classify "+"%char) with TPlus in Hstep; change (Ascii.eqb "+" "+") with true
      |change (classify "-"%char) with TMinus in Hstep; change (Ascii.eqb "-" "+") with false];
      cbv iota in Hstep; fold n in Hstep; cbn [Nat.eqb] in Hstep;
      destruct (deref (machine k)) as [v|]; try discriminate;
      cbn [mbind option_bind] in Hstep; unfold with_machine in Hstep;
      match type of Hstep with context [assign ?x ?y] => destruct (assign x y) as [s'|] eqn:Es end;
      try discriminate; injection Hstep as <-; exists v, s';
      (split; [reflexivity|split; [exact Es|]]); f_equal; lia. }
  destruct (store_agrees sys k m _ s' Hag Hs') as (Hst & Hptr & Hlen).
  pose proof (load_agrees sys k m Hag) as Hld. rewrite Hv in Hld.
  destruct Hag as [Hmem Hrbx Hin Hout Hstack].
  assert (Hval : (if Ascii.eqb c "+" then (v + to_uint8 (Z.of_nat n)) mod 2 ^ 8
                  else (v - to_uint8 (Z.of_nat n)) mod 2 ^ 8)
                 = to_uchar (if Ascii.eqb c "+" then v + Z.of_nat n else v - Z.of_nat n)).
  { unfold to_uint8, to_uchar. change (2 ^ 8) with 256.
    destruct (Ascii.eqb c "+"); [apply Zplus_mod_idemp_r|apply Zminus_mod_idemp_r]. }
  set (r := to_uchar _) in *.
  eexists. split.
  - apply x86_steps_one.
    destruct Hc as [->| ->];
      (erewrite (x86_step_chunk _ _ _ m _ O _ _ _ Hb);
       [|lia|intros rest; reflexivity|simpl; lia]);
      cbn [exec]; rewrite Hld; cbv zeta;
      [change (Ascii.eqb "+" "+") with true in Hval
      |change (Ascii.eqb "-" "+") with false in Hval];
      cbv iota in Hval; rewrite Hval, Hst; reflexivity.
  - split; [|split].
    + constructor; cbn; try assumption; try reflexivity. lia.
    + destruct Hwf as [Ht Hi Ha]. constructor; cbn; try assumption.
      * eapply assign_is_byte; eauto. apply to_uchar_is_byte.
      * now rewrite Hlen.
    + exists {| tok := (program k + n)%nat;
                machineCode := machineCode g ++ run_opcode c ++ [to_uint8 (Z.of_nat n)];
                jmpLocIndex := jmpLocIndex g |}.
      split; [assumption|]. split; [reflexivity|]. split; [assumption|].
      cbn [nskip]. rewrite ?Hskip.
      exists O. eexists. split; [constructor|]. split; [congruence|].
      cbn. rewrite !length_app. cbn [length].
      destruct Hc as [->| ->]; cbn; lia.
Qed.

(** [<] and [>] when nothing is suppressed, for runs of at most 127. *)
Lemma sim_move (k k' : interp) (m : x86) (g : jit) (c : ascii) :
  c = ">"%char \/ c = "<"%char ->
  agrees sys k m -> wf sys k ->
  generates text a g -> tok g = program k ->
  linked text a (machineCode gf) (loops k) (jmpLocIndex g) ->
  nskip k = O ->
  rip m = Z.of_nat (length (machineCode g)) ->
  char_at text (program k) = c ->
  bfInterpret_step text k = Next k' ->
  exists m', x86_steps (tape_addr sys) (return_addr sys) code m m' /\
             sim sys text a (machineCode gf) k' m'.
Proof.
  intros Hc Hag Hwf Hg Htok Hlink Hskip Hrip Hchar Hstep.
  assert (Hlt' : (tok g < length text)%nat).
  { rewrite Htok. apply char_at_lt. rewrite Hchar. destruct Hc as [->| ->]; discriminate. }
  destruct (gen_run text a gf Hfinal g c Hg Hlt' ltac:(now rewrite Htok))
    as (Hg1 & Hb).
  { simpl. destruct Hc as [->| ->]; tauto. }
  apply in_code in Hb.
  rewrite Htok in Hb, Hg1, Hlt'.
  assert (Hn : (S (span_len c (drop (S (program k)) text)) <= 127)%nat).
  { rewrite <- (span_len_drop_S text (program k) c Hlt' Hchar).
    pose proof (max_span_bound c text (program k)).
    destruct Hc as [->| ->]; lia. }
  set (n := S (span_len c (drop (S (program k)) text))) in *.
  unfold bfInterpret_step in Hstep. rewrite Hchar, Hskip in Hstep.
  assert (exists s',
            shift (machine k) (if Ascii.eqb c ">" then Z.of_nat n else - Z.of_nat n)
              = Some s' /\
            k' = {| program := (program k + n)%nat; loops := loops k; nskip := nskip k;
                    machine := s'; host := host k |}) as (s' & Hs' & ->).
  { destruct Hc as [->| ->];
      [change (classify ">"%char) with TGt in Hstep; change (Ascii.eqb ">" ">") with true
      |change (classify "<"%char) with TLt in Hstep; change (Ascii.eqb "<" ">") with false];
      cbv iota in Hstep; fold n in Hstep; cbn [Nat.eqb] in Hstep;
      unfold with_machine in Hstep;
      match type of Hstep with context [shift ?x ?y] => destruct (shift x y) as [s'|] eqn:Es end;
      try discriminate; injection Hstep as <-; exists s';
      (split; [reflexivity|]); f_equal; lia. }
  set (d := if Ascii.eqb c ">" then Z.of_nat n else - Z.of_nat n) in *.
  assert (Hshift : s' = {| tape := tape (machine k); ptr := ptr (machine k) + d |} /\
                   0 <= ptr (machine k) + d <= Z.of_nat (length (tape (machine k)))).
  { unfold shift in Hs'. cbv zeta in Hs'.
    destruct (Z.leb_spec 0 (ptr (machine k) + d)); [|discriminate].
    destruct (Z.leb_spec (ptr (machine k) + d) (Z.of_nat (length (tape (machine k)))));
      [|discriminate].
    injection Hs' as <-. split; [reflexivity|lia]. }
  destruct Hshift as [-> Hrange].
  destruct Hag as [Hmem Hrbx Hin Hout Hstack].
  destruct Hwf as [Ht Hi Ha].
  assert (Hib : to_uint8 (Z.of_nat n) = Z.of_nat n /\ sext 8 (Z.of_nat n) = Z.of_nat n).
  { unfold to_uint8, sext. change (2 ^ 8) with 256. change (2 ^ (8 - 1)) with 128.
    rewrite Z.mod_small by lia. split; [reflexivity|].
    destruct (Z.ltb_spec (Z.of_nat n) 128); [reflexivity|lia]. }
  destruct Hib as [Hib Hsx]. rewrite Hib in Hb.
  assert (Hnew : (if Ascii.eqb c ">" then (rbx m + Z.of_nat n) mod 2 ^ 64
                  else (rbx m - Z.of_nat n) mod 2 ^ 64)
                 = tape_addr sys + (ptr (machine k) + d)).
  { unfold d. rewrite Hrbx. destruct (Ascii.eqb c ">"); rewrite Z.mod_small; lia. }
  exists {| rip := rip m + 4; rax := rax m; rbx := tape_addr sys + (ptr (machine k) + d);
            rdi := rdi m; rsi := rsi m; rdx := rdx m;
            zf := tape_addr sys + (ptr (machine k) + d) =? 0;
            stack := stack m; mem := mem m; files := files m |}.
  split.
  - apply x86_steps_one.
    destruct Hc as [->| ->];
      (erewrite (x86_step_chunk _ _ _ m _ O _ _ _ Hb);
       [|lia|intros rest; reflexivity|simpl; lia]);
      cbn [exec]; cbv zeta; rewrite Hsx;
      [change (Ascii.eqb ">" ">") with true in Hnew
      |change (Ascii.eqb "<" ">") with false in Hnew];
      cbv iota in Hnew; rewrite Hnew; reflexivity.
  - split; [|split].
    + constructor; cbn; try assumption; reflexivity.
    + constructor; cbn; assumption.
    + exists {| tok := (program k + n)%nat;
                machineCode := machineCode g ++ run_opcode c ++ [to_uint8 (Z.of_nat n)];
                jmpLocIndex := jmpLocIndex g |}.
      split; [assumption|]. split; [reflexivity|]. split; [assumption|].
      cbn [nskip]. rewrite ?Hskip.
      exists O. eexists. split; [constructor|]. split; [congruence|].
      cbn. rewrite !length_app. cbn [length].
      destruct Hc as [->| ->]; cbn; lia.
Qed.

(** [,] when nothing is suppressed and input is left. *)
Lemma sim_read (k k' : interp) (m : x86) (g : jit) :
  agrees sys k m -> wf sys k ->
  generates text a g -> tok g = program k ->
  linked text a (machineCode gf) (loops k) (jmpLocIndex g) ->
  nskip k = O ->
  rip m = Z.of_nat (length (machineCode g)) ->
  classify (char_at text (program k)) = TComma ->
  bfInterpret_step text k = Next k' ->
  stdin_eof (host k') = false ->
  exists m', x86_steps (tape_addr sys) (return_addr sys) code m m' /\
             sim sys text a (machineCode gf) k' m'.
Proof.
  intros Hag Hwf Hg Htok Hlink Hskip Hrip Hchar Hstep Heof'.
  assert (Hlt' : (tok g < length text)%nat).
  { rewrite Htok. apply char_at_lt. intros E. rewrite E in Hchar. discriminate. }
  destruct (gen_io text a gf Hfinal g read_code Hg Hlt') as (Hg1 & Hb).
  { left. now rewrite Htok. }
  apply in_code in Hb.
  unfold bfInterpret_step in Hstep. rewrite Hchar, Hskip in Hstep.
  cbn [Nat.eqb] in Hstep. unfold getchar in Hstep.
  destruct (stdin (host k)) as [|b rest] eqn:Hstdin.
  { destruct (assign (machine k) (to_uchar EOF)); [|discriminate].
    injection Hstep as <-. discriminate. }
  destruct (assign (machine k) (to_uchar b)) as [s'|] eqn:Hs'; [|discriminate].
  injection Hstep as <-.
  destruct Hwf as [Ht Hi Ha]. rewrite Hstdin in Hi. apply Forall_cons in Hi as [Hb0 Hi].
  assert (Hbyte : to_uchar b = b) by (apply Z.mod_small; exact Hb0).
  rewrite Hbyte in Hs'.
  destruct (store_agrees sys k m _ s' Hag Hs') as (Hst & Hptr & Hlen).
  destruct Hag as [Hmem Hrbx Hin Hout Hstack].
  exists {| rip := rip m + 20; rax := 1; rbx := rbx m; rdi := 0; rsi := rbx m; rdx := 1;
            zf := zf m; stack := stack m; mem := tape s';
            files := {| fd0 := rest; fd1 := fd1 (files m) |} |}.
  split.
  - eapply x86_steps_next.
    { erewrite (x86_step_chunk _ _ _ _ _ 0 _ _ _ Hb);
        [|lia|intros r; reflexivity|simpl; lia]. reflexivity. }
    x86_next Hb 5%nat.
    x86_next Hb 10%nat.
    x86_next Hb 13%nat.
    apply x86_steps_one.
    erewrite (x86_step_chunk _ _ _ _ _ 18 _ _ _ Hb);
      [|cbn [rip]; lia|intros r; reflexivity|simpl; lia].
    cbn [exec]. unfold syscall. cbn [rip rax rbx rdi rsi rdx zf stack mem files].
    change (le_uint [3; 0; 0; 2] =? SYS_read) with true.
    change (le_uint [0; 0; 0; 0] =? 0) with true.
    change (le_uint [1; 0; 0; 0] =? 1) with true.
    cbn [andb]. rewrite Hin, Hstdin. cbv iota.
    match goal with
    | |- context [store ?t ?mm ?ad ?v] =>
        change (store t mm ad v) with (store t m (rbx m) b)
    end.
    rewrite Hst. cbn. f_equal. f_equal. lia.
  - split; [|split].
    + constructor; cbn; try assumption; try reflexivity. lia.
    + constructor; cbn; try assumption.
      * eapply assign_is_byte; eauto.
      * now rewrite Hlen.
    + eexists. split; [exact Hg1|]. split; [cbn; lia|]. split; [assumption|].
      cbn [nskip]. rewrite ?Hskip.
      exists O. eexists. split; [constructor|]. split; [congruence|].
      cbn [rip machineCode]. rewrite length_app.
      change (length read_code) with 20%nat. change (length write_code) with 20%nat. lia.
Qed.

(** [.] when nothing is suppressed. *)
Lemma sim_write (k k' : interp) (m : x86) (g : jit) :
  agrees sys k m -> wf sys k ->
  generates text a g -> tok g = program k ->
  linked text a (machineCode gf) (loops k) (jmpLocIndex g) ->
  nskip k = O ->
  rip m = Z.of_nat (length (machineCode g)) ->
  classify (char_at text (program k)) = TDot ->
  bfInterpret_step text k = Next k' ->
  exists m', x86_steps (tape_addr sys) (return_addr sys) code m m' /\
             sim sys text a (machineCode gf) k' m'.
Proof.
  intros Hag Hwf Hg Htok Hlink Hskip Hrip Hchar Hstep.
  assert (Hlt' : (tok g < length text)%nat).
  { rewrite Htok. apply char_at_lt. intros E. rewrite E in Hchar. discriminate. }
  destruct (gen_io text a gf Hfinal g write_code Hg Hlt') as (Hg1 & Hb).
  { right. now rewrite Htok. }
  apply in_code in Hb.
  unfold bfInterpret_step in Hstep. rewrite Hchar, Hskip in Hstep.
  cbn [Nat.eqb] in Hstep.
  destruct (deref (machine k)) as [v|] eqn:Hv; [|discriminate].
  injection Hstep as <-.
  pose proof (load_agrees sys k m Hag) as Hld. rewrite Hv in Hld.
  destruct Hag as [Hmem Hrbx Hin Hout Hstack].
  exists {| rip := rip m + 20; rax := 1; rbx := rbx m; rdi := 1; rsi := rbx m; rdx := 1;
            zf := zf m; stack := stack m; mem := mem m;
            files := {| fd0 := fd0 (files m); fd1 := fd1 (files m) ++ [v] |} |}.
  split.
  - eapply x86_steps_next.
    { erewrite (x86_step_chunk _ _ _ _ _ 0 _ _ _ Hb);
        [|lia|intros r; reflexivity|simpl; lia]. reflexivity. }
    x86_next Hb 5%nat.
    x86_next Hb 10%nat.
    x86_next Hb 13%nat.
    apply x86_steps_one.
    erewrite (x86_step_chunk _ _ _ _ _ 18 _ _ _ Hb);
      [|cbn [rip]; lia|intros r; reflexivity|simpl; lia].
    cbn [exec]. unfold syscall. cbn [rip rax rbx rdi rsi rdx zf stack mem files].
    change (le_uint [4; 0; 0; 2] =? SYS_read) with false.
    change (le_uint [4; 0; 0; 2] =? SYS_write) with true.
    change (le_uint [1; 0; 0; 0] =? 1) with true.
    cbn [andb].
    match goal with
    | |- context [load ?t ?mm ?ad] => change (load t mm ad) with (load t m (rbx m))
    end.
    rewrite Hld. cbn. f_equal. f_equal. lia.
  - split; [|split].
    + constructor; cbn; try assumption; try reflexivity. now rewrite Hout.
    + destruct Hwf as [Ht Hi Ha]. constructor; cbn; assumption.
    + eexists. split; [exact Hg1|]. split; [cbn; lia|]. split; [assumption|].
      cbn [nskip]. rewrite ?Hskip.
      exists O. eexists. split; [constructor|]. split; [congruence|].
      cbn [rip machineCode]. rewrite length_app.
      change (length read_code) with 20%nat. change (length write_code) with 20%nat. lia.
Qed.

Lemma cmpb_zf (v : Z) : is_byte v -> ((v - 0) mod 2 ^ 8 =? 0) = (v =? 0).
Proof.
  intros Hv. unfold is_byte in Hv. rewrite Z.sub_0_r, Z.mod_small by (change (2 ^ 8) with 256; lia).
  reflexivity.
Qed.

Lemma agrees_set_rip (k : interp) (m : x86) (r : Z) :
  agrees sys k m -> agrees sys k (set_rip m r).
Proof. intros [? ? ? ? ?]. constructor; assumption. Qed.

(** The processor has passed the code of a closing bracket with the
    cell at zero: a short jump, if there is one, takes it behind the
    closing brackets that follow. *)
Lemma sim_land (k' : interp) (m : x86) (g : jit) (L : nat) (Ls : list nat) :
  generates text a g ->
  (tok g < length text)%nat ->
  classify (char_at text (tok g)) = TClose ->
  jmpLocIndex g = L :: Ls ->
  agrees sys k' m -> wf sys k' ->
  deref (machine k') = Some 0 ->
  program k' = S (tok g) ->
  nskip k' = O ->
  linked text a (machineCode gf) (loops k') Ls ->
  rip m = Z.of_nat (length (machineCode g) + 9) ->
  exists m', x86_steps (tape_addr sys) (return_addr sys) code m m' /\
             sim sys text a (machineCode gf) k' m'.
Proof.
  intros Hg Hlt' Hc Hstk Hag Hwf Hzero Hpc Hskip Hlink Hrip.
  destruct (final_close text a gf Hfinal g L Ls Hg Hlt' Hc Hstk)
    as (Hstep & Hg1 & Hlen & Hb & _).
  apply in_code in Hb.
  set (g1 := {| tok := S (tok g); machineCode := closed_code text g L;
                jmpLocIndex := Ls |}) in *.
  destruct (closers_run text a gf Hfinal _ g1 Hg1 eq_refl) as (g2 & Hcl2 & Hg2 & Hl2).
  change (tok g1) with (S (tok g)) in Hcl2, Hl2.
  assert (Hn : (S (span_len "]" (drop (S (tok g)) text)) <= 12)%nat).
  { rewrite <- (span_len_drop_S text (tok g) "]"%char Hlt').
    - pose proof (max_span_bound "]"%char text (tok g)). lia.
    - pose proof (classify_cases (char_at text (tok g))) as H. now rewrite Hc in H. }
  unfold elision in Hb, Hlen. cbv zeta in Hb, Hlen.
  destruct (span_len "]" (drop (S (tok g)) text)) as [|n] eqn:En.
  - exists m. split; [constructor|]. split; [assumption|]. split; [assumption|].
    exists g1. split; [assumption|]. split; [now rewrite Hpc|]. split; [assumption|].
    rewrite Hskip. exists O, g2. split; [assumption|]. split; [congruence|].
    cbn in Hl2, Hlen. lia.
  - change (0 <? S n)%nat with true in Hb, Hlen. cbv iota in Hb, Hlen.
    assert (Hd : to_uint8 (to_size_t (Z.of_nat (S n) * 11 - 2)) = Z.of_nat (S n) * 11 - 2).
    { unfold to_uint8, to_size_t. rewrite !Z.mod_small; [reflexivity| |];
        change (2 ^ 8) with 256; try change (2 ^ 64) with 18446744073709551616; try lia.
      rewrite Z.mod_small; lia. }
    rewrite Hd in Hb.
    assert (Hsx : sext 8 (Z.of_nat (S n) * 11 - 2) = Z.of_nat (S n) * 11 - 2).
    { unfold sext. change (2 ^ (8 - 1)) with 128.
      destruct (Z.ltb_spec (Z.of_nat (S n) * 11 - 2) 128); [reflexivity|lia]. }
    exists (set_rip m (rip m + 2 + (Z.of_nat (S n) * 11 - 2))). split.
    + apply x86_steps_one.
      erewrite (x86_step_chunk _ _ _ m _ 9 _
                  (JmpShort (sext 8 (Z.of_nat (S n) * 11 - 2))) 2 Hb);
        [|lia|intros ?; reflexivity|simpl; lia].
      cbn [exec]. now rewrite Hsx.
    + split; [now apply agrees_set_rip|]. split; [assumption|].
      exists g1. split; [assumption|]. split; [now rewrite Hpc|]. split; [assumption|].
      rewrite Hskip. exists (S n), g2. split; [assumption|]. split; [trivial|].
      cbn [set_rip rip]. cbn in Hl2, Hlen. lia.
Qed.

(** The comparison with zero and the conditional jump behind it. *)
Lemma x86_cmp_jump (m : x86) (k : interp) (off : nat) (eq : bool) (disp : list Z) (v : Z) :
  has_bytes code off ([0x80; 0x3b; 0x0; 0xf; if eq then 0x84 else 0x85] ++ disp) ->
  length disp = 4%nat ->
  rip m = Z.of_nat off ->
  agrees sys k m ->
  deref (machine k) = Some v ->
  is_byte v ->
  exists m', x86_steps (tape_addr sys) (return_addr sys) code m m' /\
             agrees sys k m' /\
             rip m' = Z.of_nat off + 9 +
                      (if Bool.eqb eq (v =? 0) then sext 32 (le_uint disp) else 0).
Proof.
  intros Hb Hlen Hrip Hag Hv Hbyte.
  destruct disp as [|d0 [|d1 [|d2 [|d3 [|]]]]]; try discriminate.
  pose proof (load_agrees sys k m Hag) as Hld. rewrite Hv in Hld.
  pose proof (cmpb_zf v Hbyte) as Hzf.
  destruct Hag as [Hmem Hrbx Hin Hout Hstack].
  exists {| rip := rip m + 3 + 6 +
                   (if Bool.eqb eq (v =? 0) then sext 32 (le_uint [d0; d1; d2; d3]) else 0);
            rax := rax m; rbx := rbx m; rdi := rdi m; rsi := rsi m; rdx := rdx m;
            zf := v =? 0; stack := stack m; mem := mem m; files := files m |}.
  split; [|split].
  - eapply x86_steps_next.
    { erewrite (x86_step_chunk _ _ _ m _ 0 _ (CmpbMem 0) 3 Hb);
        [|lia|intros ?; reflexivity|simpl; lia].
      cbn [exec]. rewrite Hld, Hzf. reflexivity. }
    apply x86_steps_one.
    destruct eq.
    + erewrite (x86_step_chunk _ _ _ _ _ 3 _ (Je (sext 32 (le_uint [d0; d1; d2; d3]))) 6 Hb);
        [|cbn [rip]; lia|intros ?; reflexivity|simpl; lia].
      cbn [exec]. unfold set_rip. cbn [rip rax rbx rdi rsi rdx zf stack mem files].
      destruct (v =? 0); cbn [Bool.eqb]; do 2 f_equal; lia.
    + erewrite (x86_step_chunk _ _ _ _ _ 3 _ (Jne (sext 32 (le_uint [d0; d1; d2; d3]))) 6 Hb);
        [|cbn [rip]; lia|intros ?; reflexivity|simpl; lia].
      cbn [exec]. unfold set_rip. cbn [rip rax rbx rdi rsi rdx zf stack mem files].
      destruct (v =? 0); cbn [Bool.eqb]; do 2 f_equal; lia.
  - constructor; assumption.
  - cbn [rip]. lia.
Qed.

Lemma open_chunk (g : jit) :
  generates text a g ->
  (tok g < length text)%nat ->
  classify (char_at text (tok g)) = TOpen ->
  exists disp, length disp = 4%nat /\
    has_bytes code (length (machineCode g)) ([0x80; 0x3b; 0x0; 0xf; 0x84] ++ disp).
Proof.
  intros Hg Hlt' Hc.
  destruct (final_open text a gf Hfinal g Hg Hlt' Hc) as (_ & Hg1 & Hb).
  pose proof (generated_length _ Hg1) as Hlen. cbn [machineCode] in Hlen.
  rewrite length_app in Hlen. change (length open_code) with 9%nat in Hlen.
  destruct (has_bytes_extend _ _ _ Hb) as [d0 H0]; [simpl; lia|].
  destruct (has_bytes_extend _ _ _ H0) as [d1 H1]; [simpl; lia|].
  destruct (has_bytes_extend _ _ _ H1) as [d2 H2]; [simpl; lia|].
  destruct (has_bytes_extend _ _ _ H2) as [d3 H3]; [simpl; lia|].
  exists [d0; d1; d2; d3]. split; [reflexivity|]. apply in_code.
  now rewrite <- !app_assoc in H3.
Qed.

(** [[] when nothing is suppressed. *)
Lemma sim_open (k k' : interp) (m : x86) (g : jit) :
  agrees sys k m -> wf sys k ->
  generates text a g -> tok g = program k ->
  linked text a (machineCode gf) (loops k) (jmpLocIndex g) ->
  nskip k = O ->
  rip m = Z.of_nat (length (machineCode g)) ->
  classify (char_at text (program k)) = TOpen ->
  bfInterpret_step text k = Next k' ->
  exists m', x86_steps (tape_addr sys) (return_addr sys) code m m' /\
             sim sys text a (machineCode gf) k' m'.
Proof.
  intros Hag Hwf Hg Htok Hlink Hskip Hrip Hchar Hstep.
  assert (Hlt' : (tok g < length text)%nat).
  { rewrite Htok. apply char_at_lt. intros E. rewrite E in Hchar. discriminate. }
  rewrite <- Htok in Hchar.
  destruct (final_open text a gf Hfinal g Hg Hlt' Hchar) as (Hgs & Hg1 & Hb5).
  destruct (open_chunk g Hg Hlt' Hchar) as (disp & Hdl & Hb).
  set (g1 := {| tok := S (tok g); machineCode := machineCode g ++ open_code;
                jmpLocIndex := (length (machineCode g) + 9)%nat :: jmpLocIndex g |}) in *.
  unfold bfInterpret_step in Hstep. rewrite <- Htok, Hchar, Hskip in Hstep.
  destruct (length (loops k) =? MAX_NESTING)%nat; [discriminate|].
  destruct (deref (machine k)) as [v|] eqn:Hv; [|discriminate].
  injection Hstep as <-.
  assert (Hlink' : linked text a (machineCode gf) (S (tok g) :: loops k)
                     ((length (machineCode g) + 9)%nat :: jmpLocIndex g)).
  { apply linked_cons with g1; try reflexivity; try assumption.
    - unfold g1. cbn [machineCode]. rewrite length_app. reflexivity.
    - now replace (length (machineCode g) + 9 - 9)%nat with (length (machineCode g)) by lia. }
  pose proof (deref_is_byte _ _ (wf_tape _ _ Hwf) Hv) as Hbyte.
  destruct (Z.eqb_spec v 0) as [->|Hne].
  - exists m. split; [constructor|]. split; [|split].
    + destruct Hag. constructor; assumption.
    + destruct Hwf. constructor; assumption.
    + exists g1. split; [assumption|]. split; [reflexivity|]. split; [assumption|].
      cbn [nskip machine]. split; [assumption|].
      exists (length (machineCode g) + 9)%nat. split; [reflexivity|]. lia.
  - destruct (x86_cmp_jump m k _ true disp v Hb Hdl Hrip Hag Hv Hbyte)
      as (m' & Hsteps & Hag' & Hrip').
    exists m'. split; [assumption|]. split; [|split].
    + destruct Hag'. constructor; assumption.
    + destruct Hwf. constructor; assumption.
    + exists g1. split; [assumption|]. split; [reflexivity|]. split; [assumption|].
      cbn [nskip].
      exists O, g1. split; [constructor|]. split; [congruence|].
      rewrite Hrip'. destruct (Z.eqb_spec v 0); [contradiction|].
      cbn [Bool.eqb]. unfold g1. cbn [machineCode]. rewrite length_app.
      change (length open_code) with 9%nat. lia.
Qed.

Lemma linked_inv (p : nat) (ps Ls0 : list nat) :
  linked text a (machineCode gf) (p :: ps) Ls0 ->
  exists L Ls g0, Ls0 = L :: Ls /\ generates text a g0 /\ tok g0 = p /\
    length (machineCode g0) = L /\ jmpLocIndex g0 = L :: Ls /\
    has_bytes (machineCode gf) (L - 9) [0x80; 0x3b; 0x0; 0xf; 0x84] /\
    linked text a (machineCode gf) ps Ls.
Proof.
  intros H. inversion H; subst. do 3 eexists. repeat (split; [eassumption || reflexivity|]).
  assumption.
Qed.

Lemma stack_top_bound (g : jit) (L : nat) (Ls : list nat) :
  generates text a g -> jmpLocIndex g = L :: Ls ->
  (9 <= L <= length (machineCode g))%nat.
Proof.
  intros Hg Hstk. destruct (generates_inv _ _ _ Hg) as (Hok & _).
  unfold stack_ok in Hok. rewrite Hstk in Hok. apply Hok.
Qed.

(** []] when nothing is suppressed and the processor is at its code. *)
Lemma sim_close (k k' : interp) (m : x86) (g : jit) :
  agrees sys k m -> wf sys k ->
  generates text a g -> tok g = program k ->
  linked text a (machineCode gf) (loops k) (jmpLocIndex g) ->
  nskip k = O ->
  rip m = Z.of_nat (length (machineCode g)) ->
  classify (char_at text (program k)) = TClose ->
  bfInterpret_step text k = Next k' ->
  exists m', x86_steps (tape_addr sys) (return_addr sys) code m m' /\
             sim sys text a (machineCode gf) k' m'.
Proof.
  intros Hag Hwf Hg Htok Hlink Hskip Hrip Hchar Hstep.
  assert (Hlt' : (tok g < length text)%nat).
  { rewrite Htok. apply char_at_lt. intros E. rewrite E in Hchar. discriminate. }
  rewrite <- Htok in Hchar.
  unfold bfInterpret_step in Hstep. rewrite <- Htok, Hchar, Hskip in Hstep.
  destruct (loops k) as [|top below] eqn:Hloops; [discriminate|].
  destruct (deref (machine k)) as [v|] eqn:Hv; [|discriminate].
  injection Hstep as <-.
  destruct (linked_inv _ _ _ Hlink) as (L & Ls & g0 & Hstk & Hg0 & Htok0 & Hlen0 & Hstk0 & _ & Hlink').
  destruct (final_close text a gf Hfinal g L Ls Hg Hlt' Hchar Hstk)
    as (_ & Hg1 & Hlen1 & Hb & _).
  pose proof (generated_length _ Hg1) as Hle. rewrite Hlen1 in Hle.
  pose proof (stack_top_bound g L Ls Hg Hstk) as HL.
  apply in_code in Hb.
  rewrite app_assoc in Hb. apply has_bytes_prefix in Hb as [Hb _].
  pose proof (deref_is_byte _ _ (wf_tape _ _ Hwf) Hv) as Hbyte.
  destruct (x86_cmp_jump m k _ false _ v Hb (length_resolveAddrDiff _) Hrip Hag Hv Hbyte)
    as (m' & Hsteps & Hag' & Hrip').
  rewrite rel32_round_trip in Hrip' by lia.
  destruct (Z.eqb_spec v 0) as [->|Hne]; cbn [Bool.eqb] in Hrip'.
  - destruct (sim_land {| program := S (tok g); loops := below; nskip := Nat.pred 0;
                          machine := machine k; host := host k |} m' g L Ls)
      as (m'' & Hsteps' & Hsim); try assumption; try reflexivity.
    + destruct Hag'. constructor; assumption.
    + destruct Hwf. constructor; assumption.
    + rewrite Hrip'. lia.
    + exists m''. split; [|assumption]. eapply x86_steps_trans; eauto.
  - exists m'. split; [assumption|]. split; [|split].
    + destruct Hag'. constructor; assumption.
    + destruct Hwf. constructor; assumption.
    + exists g0. split; [assumption|]. split; [assumption|].
      cbn [loops nskip]. split; [now rewrite Hstk0, <- Hstk|].
      exists O, g0. split; [constructor|]. split; [congruence|].
      rewrite Hrip'. lia.
Qed.

(** []] when nothing is suppressed and a short jump has skipped its code. *)
Lemma sim_close_skipped (k k' : interp) (m : x86) (g g2 : jit) (n : nat) :
  agrees sys k m -> wf sys k ->
  generates text a g -> tok g = program k ->
  linked text a (machineCode gf) (loops k) (jmpLocIndex g) ->
  nskip k = O ->
  closes text (S n) g g2 ->
  deref (machine k) = Some 0 ->
  rip m = Z.of_nat (length (machineCode g2)) ->
  bfInterpret_step text k = Next k' ->
  sim sys text a (machineCode gf) k' m.
Proof.
  intros Hag Hwf Hg Htok Hlink Hskip Hcs Hv Hrip Hstep.
  inversion Hcs as [|n0 ga g1 gb Hlt' Hchar Hgs Hcl1]; subst.
  unfold bfInterpret_step in Hstep. rewrite <- Htok, Hchar, Hskip, Hv in Hstep.
  destruct (loops k) as [|top below] eqn:Hloops; [discriminate|].
  injection Hstep as <-. cbn [Z.eqb].
  destruct (linked_inv _ _ _ Hlink) as (L & Ls & g0 & Hstk & _ & _ & _ & _ & _ & Hlink').
  destruct (final_close text a gf Hfinal g L Ls Hg Hlt' Hchar Hstk) as (Hgs' & Hg1 & _).
  rewrite Hgs in Hgs'. injection Hgs' as ->.
  split; [|split].
  - destruct Hag. constructor; assumption.
  - destruct Hwf. constructor; assumption.
  - eexists. split; [exact Hg1|]. split; [reflexivity|]. split; [assumption|].
    cbn [nskip Nat.pred]. exists n, g2. split; [assumption|]. split; [trivial|assumption].
Qed.

(** A step of the interpreter that only moves on in the text, and the
    generator's states on both sides of it. *)
Lemma gen_skip (k k' : interp) (g : jit) :
  generates text a g -> tok g = program k ->
  bfInterpret_step text k = Next k' ->
  (nskip k <> O /\ classify (char_at text (program k)) <> TOpen /\
   classify (char_at text (program k)) <> TClose) \/
  In (classify (char_at text (program k))) [TSpace; TOther] ->
  loops k' = loops k /\ nskip k' = nskip k /\ machine k' = machine k /\ host k' = host k /\
  exists g1, generates text a g1 /\ tok g1 = program k' /\
    jmpLocIndex g1 = jmpLocIndex g /\
    (In (classify (char_at text (program k))) [TSpace; TOther] ->
     machineCode g1 = machineCode g).
Proof.
  intros Hg Htok Hstep Hcase.
  pose proof (classify_cases (char_at text (program k))) as Hchar.
  assert (Hlt' : (tok g < length text)%nat).
  { rewrite Htok. apply char_at_lt. intros E.
    unfold bfInterpret_step in Hstep. rewrite E in Hstep.
    change (classify NUL) with TNul in Hstep. discriminate. }
  assert (Hs : (nskip k =? 0)%nat = false \/
               In (classify (char_at text (program k))) [TSpace; TOther]).
  { destruct Hcase as [(Hn & _)|Hin]; [left; now apply Nat.eqb_neq|now right]. }
  unfold bfInterpret_step in Hstep.
  destruct (classify (char_at text (program k))) eqn:Ecl.
  1-4: destruct Hs as [Hs|Hs]; [|simpl in Hs; intuition discriminate];
       rewrite Hs in Hstep; injection Hstep as <-; cbn [program loops nskip machine host];
       repeat (split; [reflexivity|]);
       destruct (gen_run text a gf Hfinal g _ Hg Hlt' ltac:(now rewrite Htok))
         as (Hg1 & _); [rewrite Hchar; simpl; tauto|];
       eexists; split; [exact Hg1|]; split; [cbn [tok]; rewrite Htok, Hchar; lia|];
       split; [reflexivity|]; simpl; intuition discriminate.
  1-2: destruct Hs as [Hs|Hs]; [|simpl in Hs; intuition discriminate];
       rewrite Hs in Hstep; injection Hstep as <-; cbn [program loops nskip machine host];
       repeat (split; [reflexivity|]);
       (destruct (gen_io text a gf Hfinal g read_code Hg Hlt') as (Hg1 & _);
        [left; now rewrite Htok|]) ||
       (destruct (gen_io text a gf Hfinal g write_code Hg Hlt') as (Hg1 & _);
        [right; now rewrite Htok|]);
       eexists; (split; [exact Hg1|]); (split; [cbn [tok]; now rewrite Htok|]);
       (split; [reflexivity|]); simpl; intuition discriminate.
  1-2: destruct Hcase as [(_ & Ho & Hc)|Hin]; [congruence|simpl in Hin; intuition discriminate].
  - injection Hstep as <-. cbn [program loops nskip machine host].
    repeat (split; [reflexivity|]).
    pose proof (gen_spaces text a (S (span_len " " (drop (S (program k)) text))) g Hg) as Hg1.
    eexists. split; [apply Hg1|].
    + intros [|i] Hi.
      * now rewrite Nat.add_0_r, Htok.
      * rewrite Htok. replace (program k + S i)%nat with (S (program k) + i)%nat by lia.
        apply span_len_char_at. lia.
    + cbn [tok machineCode jmpLocIndex]. split; [lia|]. split; reflexivity.
  - unfold bfInterpret_step in Hstep. discriminate.
  - injection Hstep as <-. cbn [program loops nskip machine host].
    repeat (split; [reflexivity|]).
    eexists. split; [apply (gen_noop text a g Hg Hlt')|].
    + rewrite Htok, Ecl. simpl. tauto.
    + cbn [tok machineCode jmpLocIndex]. split; [lia|]. split; reflexivity.
Qed.

(** Steps while a loop body is skipped: the processor waits at the
    comparison of the opening bracket, and takes the forward jump when
    the interpreter reaches the matching closing bracket. *)
Lemma sim_suppressed (k k' : interp) (m : x86) (g : jit) (d L0 : nat) :
  agrees sys k m -> wf sys k ->
  generates text a g -> tok g = program k ->
  linked text a (machineCode gf) (loops k) (jmpLocIndex g) ->
  nskip k = S d ->
  deref (machine k) = Some 0 ->
  jmpLocIndex g !! d = Some L0 ->
  rip m = Z.of_nat L0 - 9 ->
  bfInterpret_step text k = Next k' ->
  exists m', x86_steps (tape_addr sys) (return_addr sys) code m m' /\
             sim sys text a (machineCode gf) k' m'.
Proof.
  intros Hag Hwf Hg Htok Hlink Hskip Hv HL0 Hrip Hstep.
  destruct (classify (char_at text (program k))) eqn:Hchar.
  7: { (* an opening bracket *)
    assert (Hlt' : (tok g < length text)%nat).
    { rewrite Htok. apply char_at_lt. intros E. rewrite E in Hchar. discriminate. }
    rewrite <- Htok in Hchar.
    destruct (final_open text a gf Hfinal g Hg Hlt' Hchar) as (Hgs & Hg1 & Hb5).
    set (g1 := {| tok := S (tok g); machineCode := machineCode g ++ open_code;
                  jmpLocIndex := (length (machineCode g) + 9)%nat :: jmpLocIndex g |}) in *.
    unfold bfInterpret_step in Hstep. rewrite <- Htok, Hchar, Hv in Hstep.
    destruct (length (loops k) =? MAX_NESTING)%nat; [discriminate|].
    injection Hstep as <-. cbn [Z.eqb].
    exists m. split; [constructor|]. split; [|split].
    - destruct Hag. constructor; assumption.
    - destruct Hwf. constructor; assumption.
    - exists g1. split; [assumption|]. split; [reflexivity|]. split.
      + apply linked_cons with g1; try reflexivity; try assumption.
        * unfold g1. cbn [machineCode]. rewrite length_app. reflexivity.
        * now replace (length (machineCode g) + 9 - 9)%nat
            with (length (machineCode g)) by lia.
      + cbn [nskip machine loops]. rewrite Hskip. split; [assumption|].
        exists L0. split; [exact HL0|assumption]. }
  7: { (* a closing bracket *)
    assert (Hlt' : (tok g < length text)%nat).
    { rewrite Htok. apply char_at_lt. intros E. rewrite E in Hchar. discriminate. }
    rewrite <- Htok in Hchar.
    unfold bfInterpret_step in Hstep. rewrite <- Htok, Hchar, Hv in Hstep.
    destruct (loops k) as [|top below] eqn:Hloops; [discriminate|].
    injection Hstep as <-. cbn [Z.eqb]. rewrite Hskip. cbn [Nat.pred].
    destruct (linked_inv _ _ _ Hlink)
      as (L & Ls & g0 & Hstk & Hg0 & Htok0 & Hlen0 & Hstk0 & Hb5 & Hlink').
    destruct (final_close text a gf Hfinal g L Ls Hg Hlt' Hchar Hstk)
      as (Hgs & Hg1 & Hlen1 & _ & Hbf).
    pose proof (generated_length _ Hg1) as Hle. rewrite Hlen1 in Hle.
    pose proof (stack_top_bound g L Ls Hg Hstk) as HL.
    rewrite Hstk in HL0.
    destruct d as [|d'].
    - injection HL0 as <-.
      assert (Hb : has_bytes code (L - 9)
                ([0x80; 0x3b; 0x0; 0xf; 0x84] ++
                 _resolveAddrDiff (to_uint32 (to_size_t
                   (Z.of_nat (length (machineCode g) + 9) - Z.of_nat L))))).
      { apply in_code, has_bytes_join; [assumption|].
        replace (L - 4)%nat with (L - 9 + length [0x80; 0x3b; 0x0; 0xf; 0x84])%nat in Hbf
          by (simpl; lia).
        exact Hbf. }
      pose proof (deref_is_byte _ _ (wf_tape _ _ Hwf) Hv) as Hbyte.
      destruct (x86_cmp_jump m k _ true _ 0 Hb (length_resolveAddrDiff _)
                  ltac:(lia) Hag Hv Hbyte) as (m' & Hsteps & Hag' & Hrip').
      rewrite rel32_round_trip in Hrip' by lia. cbn [Z.eqb Bool.eqb] in Hrip'.
      destruct (sim_land {| program := S (tok g); loops := below; nskip := O;
                            machine := machine k; host := host k |} m' g L Ls)
        as (m'' & Hsteps' & Hsim); try assumption; try reflexivity.
      + destruct Hag'. constructor; assumption.
      + destruct Hwf. constructor; assumption.
      + rewrite Hrip'. lia.
      + exists m''. split; [|assumption]. eapply x86_steps_trans; eauto.
    - exists m. split; [constructor|]. split; [|split].
      + destruct Hag. constructor; assumption.
      + destruct Hwf. constructor; assumption.
      + eexists. split; [exact Hg1|]. split; [reflexivity|]. split; [assumption|].
        cbn [nskip machine jmpLocIndex]. split; [assumption|].
        exists L0. split; [exact HL0|assumption]. }
  8: { unfold bfInterpret_step in Hstep. rewrite Hchar in Hstep. discriminate. }
  all: destruct (gen_skip k k' g Hg Htok Hstep) as (Hl & Hn & Hm & Hh & g1 & Hg1 & Ht1 & Hs1 & _);
    [left; rewrite Hskip, Hchar; repeat split; discriminate|];
    exists m; (split; [constructor|]); (split; [|split]);
    [ destruct Hag; constructor; congruence
    | destruct Hwf; constructor; congruence
    | exists g1; split; [assumption|]; split; [assumption|]; split; [congruence|];
      rewrite Hn, Hskip, Hm; split; [assumption|];
      exists L0; split; [congruence|assumption] ].
Qed.

(** One iteration of the interpreter against the generated code. *)
Lemma sim_step (k k' : interp) (m : x86) :
  sim sys text a (machineCode gf) k m ->
  bfInterpret_step text k = Next k' ->
  stdin_eof (host k') = false ->
  exists m', x86_steps (tape_addr sys) (return_addr sys) code m m' /\
             sim sys text a (machineCode gf) k' m'.
Proof.
  intros (Hag & Hwf & g & Hg & Htok & Hlink & Hmode) Hstep Heof.
  destruct (nskip k) as [|d] eqn:Hskip.
  - destruct Hmode as (n & g' & Hcs & Hzero & Hrip).
    destruct n as [|n].
    + inversion Hcs; subst g'.
      pose proof (classify_cases (char_at text (program k))) as Hchar.
      destruct (classify (char_at text (program k))) eqn:Ecl.
      * apply (sim_move k k' m g "<"%char); auto.
      * apply (sim_move k k' m g ">"%char); auto.
      * apply (sim_arith k k' m g "+"%char); auto.
      * apply (sim_arith k k' m g "-"%char); auto.
      * apply (sim_read k k' m g); auto.
      * apply (sim_write k k' m g); auto.
      * apply (sim_open k k' m g); auto.
      * apply (sim_close k k' m g); auto.
      * destruct (gen_skip k k' g Hg Htok Hstep)
          as (Hl & Hn & Hm & Hh & g1 & Hg1 & Ht1 & Hs1 & Hc1);
          [right; rewrite Ecl; simpl; tauto|].
        exists m. split; [constructor|]. split; [|split].
        -- destruct Hag; constructor; congruence.
        -- destruct Hwf; constructor; congruence.
        -- exists g1. split; [assumption|]. split; [assumption|]. split; [congruence|].
           rewrite Hn, Hskip. exists O, g1. split; [constructor|]. split; [congruence|].
           rewrite Hc1; [assumption|]. rewrite Ecl. simpl. tauto.
      * unfold bfInterpret_step in Hstep. rewrite Ecl in Hstep. discriminate.
      * destruct (gen_skip k k' g Hg Htok Hstep)
          as (Hl & Hn & Hm & Hh & g1 & Hg1 & Ht1 & Hs1 & Hc1);
          [right; rewrite Ecl; simpl; tauto|].
        exists m. split; [constructor|]. split; [|split].
        -- destruct Hag; constructor; congruence.
        -- destruct Hwf; constructor; congruence.
        -- exists g1. split; [assumption|]. split; [assumption|]. split; [congruence|].
           rewrite Hn, Hskip. exists O, g1. split; [constructor|]. split; [congruence|].
           rewrite Hc1; [assumption|]. rewrite Ecl. simpl. tauto.
    + exists m. split; [constructor|].
      eapply sim_close_skipped; eauto.
  - destruct Hmode as (Hv & L0 & HL0 & Hrip).
    eapply sim_suppressed; eauto.
Qed.

Hypothesis Hnul : forallb (fun c => negb (Ascii.eqb c NUL)) text = true.
Hypothesis Hbal : balanced text = true.

Lemma nul_at_end (p : nat) : char_at text p = NUL -> (length text <= p)%nat.
Proof.
  intros Hc. destruct (Nat.lt_ge_cases p (length text)) as [Hp|Hp]; [|assumption].
  destruct (lookup_lt_is_Some_2 text p Hp) as [c Hl].
  unfold char_at in Hc. rewrite Hl in Hc. simpl in Hc. subst c.
  rewrite forallb_forall in Hnul.
  specialize (Hnul NUL). rewrite Ascii.eqb_refl in Hnul.
  assert (In NUL text) by (apply list_elem_of_In; eapply list_elem_of_lookup_2; eauto).
  specialize (Hnul H). discriminate.
Qed.

(** The interpreter returns: the processor is at the epilogue. *)
Lemma sim_halt (k k' : interp) (m : x86) :
  sim sys text a (machineCode gf) k m ->
  bfInterpret_step text k = Halt k' ->
  exists mf, x86_run (tape_addr sys) (return_addr sys) 2 code m = Ok mf /\
    mem mf = tape (machine k') /\ rbx mf = tape_addr sys + ptr (machine k') /\
    fd0 (files mf) = stdin (host k') /\ fd1 (files mf) = stdout (host k').
Proof.
  intros (Hag & Hwf & g & Hg & Htok & Hlink & Hmode) Hstep.
  assert (Hc : char_at text (program k) = NUL /\ k' = k).
  { unfold bfInterpret_step in Hstep.
    pose proof (classify_cases (char_at text (program k))) as Hchar.
    destruct (classify (char_at text (program k))); unfold with_machine, skip_to in Hstep;
      repeat match type of Hstep with
             | context [if ?b then _ else _] => destruct b
             | context [match ?l with [] => _ | _ :: _ => _ end] => destruct l
             | context [match ?o with Some _ => _ | None => _ end] => destruct o
             | context [let '(_, _) := ?p in _] => destruct p
             end; try discriminate.
    injection Hstep as <-. now split. }
  destruct Hc as [Hc ->].
  apply nul_at_end in Hc.
  destruct (generates_inv _ _ _ Hg) as (_ & Hle & _).
  assert (Hend : tok g = length text) by lia.
  pose proof (generates_final text a g gf Hfinal Hg Hend) as ->.
  pose proof (balanced_stack_empty text a gf Hfinal Hbal) as Hempty.
  destruct (nskip k) as [|d].
  - destruct Hmode as (n & g' & Hcs & _ & Hrip).
    inversion Hcs; subst; [|lia].
    assert (Hb : has_bytes code (length (machineCode g')) epilogue).
    { destruct Hcode as [pad ->]. rewrite app_assoc. apply has_bytes_app_l, has_bytes_app. }
    destruct Hag as [Hmem Hrbx Hin Hout Hstack].
    eexists. split.
    + cbn [x86_run].
      erewrite (x86_step_chunk _ _ _ m _ 0 _ PopRax 1 Hb);
        [|lia|intros ?; reflexivity|simpl; lia].
      cbn [exec]. rewrite Hstack.
      erewrite (x86_step_chunk _ _ _ _ _ 1 _ JmpRax 2 Hb);
        [|cbn [rip]; lia|intros ?; reflexivity|simpl; lia].
      cbn [exec rax]. rewrite Z.eqb_refl. reflexivity.
    + cbn. tauto.
  - destruct Hmode as (_ & L0 & HL0 & _). rewrite Hempty in HL0. discriminate.
Qed.

(** The whole run. *)
Lemma sim_run (fuel : nat) (k kf : interp) (m : x86) :
  sim sys text a (machineCode gf) k m ->
  bfInterpret_loop fuel text k = Ok kf ->
  stdin_eof (host kf) = false ->
  exists fuel' mf,
    x86_run (tape_addr sys) (return_addr sys) fuel' code m = Ok mf /\
    mem mf = tape (machine kf) /\ rbx mf = tape_addr sys + ptr (machine kf) /\
    fd0 (files mf) = stdin (host kf) /\ fd1 (files mf) = stdout (host kf).
Proof.
  revert k m. induction fuel as [|fuel IH]; intros k m Hsim Hrun Heof; [discriminate|].
  simpl in Hrun.
  destruct (bfInterpret_step text k) as [k1|k1| |] eqn:Hstep; try discriminate.
  - assert (Heof1 : stdin_eof (host k1) = false).
    { destruct (stdin_eof (host k1)) eqn:E; [|reflexivity].
      rewrite (loop_eof_sticky text fuel k1 kf Hrun E) in Heof. discriminate. }
    destruct (sim_step k k1 m Hsim Hstep Heof1) as (m1 & Hsteps & Hsim1).
    destruct (IH k1 m1 Hsim1 Hrun Heof) as (fuel' & mf & Hx & Hres).
    destruct (x86_run_steps _ _ _ m m1 mf fuel' Hsteps Hx) as [fuel'' Hx'].
    now exists fuel'', mf.
  - injection Hrun as <-.
    destruct (sim_halt k k1 m Hsim Hstep) as (mf & Hx & Hres).
    now exists 2%nat, mf.
Qed.

End Simulation.

(** ** The two modes on one text *)

Lemma bfJITCompile_code_inv (text : list ascii) (a : Z) (code : list Z) :
  bfJITCompile_code text a = Ok code ->
  exists gf, bfJITCompile_loop (length text) text (jit_init a) = Ok gf /\
             code = machineCode gf ++ epilogue.
Proof.
  unfold bfJITCompile_code.
  destruct (bfJITCompile_loop (length text) text (jit_init a)) as [gf| | | |];
    try discriminate.
  intros [= <-]. now exists gf.
Qed.

Lemma prologue_final (text : list ascii) (a : Z) (gf : jit) :
  bfJITCompile_loop (length text) text (jit_init a) = Ok gf ->
  has_bytes (machineCode gf) 0 (prologue a).
Proof.
  intros Hfinal. apply (final_settled text a gf Hfinal (jit_init a)).
  - constructor.
  - intros i b Hb. exact Hb.
  - intros i Hi. split; [exact Hi|constructor].
Qed.

(** The generated code follows the interpreter. *)
Lemma modes_agree (sys : system) (text : list ascii) (s : bfState)
    (input : list Z) (code : list Z) (fuel : nat) (kf : interp) :
  0 <= tape_addr sys ->
  tape_addr sys + Z.of_nat (length (tape s)) < 2 ^ 64 ->
  0 <= ptr s <= Z.of_nat (length (tape s)) ->
  Forall is_byte (tape s) ->
  pageSize sys < 2 ^ 31 ->
  mmap_fails sys = false ->
  Forall is_byte input ->
  forallb (fun c => negb (Ascii.eqb c NUL)) text = true ->
  balanced text = true ->
  (max_span "<" text <= 127)%nat ->
  (max_span ">" text <= 127)%nat ->
  (max_span "]" text <= 12)%nat ->
  bfJITCompile_code text (tape_addr sys + ptr s) = Ok code ->
  Z.of_nat (length code) <= pageSize sys ->
  bfInterpret fuel text s (stdio_init input) = Ok kf ->
  stdin_eof (host kf) = false ->
  exists fuel' mf,
    bfJITCompile fuel' sys text s (fds_init input) = Ok mf /\
    mem mf = tape (machine kf) /\
    rbx mf = tape_addr sys + ptr (machine kf) /\
    fd1 (files mf) = stdout (host kf) /\
    fd0 (files mf) = stdin (host kf).
Proof.
  intros Ha0 Ha1 Hptr Htape Hps Hmmap Hin Hnul Hbal Hlt Hgt Hcl Hcode Hfit Hrun Heof.
  destruct (bfJITCompile_code_inv text _ code Hcode) as (gf & Hfinal & ->).
  set (a := tape_addr sys + ptr s) in *.
  set (region := machineCode gf ++ epilogue ++
                 replicate (Z.to_nat (pageSize sys
                   - Z.of_nat (length (machineCode gf ++ epilogue)))) 0).
  set (m1 := {| rip := 10; rax := 0; rbx := a; rdi := 0; rsi := 0; rdx := 0;
                zf := false; stack := [return_addr sys]; mem := tape s;
                files := fds_init input |}).
  assert (Hsim : sim sys text a (machineCode gf) (interp_init s (stdio_init input)) m1).
  { split; [|split].
    - constructor; reflexivity.
    - constructor; cbn [interp_init machine host stdio_init stdin]; try assumption.
      split; assumption.
    - exists (jit_init a). split; [constructor|]. split; [reflexivity|].
      split; [constructor|]. cbn [interp_init nskip].
      exists O, (jit_init a). split; [constructor|]. split; [congruence|].
      reflexivity. }
  assert (Hsize : Z.of_nat (length (machineCode gf)) < 2 ^ 31).
  { rewrite length_app in Hfit. lia. }
  destruct (sim_run sys text a gf region Hfinal
              ltac:(eexists; reflexivity) Hsize Hlt Hgt Hcl Hnul Hbal
              fuel _ kf m1 Hsim Hrun Heof)
    as (fuel' & mf & Hx & Hmem & Hrbx & Hfd0 & Hfd1).
  exists (S fuel'), mf. split; [|tauto].
  unfold bfJITCompile. fold a. rewrite Hcode. cbn [and_then].
  unfold setupExecutableMem. rewrite Hmmap.
  assert (Hlen : 0 < Z.of_nat (length (machineCode gf ++ epilogue))).
  { rewrite length_app. simpl. lia. }
  rewrite mapped_bytes_one_page by lia.
  destruct (Z.leb_spec (Z.of_nat (length (machineCode gf ++ epilogue))) (pageSize sys));
    [|lia].
  rewrite <- app_assoc. fold region.
  cbn [x86_run].
  assert (Hb : has_bytes region 0 (prologue a)).
  { unfold region. apply has_bytes_app_l. now apply prologue_final with text. }
  erewrite (x86_step_chunk _ _ _ (entry_state sys s (fds_init input)) 0 0 _
              (MovRbx (le_uint (_resolvePtrAddr a))) 10 Hb);
    [|reflexivity|intros ?; reflexivity|simpl; lia].
  cbn [exec]. rewrite le_uint_resolvePtrAddr by (unfold a; lia).
  exact Hx.
Qed.

(** X20.  Under the limits of the two implementations the modes agree:
    for a text without NUL whose brackets are balanced, whose runs of
    [<] and of [>] are at most 127 long, in which at most 12 closing
    brackets follow one another, for which the generator returns a
    code (so the text does not end in a run or in a closing bracket)
    and whose code fits into one page, a run of the interpreter that
    returns without reading at the end of input is matched by the run
    of the generated code: same tape, cursor, output and remaining
    input. *)
Theorem interpreter_jit_agree (sys : system) (text : list ascii) (s : bfState)
    (input : list Z) (code : list Z) (fuel : nat) (kf : interp) :
  0 <= tape_addr sys ->
  tape_addr sys + Z.of_nat (length (tape s)) < 2 ^ 64 ->
  0 <= ptr s <= Z.of_nat (length (tape s)) ->
  Forall is_byte (tape s) ->
  pageSize sys < 2 ^ 31 ->
  mmap_fails sys = false ->
  Forall is_byte input ->
  forallb (fun c => negb (Ascii.eqb c NUL)) text = true ->
  balanced text = true ->
  (max_span "<" text <= 127)%nat ->
  (max_span ">" text <= 127)%nat ->
  (max_span "]" text <= 12)%nat ->
  bfJITCompile_code text (tape_addr sys + ptr s) = Ok code ->
  Z.of_nat (length code) <= pageSize sys ->
  bfInterpret fuel text s (stdio_init input) = Ok kf ->
  stdin_eof (host kf) = false ->
  exists fuel' mf,
    bfJITCompile fuel' sys text s (fds_init input) = Ok mf /\
    mem mf = tape (machine kf) /\
    rbx mf = tape_addr sys + ptr (machine kf) /\
    fd1 (files mf) = stdout (host kf) /\
    fd0 (files mf) = stdin (host kf).
Proof. apply modes_agree. Qed.

Lemma interpreter_jit_agree_witness :
  exists fuel' mf,
    bfJITCompile fuel' system_4k (src "++>+++++[<+>-]<.")
      {| tape := [0; 0; 0; 0]; ptr := 0 |} (fds_init []) = Ok mf /\
    mem mf = [7; 0; 0; 0] /\ fd1 (files mf) = [7].
Proof.
  destruct (interpreter_jit_agree system_4k (src "++>+++++[<+>-]<.")
              {| tape := [0; 0; 0; 0]; ptr := 0 |} []
              (prologue (tape_addr system_4k) ++
               [128; 3; 2; 72; 131; 195; 1; 128; 3; 5; 128; 59; 0; 15; 132; 23; 0; 0; 0;
                72; 131; 235; 1; 128; 3; 1; 72; 131; 195; 1; 128; 43; 1;
                128; 59; 0; 15; 133; 233; 255; 255; 255; 72; 131; 235; 1;
                184; 4; 0; 0; 2; 191; 1; 0; 0; 0; 72; 137; 222; 186; 1; 0; 0; 0; 15; 5;
                88; 255; 224])
              40
              {| program := 16; loops := []; nskip := 0;
                 machine := {| tape := [7; 0; 0; 0]; ptr := 0 |};
                 host := {| stdin := []; stdin_eof := false; stdout := [7] |} |})
    as (fuel' & mf & Hrun & Hmem & _ & Hout & _).
  - vm_compute. discriminate.
  - vm_compute. reflexivity.
  - vm_compute. split; discriminate.
  - repeat constructor; discriminate.
  - vm_compute. reflexivity.
  - reflexivity.
  - constructor.
  - reflexivity.
  - reflexivity.
  - vm_compute. lia.
  - vm_compute. lia.
  - vm_compute. lia.
  - vm_compute. reflexivity.
  - vm_compute. discriminate.
  - vm_compute. reflexivity.
  - reflexivity.
  - exists fuel', mf. split; [exact Hrun|]. split; [exact Hmem|exact Hout].
Defined.

(** A balanced text with brackets nested 101 deep, beyond the limit of
    the interpreter: the interpreter calls std::terminate() at the
    101st opening bracket, the generated code skips the loops and
    writes a byte. *)
Lemma depth_101_modes_differ :
  balanced nest_101 = true /\
  bfRunDefault 200 nest_101 (stdio_init []) = Terminate /\
  and_then (bfRunJIT 20 system_4k nest_101 (fds_init []))
    (fun mf => Ok (fd1 (files mf))) = Ok [1].
Proof.
  split; [vm_compute; reflexivity|]. split; vm_compute; reflexivity.
Qed.

(** C1 on four balanced texts that keep the cursor in the tape, nest
    loops 13 deep at most and have no run longer than 128.  On
    [nest_13] the interpreter writes the byte 1 and returns, the
    generated code jumps into the middle of an instruction.  On
    [move_128] the interpreter writes the 1 of cell 0, the generated
    code is at cell 256 and writes 0.  On [,.] with no input the
    interpreter writes 255, the generated code writes 0.  On [+[-]]
    the interpreter returns with 0 in the cell, the generator looks
    behind the last closing bracket and reads [*cend()]. *)
Theorem modes_differ_on_well_formed :
  (balanced nest_13 = true /\
   and_then (bfRunDefault 100 nest_13 (stdio_init []))
     (fun kf => Ok (stdout (host kf))) = Ok [1] /\
   bfRunJIT 100 system_4k nest_13 (fds_init []) = Undefined) /\
  (balanced move_128 = true /\
   and_then (bfRunDefault 10 move_128 (stdio_init []))
     (fun kf => Ok (ptr (machine kf), stdout (host kf))) = Ok (0, [1]) /\
   and_then (bfRunJIT 20 system_4k move_128 (fds_init []))
     (fun mf => Ok (rbx mf - tape_addr system_4k, fd1 (files mf))) = Ok (256, [0])) /\
  (and_then (bfRunDefault 5 (src ",.") (stdio_init []))
     (fun kf => Ok (stdout (host kf))) = Ok [255] /\
   and_then (bfRunJIT 20 system_4k (src ",.") (fds_init []))
     (fun mf => Ok (fd1 (files mf))) = Ok [0]) /\
  (and_then (bfRunDefault 10 (src "+[-]") (stdio_init []))
     (fun kf => Ok (deref (machine kf))) = Ok (Some 0) /\
   forall fuel, bfRunJIT fuel system_4k (src "+[-]") (fds_init []) = Undefined).
Proof.
  split; [|split; [|split]].
  - split; [vm_compute; reflexivity|]. split; vm_compute; reflexivity.
  - split; [vm_compute; reflexivity|]. split; vm_compute; reflexivity.
  - split; vm_compute; reflexivity.
  - split; [vm_compute; reflexivity|]. intros fuel. reflexivity.
Qed.

(** ** A run of [+] followed by a run of [-] *)

Lemma span_len_other (c d : ascii) (n : nat) :
  d <> c -> span_len c (replicate n d) = O.
Proof.
  intros Hd. destruct n as [|n]; [reflexivity|]. simpl.
  destruct (Ascii.eqb_spec d c); [contradiction|reflexivity].
Qed.

Lemma interp_arith_step (text : list ascii) (k : interp) (v : Z) (c : ascii) :
  c = "+"%char \/ c = "-"%char ->
  char_at text (program k) = c ->
  nskip k = O ->
  deref (machine k) = Some v ->
  let n := S (span_len c (drop (S (program k)) text)) in
  bfInterpret_step text k =
    Next {| program := (program k + n)%nat; loops := loops k; nskip := nskip k;
            machine :=
              {| tape := <[Z.to_nat (ptr (machine k)) :=
                            to_uchar (if Ascii.eqb c "+" then v + Z.of_nat n
                                      else v - Z.of_nat n)]> (tape (machine k));
                 ptr := ptr (machine k) |};
            host := host k |}.
Proof.
  intros Hc Hchar Hskip Hv n. unfold bfInterpret_step. rewrite Hchar.
  pose proof (deref_in_range _ _ Hv) as Hr.
  destruct Hc as [->| ->];
    [change (classify "+"%char) with TPlus; change (Ascii.eqb "+" "+") with true
    |change (classify "-"%char) with TMinus; change (Ascii.eqb "-" "+") with false];
    cbv iota; fold n; rewrite Hskip at 1; cbn [Nat.eqb]; rewrite Hv; cbn [mbind option_bind];
    rewrite assign_in_range by assumption; unfold with_machine; do 2 f_equal; lia.
Qed.

Lemma interp_halt (text : list ascii) (fuel : nat) (k : interp) :
  char_at text (program k) = NUL ->
  bfInterpret_loop (S fuel) text k = Ok k.
Proof.
  intros Hc. simpl. unfold bfInterpret_step. rewrite Hc. reflexivity.
Qed.

Lemma interp_next (text : list ascii) (fuel : nat) (k k' : interp) :
  bfInterpret_step text k = Next k' ->
  bfInterpret_loop (S fuel) text k = bfInterpret_loop fuel text k'.
Proof. intros H. simpl. now rewrite H. Qed.

Lemma span_len_tother (c : ascii) (post : list ascii) :
  Forall (fun x => classify x = TOther) post ->
  classify c <> TOther ->
  span_len c post = O.
Proof.
  intros H Hc. destruct H as [|x l Hx _]; [reflexivity|]. simpl.
  destruct (Ascii.eqb_spec x c); [congruence|reflexivity].
Qed.

(** Characters that are no commands are passed over one by one, up to
    the terminator. *)
Lemma interp_tail (pre post : list ascii) (fuel : nat) (k : interp) :
  Forall (fun x => classify x = TOther) post ->
  program k = length pre ->
  (length post < fuel)%nat ->
  exists kf,
    bfInterpret_loop fuel (pre ++ post) k = Ok kf /\
    machine kf = machine k /\ host kf = host k.
Proof.
  intros Hpost. revert pre fuel k.
  induction Hpost as [|x post Hx _ IH]; intros pre fuel k Hp Hf.
  - destruct fuel as [|fuel]; [simpl in Hf; lia|].
    exists k. split; [|split; reflexivity].
    apply interp_halt. apply char_at_end. rewrite app_nil_r. lia.
  - destruct fuel as [|fuel]; [simpl in Hf; lia|].
    assert (Hstep : bfInterpret_step (pre ++ x :: post) k =
                    Next {| program := S (program k); loops := loops k; nskip := nskip k;
                            machine := machine k; host := host k |}).
    { unfold bfInterpret_step. rewrite Hp, char_at_middle, Hx. reflexivity. }
    rewrite (interp_next _ _ _ _ Hstep).
    replace (pre ++ x :: post) with ((pre ++ [x]) ++ post) by now rewrite <- app_assoc.
    destruct (IH (pre ++ [x]) fuel
                {| program := S (program k); loops := loops k; nskip := nskip k;
                   machine := machine k; host := host k |}) as (kf & Hrun & Hm & Hh).
    + cbn [program]. rewrite length_app, Hp. simpl. lia.
    + simpl in Hf. lia.
    + exists kf. split; [exact Hrun|]. split; assumption.
Qed.

Lemma interp_plus_minus_then (k j : nat) (post : list ascii) (s : bfState) (w : stdio) :
  deref s = Some 0 ->
  Forall (fun x => classify x = TOther) post ->
  exists kf,
    bfInterpret (3 + length post)
      (replicate k "+"%char ++ replicate j "-"%char ++ post) s w = Ok kf /\
    deref (machine kf) = Some ((Z.of_nat k - Z.of_nat j) mod 256) /\
    ptr (machine kf) = ptr s /\ host kf = w /\
    length (tape (machine kf)) = length (tape s) /\
    (Forall is_byte (tape s) -> Forall is_byte (tape (machine kf))).
Proof.
  intros Hv Hpost. pose proof (deref_in_range _ _ Hv) as Hr.
  unfold bfInterpret. change (3 + length post)%nat with (S (S (S (length post)))).
  set (text := replicate k "+"%char ++ replicate j "-"%char ++ post).
  assert (Htext : text = (replicate k "+"%char ++ replicate j "-"%char) ++ post)
    by (unfold text; now rewrite app_assoc).
  assert (Hlen : length (replicate k "+"%char ++ replicate j "-"%char) = (k + j)%nat)
    by now rewrite length_app, !length_replicate.
  assert (Hpm : span_len "-" post = O)
    by (apply span_len_tother; [assumption|discriminate]).
  assert (Hpp : span_len "+" (replicate j "-"%char ++ post) = O).
  { destruct j; [apply span_len_tother; [assumption|discriminate]|reflexivity]. }
  destruct k as [|k'].
  - (* no [+] *)
    destruct j as [|j'].
    + destruct (interp_tail [] post (3 + length post) (interp_init s w) Hpost eq_refl
                  ltac:(lia)) as (kf & Hrun & Hm & Hh).
      exists kf. split; [exact Hrun|]. rewrite Hm, Hh.
      split; [exact Hv|]. repeat (split; [reflexivity|]). trivial.
    + pose proof (interp_arith_step text (interp_init s w) 0 "-"%char
                    ltac:(now right) eq_refl eq_refl Hv) as Hstep.
      cbv zeta in Hstep. change (Ascii.eqb "-" "+") with false in Hstep. cbv iota in Hstep.
      assert (Hsp : span_len "-" (drop (S (program (interp_init s w))) text) = j').
      { change (span_len "-" (replicate j' "-"%char ++ post) = j').
        rewrite span_len_replicate_app, Hpm. lia. }
      rewrite Hsp in Hstep. cbn [interp_init program loops nskip machine host] in Hstep.
      rewrite (interp_next _ _ _ _ Hstep), Htext.
      match goal with
      | |- context [bfInterpret_loop _ _ ?k1] =>
          destruct (interp_tail (replicate 0 "+"%char ++ replicate (S j') "-"%char) post
                      (2 + length post) k1 Hpost) as (kf & Hrun & Hm & Hh)
      end.
      * cbn [program]. rewrite Hlen. lia.
      * lia.
      * exists kf. split; [exact Hrun|]. rewrite Hm, Hh.
        cbn [machine host tape ptr]. split; [|split; [reflexivity|split; [reflexivity|split]]].
        -- rewrite (deref_assign s) by assumption. reflexivity.
        -- apply length_insert.
        -- intros Hb. apply Forall_insert; [assumption|apply to_uchar_is_byte].
  - (* at least one [+] *)
    pose proof (interp_arith_step text (interp_init s w) 0 "+"%char
                  ltac:(now left) eq_refl eq_refl Hv) as Hstep.
    cbv zeta in Hstep. change (Ascii.eqb "+" "+") with true in Hstep. cbv iota in Hstep.
    assert (Hsp : span_len "+" (drop (S (program (interp_init s w))) text) = k').
    { change (span_len "+" (replicate k' "+"%char ++ replicate j "-"%char ++ post) = k').
      rewrite span_len_replicate_app, Hpp. lia. }
    rewrite Hsp in Hstep. cbn [interp_init program loops nskip machine host] in Hstep.
    set (s1 := {| tape := <[Z.to_nat (ptr s) := to_uchar (0 + Z.of_nat (S k'))]> (tape s);
                  ptr := ptr s |}) in *.
    assert (Hv1 : deref s1 = Some (to_uchar (0 + Z.of_nat (S k'))))
      by (apply deref_assign; assumption).
    assert (Hb1 : Forall is_byte (tape s) -> Forall is_byte (tape s1))
      by (intros Hb; apply Forall_insert; [assumption|apply to_uchar_is_byte]).
    set (k1 := {| program := (0 + S k')%nat; loops := []; nskip := O;
                  machine := s1; host := w |}) in *.
    rewrite (interp_next _ _ _ _ Hstep).
    destruct j as [|j'].
    + rewrite Htext.
      destruct (interp_tail (replicate (S k') "+"%char ++ replicate 0 "-"%char) post
                  (2 + length post) k1 Hpost) as (kf & Hrun & Hm & Hh).
      * cbn [k1 program]. rewrite Hlen. lia.
      * lia.
      * exists kf. split; [exact Hrun|]. rewrite Hm, Hh.
        cbn [k1 machine host]. split; [|split; [reflexivity|split; [reflexivity|split]]].
        -- rewrite Hv1; unfold to_uchar; f_equal; f_equal; lia.
        -- apply length_insert.
        -- assumption.
    + assert (Hc2 : char_at text (program k1) = "-"%char).
      { unfold text, k1. cbn [program]. rewrite <- (length_replicate (0 + S k') "+"%char).
        change (replicate (S j') "-"%char ++ post)
          with ("-"%char :: replicate j' "-"%char ++ post).
        apply char_at_middle. }
      pose proof (interp_arith_step text k1 _ "-"%char
                    ltac:(now right) Hc2 eq_refl Hv1) as Hstep2.
      cbv zeta in Hstep2. change (Ascii.eqb "-" "+") with false in Hstep2.
      cbv iota in Hstep2.
      assert (Hsp2 : span_len "-" (drop (S (program k1)) text) = j').
      { unfold text, k1. cbn [program].
        replace (S (0 + S k')) with (length (replicate (S k') "+"%char) + 1)%nat
          by (rewrite length_replicate; lia).
        rewrite <- drop_drop, drop_app_length.
        change (span_len "-" (replicate j' "-"%char ++ post) = j').
        rewrite span_len_replicate_app, Hpm. lia. }
      rewrite Hsp2 in Hstep2. cbn [k1 program loops nskip machine host] in Hstep2.
      rewrite (interp_next _ _ _ _ Hstep2), Htext.
      match goal with
      | |- context [bfInterpret_loop _ _ ?k2] =>
          destruct (interp_tail (replicate (S k') "+"%char ++ replicate (S j') "-"%char) post
                      (1 + length post) k2 Hpost) as (kf & Hrun & Hm & Hh)
      end.
      * cbn [program]. rewrite Hlen. lia.
      * lia.
      * exists kf. split; [exact Hrun|]. rewrite Hm, Hh.
        cbn [machine host tape ptr]. split; [|split; [reflexivity|split; [reflexivity|split]]].
        -- unfold s1 at 1. cbn [ptr].
           rewrite (deref_assign s1) by (unfold s1; cbn [tape ptr]; rewrite length_insert; lia).
           unfold to_uchar; f_equal.
           rewrite Zminus_mod_idemp_l; f_equal; lia.
        -- unfold s1. cbn [tape]. now rewrite !length_insert.
        -- intros Hb. apply Forall_insert; [now apply Hb1|apply to_uchar_is_byte].
Qed.

Lemma interp_plus_minus (k j : nat) (s : bfState) (w : stdio) :
  deref s = Some 0 ->
  exists kf,
    bfInterpret 3 (replicate k "+"%char ++ replicate j "-"%char) s w = Ok kf /\
    deref (machine kf) = Some ((Z.of_nat k - Z.of_nat j) mod 256) /\
    ptr (machine kf) = ptr s /\ host kf = w /\
    length (tape (machine kf)) = length (tape s) /\
    (Forall is_byte (tape s) -> Forall is_byte (tape (machine kf))).
Proof.
  intros Hv. pose proof (interp_plus_minus_then k j [] s w Hv ltac:(constructor)) as H.
  now rewrite app_nil_r in H.
Qed.

Lemma forallb_replicate {A : Type} (f : A -> bool) (n : nat) (x : A) :
  f x = true -> forallb f (replicate n x) = true.
Proof. intros H. induction n as [|n IH]; simpl; [reflexivity|]. now rewrite H, IH. Qed.

Lemma balanced_from_plain (d : nat) (l : list ascii) :
  Forall (fun c => classify c <> TOpen /\ classify c <> TClose) l ->
  balanced_from d l = (d =? 0)%nat.
Proof.
  induction 1 as [|c l [Ho Hc] _ IH]; simpl; [reflexivity|].
  destruct (classify c); congruence.
Qed.

Lemma max_span_absent (c : ascii) (l : list ascii) :
  Forall (fun x => x <> c) l -> max_span c l = O.
Proof.
  induction 1 as [|x l Hx _ IH]; simpl; [reflexivity|].
  destruct (Ascii.eqb_spec x c); [contradiction|]. now rewrite IH.
Qed.

(** The generator on the two runs, when another character follows them. *)
Lemma code_plus_minus (k j : nat) (x : ascii) (a : Z) :
  classify x = TOther ->
  bfJITCompile_code (replicate k "+"%char ++ replicate j "-"%char ++ [x]) a =
    Ok (prologue a ++ arith_code "+" k ++ arith_code "-" j ++ epilogue).
Proof.
  intros Hx. unfold bfJITCompile_code.
  assert (Hxp : char_at [x] 0 <> "+"%char) by (intros E; unfold char_at in E; simpl in E; rewrite E in Hx; discriminate).
  assert (Hxm : char_at [x] 0 <> "-"%char) by (intros E; unfold char_at in E; simpl in E; rewrite E in Hx; discriminate).
  assert (Hlast : forall pre g fuel, tok g = length pre -> (0 < fuel)%nat ->
            bfJITCompile_loop fuel (pre ++ [x]) g = Ok {| tok := S (length pre);
              machineCode := machineCode g; jmpLocIndex := jmpLocIndex g |}).
  { intros pre g fuel Hg Hf. destruct fuel as [|fuel]; [lia|].
    rewrite jit_loop_unfold by (rewrite length_app, Hg; simpl; lia).
    unfold bfJITCompile_step. rewrite Hg, char_at_middle, Hx, <- Hg. cbn [and_then].
    apply jit_loop_done. cbn [tok]. rewrite length_app, Hg. simpl. lia. }
  assert (Hlen : length (replicate k "+"%char ++ replicate j "-"%char ++ [x])
                 = S (k + j)) by (rewrite !length_app, !length_replicate; simpl; lia).
  rewrite Hlen. clear Hlen.
  destruct k as [|k'], j as [|j'].
  - change (replicate 0 "+"%char ++ replicate 0 "-"%char ++ [x]) with ([] ++ [x]).
    rewrite (Hlast [] (jit_init a) _ eq_refl) by lia. reflexivity.
  - change (replicate 0 "+"%char ++ replicate (S j') "-"%char ++ [x])
      with ([] ++ replicate (S j') "-"%char ++ [x]).
    change (S (0 + S j')) with (S (S j')).
    rewrite jit_loop_unfold
      by (cbn [jit_init tok]; rewrite !length_app, length_replicate; simpl; lia).
    rewrite (jit_step_run [] [x] "-"%char j' (jit_init a));
      [|simpl; tauto|discriminate|assumption|reflexivity].
    cbn [and_then].
    change ([] ++ replicate (S j') "-"%char ++ [x]) with (replicate (S j') "-"%char ++ [x]).
    rewrite Hlast; [|cbn [tok]; rewrite length_replicate; reflexivity|lia].
    cbn [and_then machineCode jit_init arith_code]. now rewrite <- !app_assoc.
  - change (replicate (S k') "+"%char ++ replicate 0 "-"%char ++ [x])
      with ([] ++ replicate (S k') "+"%char ++ [x]).
    rewrite jit_loop_unfold
      by (cbn [jit_init tok]; rewrite !length_app, length_replicate; simpl; lia).
    rewrite (jit_step_run [] [x] "+"%char k' (jit_init a));
      [|simpl; tauto|discriminate|assumption|reflexivity].
    cbn [and_then].
    change ([] ++ replicate (S k') "+"%char ++ [x]) with (replicate (S k') "+"%char ++ [x]).
    rewrite Hlast; [|cbn [tok]; rewrite length_replicate; reflexivity|lia].
    cbn [and_then machineCode jit_init arith_code]. now rewrite <- !app_assoc.
  - change (replicate (S k') "+"%char ++ replicate (S j') "-"%char ++ [x])
      with ([] ++ replicate (S k') "+"%char ++ replicate (S j') "-"%char ++ [x]).
    rewrite jit_loop_unfold
      by (cbn [jit_init tok]; rewrite !length_app, !length_replicate; simpl; lia).
    rewrite (jit_step_run [] (replicate (S j') "-"%char ++ [x]) "+"%char k' (jit_init a));
      [|simpl; tauto|discriminate|discriminate|reflexivity].
    cbn [and_then].
    change ([] ++ replicate (S k') "+"%char ++ replicate (S j') "-"%char ++ [x])
      with (replicate (S k') "+"%char ++ replicate (S j') "-"%char ++ [x]).
    change (S k' + S j')%nat with (S (k' + S j')).
    rewrite jit_loop_unfold
      by (cbn [tok]; rewrite !length_app, !length_replicate; simpl; lia).
    rewrite (jit_step_run (replicate (S k') "+"%char) [x] "-"%char j');
      [|simpl; tauto|discriminate|assumption
       |cbn [tok]; rewrite length_replicate; reflexivity].
    cbn [and_then].
    rewrite app_assoc.
    rewrite Hlast; [|cbn [tok]; rewrite length_app, !length_replicate; reflexivity|lia].
    cbn [and_then machineCode jit_init arith_code]. now rewrite <- !app_assoc.
Qed.

(** The generator on the two runs alone: the scan of the last run reads
    [*tok] at [cend()]. *)
Lemma code_plus_minus_end (k j : nat) (a : Z) :
  (0 < k + j)%nat ->
  bfJITCompile_code (replicate k "+"%char ++ replicate j "-"%char) a = Undefined.
Proof.
  intros Hpos. unfold bfJITCompile_code.
  assert (Hlen : length (replicate k "+"%char ++ replicate j "-"%char) = (k + j)%nat)
    by now rewrite length_app, !length_replicate.
  rewrite Hlen. clear Hlen.
  destruct k as [|k'], j as [|j']; [simpl in Hpos; lia| | |].
  - change (replicate 0 "+"%char ++ replicate (S j') "-"%char)
      with ([] ++ replicate (S j') "-"%char).
    change (0 + S j')%nat with (S j').
    rewrite jit_loop_unfold
      by (cbn [jit_init tok]; rewrite !length_app, length_replicate; simpl; lia).
    rewrite (jit_step_run_end [] "-"%char j' (jit_init a)); [reflexivity|simpl; tauto|reflexivity].
  - rewrite app_nil_r.
    change (replicate (S k') "+"%char) with ([] ++ replicate (S k') "+"%char).
    change (S k' + 0)%nat with (S (k' + 0)).
    rewrite jit_loop_unfold
      by (cbn [jit_init tok]; rewrite !length_app, length_replicate; simpl; lia).
    rewrite (jit_step_run_end [] "+"%char k' (jit_init a)); [reflexivity|simpl; tauto|reflexivity].
  - change (S k' + S j')%nat with (S (k' + S j')).
    change (replicate (S k') "+"%char ++ replicate (S j') "-"%char)
      with ([] ++ replicate (S k') "+"%char ++ replicate (S j') "-"%char).
    rewrite jit_loop_unfold
      by (cbn [jit_init tok]; rewrite !length_app, !length_replicate; simpl; lia).
    rewrite (jit_step_run [] (replicate (S j') "-"%char) "+"%char k' (jit_init a));
      [|simpl; tauto|discriminate|discriminate|reflexivity].
    cbn [and_then]. replace (k' + S j')%nat with (S (k' + j')) by lia.
    change ([] ++ replicate (S k') "+"%char ++ replicate (S j') "-"%char)
      with (replicate (S k') "+"%char ++ replicate (S j') "-"%char).
    rewrite jit_loop_unfold
      by (cbn [tok]; rewrite !length_app, !length_replicate; simpl; lia).
    rewrite (jit_step_run_end (replicate (S k') "+"%char) "-"%char j');
      [reflexivity|simpl; tauto|cbn [tok]; rewrite length_replicate; reflexivity].
Qed.

Lemma jit_plus_minus (k j : nat) (x : ascii) (s : bfState) (sys : system) (input : list Z) :
  deref s = Some 0 ->
  Forall is_byte (tape s) ->
  classify x = TOther ->
  0 <= tape_addr sys ->
  tape_addr sys + Z.of_nat (length (tape s)) < 2 ^ 64 ->
  19 <= pageSize sys < 2 ^ 31 ->
  mmap_fails sys = false ->
  Forall is_byte input ->
  exists fuel mf,
    bfJITCompile fuel sys (replicate k "+"%char ++ replicate j "-"%char ++ [x]) s
      (fds_init input) = Ok mf /\
    load (tape_addr sys) mf (rbx mf) = Some ((Z.of_nat k - Z.of_nat j) mod 256).
Proof.
  intros Hv Hb Hx Ha0 Ha1 Hps Hmm Hin.
  pose proof (deref_in_range _ _ Hv) as Hr.
  destruct (interp_plus_minus_then k j [x] s (stdio_init input) Hv)
    as (kf & Hrun & Hcell & Hptr & Hhost & _); [repeat constructor; assumption|].
  set (text := replicate k "+"%char ++ replicate j "-"%char ++ [x]) in *.
  assert (Hplain : Forall (fun c => c = "+"%char \/ c = "-"%char \/ classify c = TOther) text).
  { unfold text. apply Forall_app. split; [apply Forall_replicate; tauto|].
    apply Forall_app. split; [apply Forall_replicate; tauto|].
    apply Forall_cons. split; [tauto|apply Forall_nil_2]. }
  destruct (modes_agree sys text s input
              (prologue (tape_addr sys + ptr s) ++ arith_code "+" k ++ arith_code "-" j
                 ++ epilogue)
              (3 + length [x]) kf Ha0 Ha1 ltac:(lia) Hb ltac:(lia) Hmm Hin)
    as (fuel & mf & Hjit & Hmem & Hrbx & _).
  - unfold text. rewrite !forallb_app, !forallb_replicate by reflexivity.
    simpl. destruct (Ascii.eqb_spec x NUL) as [->|]; [discriminate|reflexivity].
  - unfold balanced. rewrite balanced_from_plain; [reflexivity|].
    eapply Forall_impl; [exact Hplain|].
    intros c [->|[->|Hc]]; split; try discriminate; congruence.
  - rewrite max_span_absent; [lia|].
    eapply Forall_impl; [exact Hplain|].
    intros c [->|[->|Hc]]; try discriminate. intros ->. discriminate.
  - rewrite max_span_absent; [lia|].
    eapply Forall_impl; [exact Hplain|].
    intros c [->|[->|Hc]]; try discriminate. intros ->. discriminate.
  - rewrite max_span_absent; [lia|].
    eapply Forall_impl; [exact Hplain|].
    intros c [->|[->|Hc]]; try discriminate. intros ->. discriminate.
  - now apply code_plus_minus.
  - rewrite !length_app, length_prologue.
    assert (length (arith_code "+" k) <= 3)%nat by (destruct k; simpl; lia).
    assert (length (arith_code "-" j) <= 3)%nat by (destruct j; simpl; lia).
    simpl length. lia.
  - exact Hrun.
  - now rewrite Hhost.
  - exists fuel, mf. split; [exact Hjit|].
    unfold load. rewrite Hrbx, Hmem, Hptr.
    replace (tape_addr sys + ptr s - tape_addr sys) with (ptr s) by lia.
    destruct (Z.leb_spec (tape_addr sys) (tape_addr sys + ptr s)); [|lia].
    rewrite <- Hcell. unfold deref. rewrite Hptr.
    destruct (Z.leb_spec 0 (ptr s)); [reflexivity|lia].
Qed.

(** C8: [k] times [+] and then [j] times [-], for [k] and [j] up to 255,
    on a cell that holds zero.  The interpreter leaves [(k - j) mod 256]
    in the cell.  The code generator, given the two runs alone, scans the
    last run up to [cend()] and dereferences the iterator there, which is
    undefined; when a character that is no command follows the runs, the
    generated code leaves [(k - j) mod 256] in the cell as well. *)
Theorem plus_minus_cell (k j : nat) (x : ascii) (s : bfState) :
  (k <= 255)%nat -> (j <= 255)%nat ->
  deref s = Some 0 ->
  Forall is_byte (tape s) ->
  classify x = TOther ->
  (forall w, exists kf,
     bfInterpret 3 (replicate k "+"%char ++ replicate j "-"%char) s w = Ok kf /\
     deref (machine kf) = Some ((Z.of_nat k - Z.of_nat j) mod 256)) /\
  (forall sys input,
     0 <= tape_addr sys ->
     tape_addr sys + Z.of_nat (length (tape s)) < 2 ^ 64 ->
     19 <= pageSize sys < 2 ^ 31 ->
     mmap_fails sys = false ->
     Forall is_byte input ->
     ((0 < k + j)%nat ->
      forall fuel,
        bfJITCompile fuel sys (replicate k "+"%char ++ replicate j "-"%char) s
          (fds_init input) = Undefined) /\
     exists fuel mf,
       bfJITCompile fuel sys (replicate k "+"%char ++ replicate j "-"%char ++ [x]) s
         (fds_init input) = Ok mf /\
       load (tape_addr sys) mf (rbx mf) = Some ((Z.of_nat k - Z.of_nat j) mod 256)).
Proof.
  intros _ _ Hv Hb Hx. split.
  - intros w. destruct (interp_plus_minus k j s w Hv) as (kf & Hrun & Hcell & _).
    now exists kf.
  - intros sys input Ha0 Ha1 Hps Hmm Hin. split.
    + intros Hpos fuel. unfold bfJITCompile. now rewrite code_plus_minus_end.
    + now apply jit_plus_minus.
Qed.

Lemma plus_minus_cell_witness :
  (exists kf,
     bfInterpret 3 (replicate 3 "+"%char ++ replicate 5 "-"%char)
       {| tape := [0; 0]; ptr := 0 |} (stdio_init []) = Ok kf /\
     deref (machine kf) = Some 254) /\
  bfJITCompile 9 system_4k (replicate 3 "+"%char ++ replicate 5 "-"%char)
    {| tape := [0; 0]; ptr := 0 |} (fds_init []) = Undefined /\
  (exists fuel mf,
     bfJITCompile fuel system_4k (replicate 3 "+"%char ++ replicate 5 "-"%char ++ src "a")
       {| tape := [0; 0]; ptr := 0 |} (fds_init []) = Ok mf /\
     load (tape_addr system_4k) mf (rbx mf) = Some 254).
Proof.
  destruct (plus_minus_cell 3 5 "a" {| tape := [0; 0]; ptr := 0 |}) as [Hi Hj].
  - lia.
  - lia.
  - reflexivity.
  - repeat constructor; discriminate.
  - reflexivity.
  - destruct (Hj system_4k []) as [Hu Hr].
    + vm_compute. discriminate.
    + vm_compute. reflexivity.
    + vm_compute. split; [discriminate|reflexivity].
    + reflexivity.
    + constructor.
    + split; [exact (Hi (stdio_init []))|]. split; [apply Hu; simpl; lia|exact Hr].
Defined.

(** ** Linking the jumps of a loop *)

(** A state of the run is reached from the start in at most [tok]
    iterations. *)
Lemma generates_run (text : list ascii) (a : Z) (g : jit) :
  generates text a g ->
  exists n, (n <= tok g)%nat /\
    forall f, bfJITCompile_loop (n + f) text (jit_init a) = bfJITCompile_loop f text g.
Proof.
  induction 1 as [|g g' Hg (n & Hn & IH) Hlt Hstep].
  - exists O. split; [simpl; lia|]. reflexivity.
  - exists (S n). split.
    + pose proof (jit_step_tok text g g' Hlt Hstep). lia.
    + intros f. replace (S n + f)%nat with (n + S f)%nat by lia.
      rewrite IH, jit_loop_unfold by lia. now rewrite Hstep.
Qed.

Lemma generates_complete (text : list ascii) (a : Z) (g : jit) :
  generates text a g -> tok g = length text ->
  bfJITCompile_loop (length text) text (jit_init a) = Ok g.
Proof.
  intros Hg Ht. destruct (generates_run _ _ _ Hg) as (n & Hn & Hrun).
  apply (jit_loop_mono text (n + 0)); [|lia].
  rewrite Hrun. now apply jit_loop_done.
Qed.

(** On a balanced text that does not end in a character with a
    look-ahead every iteration is defined, and so is the run. *)
Lemma jit_step_defined (text : list ascii) (a : Z) (g : jit) :
  generates text a g -> (tok g < length text)%nat -> balanced text = true ->
  ends_looking_ahead text = false ->
  exists g', bfJITCompile_step text g = Ok g'.
Proof.
  intros Hg Hlt Hb He. pose proof (classify_cases (char_at text (tok g))) as Hcc.
  destruct (classify (char_at text (tok g))) eqn:Hc.
  8: { destruct (jmpLocIndex g) as [|L rest] eqn:Hstk.
       - pose proof (generates_balanced text a g Hg) as H.
         rewrite Hstk, Hb, (drop_char_at _ _ Hlt) in H. simpl in H.
         rewrite Hc in H. discriminate.
       - destruct (generates_inv _ _ _ Hg) as (Hok & _).
         unfold stack_ok in Hok. rewrite Hstk in Hok. destruct Hok as [HL _].
         pose proof (span_inside text (tok g) "]" He eq_refl Hlt) as Hin.
         rewrite (span_len_drop_S text (tok g) "]" Hlt Hcc) in Hin.
         rewrite (jit_step_close text g L rest Hc Hstk HL).
         destruct (Nat.ltb_spec (S (tok g) + span_len "]" (drop (S (tok g)) text))
                     (length text)); [eexists; reflexivity|lia]. }
  1-4: unfold bfJITCompile_step; rewrite Hc;
       rewrite scan_ok by (apply span_inside; [assumption|reflexivity|assumption]);
       eexists; reflexivity.
  all: unfold bfJITCompile_step; rewrite Hc; eexists; reflexivity.
Qed.

Lemma balanced_loop (text : list ascii) (a : Z) :
  balanced text = true ->
  ends_looking_ahead text = false ->
  forall m g, generates text a g -> (length text - tok g <= m)%nat ->
  exists gf, generates text a gf /\ tok gf = length text.
Proof.
  intros Hb He. induction m as [|m IH]; intros g Hg Hm;
    destruct (generates_inv _ _ _ Hg) as (_ & Hle & _).
  - exists g. split; [assumption|lia].
  - destruct (Nat.eq_dec (tok g) (length text)) as [Heq|Hne]; [now exists g|].
    destruct (jit_step_defined text a g Hg ltac:(lia) Hb He) as [g' Hstep].
    pose proof (jit_step_tok text g g' ltac:(lia) Hstep).
    apply (IH g'); [|lia]. eapply generates_step; eauto. lia.
Qed.

Lemma balanced_compiles (text : list ascii) (a : Z) :
  balanced text = true ->
  ends_looking_ahead text = false ->
  exists gf, bfJITCompile_loop (length text) text (jit_init a) = Ok gf.
Proof.
  intros Hb He.
  destruct (balanced_loop text a Hb He (length text) _ (generates_init text a))
    as (gf & Hg & Ht); [lia|].
  exists gf. now apply generates_complete.
Qed.

(** An iteration for a character that is not a bracket keeps the stack
    and passes over copies of that character only. *)
Lemma jit_step_plain (text : list ascii) (g g' : jit) :
  (tok g < length text)%nat ->
  classify (char_at text (tok g)) <> TOpen ->
  classify (char_at text (tok g)) <> TClose ->
  bfJITCompile_step text g = Ok g' ->
  jmpLocIndex g' = jmpLocIndex g /\
  forall i, (tok g + i < tok g')%nat -> char_at text (tok g + i) = char_at text (tok g).
Proof.
  intros Hlt Ho Hc. unfold bfJITCompile_step.
  pose proof (classify_cases (char_at text (tok g))) as Hcc.
  destruct (classify (char_at text (tok g))) eqn:E; try congruence;
    try (pose proof (span_len_pos text (tok g) _ Hlt Hcc));
    try (destruct (scan _ _ _) as [m|] eqn:Es; [apply scan_inv in Es as [-> _]|discriminate]);
    intros [= <-]; cbn [tok jmpLocIndex]; (split; [reflexivity|]); intros i Hi.
  1-4: rewrite Hcc; apply span_len_char_at; lia.
  all: replace i with O by lia; now rewrite Nat.add_0_r.
Qed.

Lemma jit_step_upto (text : list ascii) (g g' : jit) (p : nat) :
  (tok g < length text)%nat ->
  bfJITCompile_step text g = Ok g' ->
  (tok g < p)%nat ->
  classify (char_at text p) = TOpen \/ classify (char_at text p) = TClose ->
  (tok g' <= p)%nat.
Proof.
  intros Hlt Hstep Hp Hb.
  destruct (classify (char_at text (tok g))) eqn:Hc.
  7, 8: unfold bfJITCompile_step in Hstep; rewrite Hc in Hstep.
  7: { injection Hstep as <-. simpl. lia. }
  7: { destruct (jmpLocIndex g); [discriminate|]. destruct (_ && _); [|discriminate].
       destruct (scan _ _ _); [|discriminate].
       injection Hstep as <-. simpl. lia. }
  all: destruct (Nat.le_gt_cases (tok g') p) as [|Hgt]; [assumption|exfalso];
    destruct (jit_step_plain text g g' Hlt ltac:(congruence) ltac:(congruence) Hstep)
      as [_ Hch];
    specialize (Hch (p - tok g)%nat);
    replace (tok g + (p - tok g))%nat with p in Hch by lia;
    rewrite Hch in Hb by lia; destruct Hb; congruence.
Qed.

Lemma segment_cons (text : list ascii) (p j : nat) :
  (p < j)%nat -> (p < length text)%nat ->
  take (j - p) (drop p text) = char_at text p :: take (j - S p) (drop (S p) text).
Proof.
  intros Hj Hp. rewrite (drop_char_at text p Hp).
  replace (j - p)%nat with (S (j - S p)) by lia. reflexivity.
Qed.

Lemma segment_skip (text : list ascii) (d j n : nat) :
  forall p, (p + n <= j)%nat -> (p + n <= length text)%nat ->
  (forall i, (i < n)%nat ->
     classify (char_at text (p + i)) <> TOpen /\ classify (char_at text (p + i)) <> TClose) ->
  balanced_from d (take (j - p) (drop p text))
  = balanced_from d (take (j - (p + n)) (drop (p + n) text)).
Proof.
  induction n as [|n IH]; intros p Hj Hlen Hpl.
  - now rewrite Nat.add_0_r.
  - rewrite segment_cons by lia.
    destruct (Hpl O ltac:(lia)) as [Ho Hc]. rewrite Nat.add_0_r in Ho, Hc.
    replace (p + S n)%nat with (S p + n)%nat by lia.
    rewrite <- (IH (S p)); [|lia|lia|].
    + cbn [balanced_from]. destruct (classify (char_at text p)); congruence.
    + intros i Hi. replace (S p + i)%nat with (p + S i)%nat by lia. apply Hpl. lia.
Qed.

Section Pairs.

Variable text : list ascii.
Variable a : Z.
Variable gf : jit.
Hypothesis Hfinal : bfJITCompile_loop (length text) text (jit_init a) = Ok gf.

(** The loop comes to every bracket of the text. *)
Lemma reach (p : nat) :
  (p < length text)%nat ->
  classify (char_at text p) = TOpen \/ classify (char_at text p) = TClose ->
  forall m g, generates text a g -> (tok g <= p)%nat -> (p - tok g <= m)%nat ->
  exists gp, generates text a gp /\ tok gp = p.
Proof.
  intros Hp Hb. induction m as [|m IH]; intros g Hg Hle Hm.
  - exists g. split; [assumption|lia].
  - destruct (Nat.eq_dec (tok g) p) as [He|Hne]; [now exists g|].
    destruct (generates_next text a g gf Hfinal Hg ltac:(lia)) as (g' & Hstep & Hg').
    pose proof (jit_step_tok text g g' ltac:(lia) Hstep).
    pose proof (jit_step_upto text g g' p ltac:(lia) Hstep ltac:(lia) Hb).
    apply (IH g'); [assumption|lia|lia].
Qed.

(** When the text from the current character up to a closing bracket
    closes the [length pre] topmost open loops and is balanced
    otherwise, the loop comes to that bracket with [base] as its
    stack. *)
Lemma reach_close (j : nat) :
  (j < length text)%nat ->
  classify (char_at text j) = TClose ->
  forall m g pre base, generates text a g -> (tok g <= j)%nat -> (j - tok g <= m)%nat ->
  jmpLocIndex g = pre ++ base ->
  balanced_from (length pre) (take (j - tok g) (drop (tok g) text)) = true ->
  exists gj, generates text a gj /\ tok gj = j /\ jmpLocIndex gj = base.
Proof.
  intros Hj Hcj.
  assert (Hend : forall g pre base, generates text a g -> tok g = j ->
            jmpLocIndex g = pre ++ base ->
            balanced_from (length pre) (take (j - tok g) (drop (tok g) text)) = true ->
            exists gj, generates text a gj /\ tok gj = j /\ jmpLocIndex gj = base).
  { intros g pre base Hg He Hstk Hbal. exists g. split; [assumption|]. split; [assumption|].
    replace (j - tok g)%nat with O in Hbal by lia. simpl in Hbal.
    destruct pre; [exact Hstk|discriminate]. }
  induction m as [|m IH]; intros g pre base Hg Hle Hm Hstk Hbal.
  - apply (Hend g pre base); auto. lia.
  - destruct (Nat.eq_dec (tok g) j) as [He|Hne]; [now apply (Hend g pre base)|].
    assert (Hlt : (tok g < length text)%nat) by lia.
    destruct (generates_next text a g gf Hfinal Hg Hlt) as (g' & Hstep & Hg').
    pose proof (jit_step_tok text g g' Hlt Hstep) as Htok.
    pose proof (jit_step_upto text g g' j Hlt Hstep ltac:(lia) (or_intror Hcj)) as Hup.
    destruct (classify (char_at text (tok g))) eqn:Hc.
    7: { destruct (final_open text a gf Hfinal g Hg Hlt Hc) as (Hs & _).
         rewrite Hstep in Hs. injection Hs as ->.
         rewrite segment_cons in Hbal by lia. cbn [balanced_from] in Hbal.
         rewrite Hc in Hbal.
         apply (IH _ ((length (machineCode g) + 9)%nat :: pre) base Hg');
           cbn [tok jmpLocIndex]; [lia|lia|now rewrite Hstk|exact Hbal]. }
    7: { rewrite segment_cons in Hbal by lia. cbn [balanced_from] in Hbal.
         rewrite Hc in Hbal.
         destruct pre as [|L pre]; [discriminate|]. simpl in Hbal. simpl in Hstk.
         destruct (final_close text a gf Hfinal g L (pre ++ base) Hg Hlt Hc Hstk)
           as (Hs & _).
         rewrite Hstep in Hs. injection Hs as ->.
         apply (IH _ pre base Hg'); cbn [tok jmpLocIndex]; [lia|lia|reflexivity|exact Hbal]. }
    all: destruct (jit_step_plain text g g' Hlt ltac:(congruence) ltac:(congruence) Hstep)
           as [Hstk' Hch];
      apply (IH g' pre base); [assumption|lia|lia|congruence|];
      rewrite (segment_skip text (length pre) j (tok g' - tok g) (tok g)) in Hbal;
        [replace (tok g + (tok g' - tok g))%nat with (tok g') in Hbal by lia; exact Hbal
        |lia|lia|];
      intros i Hi; rewrite Hch by lia; rewrite Hc; split; discriminate.
Qed.

(** The two jumps of a pair of brackets in the final code. *)
Lemma pair_linked (i j : nat) :
  matched text i j ->
  exists gi gj,
    generates text a gi /\ tok gi = i /\ generates text a gj /\ tok gj = j /\
    (Z.of_nat (length (machineCode gf)) < 2 ^ 31 ->
     jumps_linked (machineCode gf) (length (machineCode gi)) (length (machineCode gj))).
Proof.
  intros (Ho & Hc & Hij & Hbal).
  assert (Hj : (j < length text)%nat).
  { apply char_at_lt. intros E. rewrite E in Hc. discriminate. }
  destruct (reach i ltac:(lia) (or_introl Ho) i _ (generates_init text a))
    as (gi & Hgi & Hti); [simpl; lia|simpl; lia|].
  assert (Hlti : (tok gi < length text)%nat) by lia.
  rewrite <- Hti in Ho.
  destruct (final_open text a gf Hfinal gi Hgi Hlti Ho) as (_ & Hgi' & Hbi).
  destruct (reach_close j Hj Hc (j - S i) _ []
              ((length (machineCode gi) + 9)%nat :: jmpLocIndex gi) Hgi')
    as (gj & Hgj & Htj & Hstk);
    cbn [tok jmpLocIndex length]; [lia|lia|reflexivity|now rewrite Hti|].
  assert (Hltj : (tok gj < length text)%nat) by lia.
  rewrite <- Htj in Hc.
  destruct (final_close text a gf Hfinal gj _ _ Hgj Hltj Hc Hstk)
    as (_ & Hgj' & Hlen & Hbj & Hfj).
  exists gi, gj. split; [assumption|]. split; [assumption|].
  split; [assumption|]. split; [assumption|]. intros Hsize.
  pose proof (generated_length text a gf Hfinal _ Hgj') as Hle. rewrite Hlen in Hle.
  destruct (generates_inv _ _ _ Hgj) as (Hok & _).
  unfold stack_ok in Hok. rewrite Hstk in Hok. destruct Hok as [HL _].
  change (2 ^ 31) with 2147483648 in Hsize.
  exists (_resolveAddrDiff (to_uint32 (to_size_t
            (Z.of_nat (length (machineCode gj) + 9)
             - Z.of_nat (length (machineCode gi) + 9))))),
    (_resolveAddrDiff (to_uint32 (to_size_t
            (Z.of_nat (length (machineCode gi) + 9)
             - Z.of_nat (length (machineCode gj) + 9))))).
  split; [apply length_resolveAddrDiff|].
  split; [apply length_resolveAddrDiff|]. split; [|split; [|split]].
  - apply has_bytes_join; [exact Hbi|].
    replace (length (machineCode gi) + 9 - 4)%nat
      with (length (machineCode gi) + length [0x80; 0x3b; 0x0; 0xf; 0x84])%nat in Hfj
      by (simpl; lia).
    exact Hfj.
  - rewrite app_assoc in Hbj. apply has_bytes_prefix in Hbj. apply Hbj.
  - rewrite rel32_round_trip; [lia|]. change (2 ^ 31) with 2147483648. lia.
  - rewrite rel32_round_trip; [lia|]. change (2 ^ 31) with 2147483648. lia.
Qed.

End Pairs.

(** C5, for code shorter than 2^31 bytes.  Take a balanced text that
    does not end in one of [+ - < >] or in a closing bracket, so that
    the look-ahead of the generator stays inside the text.  The
    generator returns a code, and for every pair of matching brackets
    its loop comes to both brackets and, when the code is shorter than
    2^31 bytes, the final code has at the offset of the opening bracket
    the block 80 3b 00 0f 84 with a four-byte displacement and at the
    offset of the closing bracket the block 80 3b 00 0f 85 with a
    four-byte displacement, such that the forward jump leads behind the
    block of the closing bracket and the backward jump behind the block
    of the opening bracket. *)
Theorem backpatch_links_pair (text : list ascii) (a : Z) (i j : nat) :
  balanced text = true ->
  ends_looking_ahead text = false ->
  matched text i j ->
  exists code gi gj,
    bfJITCompile_code text a = Ok code /\
    generates text a gi /\ tok gi = i /\
    generates text a gj /\ tok gj = j /\
    (Z.of_nat (length code) < 2 ^ 31 ->
     jumps_linked code (length (machineCode gi)) (length (machineCode gj))).
Proof.
  intros Hb He Hm.
  destruct (balanced_compiles text a Hb He) as [gf Hfinal].
  destruct (pair_linked text a gf Hfinal i j Hm) as (gi & gj & Hgi & Hti & Hgj & Htj & Hl).
  exists (machineCode gf ++ epilogue), gi, gj.
  split; [unfold bfJITCompile_code; now rewrite Hfinal|].
  split; [assumption|]. split; [assumption|]. split; [assumption|]. split; [assumption|].
  intros Hsize. rewrite length_app in Hsize.
  destruct Hl as (df & db & Hdf & Hdb & H1 & H2 & H3 & H4); [lia|].
  exists df, db. split; [assumption|]. split; [assumption|].
  split; [now apply has_bytes_app_l|]. split; [now apply has_bytes_app_l|].
  split; assumption.
Qed.

Lemma backpatch_links_pair_witness :
  exists code gi gj,
    bfJITCompile_code (src "+[[-]>].") 0 = Ok code /\
    generates (src "+[[-]>].") 0 gi /\ tok gi = 1%nat /\
    generates (src "+[[-]>].") 0 gj /\ tok gj = 6%nat /\
    (Z.of_nat (length code) < 2 ^ 31 ->
     jumps_linked code (length (machineCode gi)) (length (machineCode gj))).
Proof.
  apply (backpatch_links_pair (src "+[[-]>].") 0 1 6).
  - reflexivity.
  - reflexivity.
  - unfold matched. split; [reflexivity|]. split; [reflexivity|]. split; [lia|reflexivity].
Defined.

(** ** A loop too long for a 32-bit displacement *)

Lemma has_bytes_inj (code : list Z) (off : nat) (b1 b2 : list Z) :
  has_bytes code off b1 -> has_bytes code off b2 -> length b1 = length b2 -> b1 = b2.
Proof.
  intros H1 H2 Hl. apply list_eq. intros i.
  destruct (b1 !! i) as [x|] eqn:E1.
  - pose proof (lookup_lt_Some _ _ _ E1) as Hi. rewrite Hl in Hi.
    destruct (lookup_lt_is_Some_2 b2 i Hi) as [y E2].
    apply H1 in E1. pose proof (H2 _ _ E2). congruence.
  - symmetry. apply lookup_ge_None. apply lookup_ge_None in E1. lia.
Qed.

Lemma has_bytes_middle (l bytes r : list Z) :
  has_bytes (l ++ bytes ++ r) (length l) bytes.
Proof. rewrite app_assoc. apply has_bytes_app_l, has_bytes_app. Qed.

Lemma gen_commas (text : list ascii) (a : Z) (n : nat) :
  forall g, generates text a g ->
  (forall i, (i < n)%nat -> char_at text (tok g + i) = ","%char) ->
  exists tail, length tail = (20 * n)%nat /\
    generates text a {| tok := tok g + n; machineCode := machineCode g ++ tail;
                        jmpLocIndex := jmpLocIndex g |}.
Proof.
  induction n as [|n IH]; intros g Hg Hc.
  - exists []. split; [reflexivity|]. rewrite Nat.add_0_r, app_nil_r. now destruct g.
  - assert (H0 : char_at text (tok g) = ","%char).
    { rewrite <- (Nat.add_0_r (tok g)). apply Hc. lia. }
    assert (Hlt : (tok g < length text)%nat) by (apply char_at_lt; now rewrite H0).
    assert (Hstep : bfJITCompile_step text g =
              Ok {| tok := S (tok g); machineCode := machineCode g ++ read_code;
                    jmpLocIndex := jmpLocIndex g |}).
    { unfold bfJITCompile_step. now rewrite H0. }
    destruct (IH _ (generates_step _ _ _ _ Hg Hlt Hstep)) as (tail & Hl & Hg').
    { cbn [tok]. intros i Hi. replace (S (tok g) + i)%nat with (tok g + S i)%nat by lia.
      apply Hc. lia. }
    exists (read_code ++ tail). split.
    { rewrite length_app, Hl. change (length read_code) with 20%nat. lia. }
    cbn [tok machineCode jmpLocIndex] in Hg'.
    replace (tok g + S n)%nat with (S (tok g) + n)%nat by lia. now rewrite app_assoc.
Qed.

Lemma balanced_from_app_plain (d : nat) (l r : list ascii) :
  Forall (fun c => classify c <> TOpen /\ classify c <> TClose) l ->
  balanced_from d (l ++ r) = balanced_from d r.
Proof.
  induction 1 as [|x l [Ho Hc] _ IH]; [reflexivity|].
  simpl. rewrite IH. destruct (classify x); congruence.
Qed.

Lemma comma_loop_length (n : nat) : length (comma_loop n) = S (S (S n)).
Proof. unfold comma_loop. simpl. rewrite length_app, length_replicate. simpl. lia. Qed.

Lemma comma_loop_body (n i : nat) :
  (i < n)%nat -> char_at (comma_loop n) (S i) = ","%char.
Proof.
  intros Hi. unfold comma_loop, char_at. simpl.
  rewrite lookup_app_l by (rewrite length_replicate; lia).
  now rewrite lookup_replicate_2.
Qed.

Lemma comma_loop_close (n : nat) : char_at (comma_loop n) (S n) = "]"%char.
Proof.
  unfold comma_loop, char_at. simpl.
  rewrite lookup_app_r by (rewrite length_replicate; lia).
  rewrite length_replicate, Nat.sub_diag. reflexivity.
Qed.

Lemma comma_loop_balanced (n : nat) : balanced (comma_loop n) = true.
Proof.
  unfold balanced, comma_loop. cbn [balanced_from].
  change (classify "["%char) with TOpen. cbv iota.
  rewrite balanced_from_app_plain; [reflexivity|].
  apply Forall_replicate. split; discriminate.
Qed.

Lemma comma_loop_matched (n : nat) : matched (comma_loop n) 0 (S n).
Proof.
  unfold matched. split; [reflexivity|]. split; [now rewrite comma_loop_close|].
  split; [lia|]. unfold comma_loop.
  change (drop 1 ("["%char :: replicate n ","%char ++ src "]."))
    with (replicate n ","%char ++ src "].").
  replace (S n - 1)%nat with n by lia.
  rewrite take_app_length' by now rewrite length_replicate.
  unfold balanced. rewrite balanced_from_plain; [reflexivity|].
  apply Forall_replicate. split; discriminate.
Qed.

(** The run of the generator on a loop around [n] characters [,]. *)
Lemma comma_loop_code (a : Z) (n : nat) :
  exists gj gf,
    generates (comma_loop n) a gj /\ tok gj = S n /\
    length (machineCode gj) = (19 + 20 * n)%nat /\
    bfJITCompile_loop (length (comma_loop n)) (comma_loop n) (jit_init a) = Ok gf /\
    has_bytes (machineCode gf) 10
      ([0x80; 0x3b; 0x0; 0xf; 0x84]
         ++ _resolveAddrDiff (to_uint32 (to_size_t (Z.of_nat (19 + 20 * n + 9) - 19)))).
Proof.
  pose proof (generates_init (comma_loop n) a) as H0.
  assert (Hs0 : bfJITCompile_step (comma_loop n) (jit_init a) =
            Ok {| tok := 1; machineCode := prologue a ++ open_code; jmpLocIndex := [19%nat] |}).
  { unfold bfJITCompile_step. cbn [jit_init tok machineCode jmpLocIndex].
    change (classify (char_at (comma_loop n) 0)) with TOpen. cbv iota.
    rewrite length_app, length_prologue. reflexivity. }
  pose proof (generates_step _ _ _ _ H0
                ltac:(rewrite comma_loop_length; simpl; lia) Hs0) as H1.
  destruct (gen_commas _ _ n _ H1) as (tail & Hl & Hj).
  { intros i Hi. cbn [tok]. now apply comma_loop_body. }
  cbn [tok machineCode jmpLocIndex] in Hj.
  set (gj := {| tok := 1 + n; machineCode := (prologue a ++ open_code) ++ tail;
                jmpLocIndex := [19%nat] |}) in *.
  assert (Hlen : length (machineCode gj) = (19 + 20 * n)%nat).
  { unfold gj. cbn [machineCode]. rewrite !length_app, length_prologue, Hl. reflexivity. }
  assert (Hdot : drop (S (S n)) (comma_loop n) = src ".").
  { unfold comma_loop. change (S (S n)) with (1 + S n)%nat. rewrite <- drop_drop.
    change (drop 1 ("["%char :: replicate n ","%char ++ src "]."))
      with (replicate n ","%char ++ src "].").
    replace (S n) with (length (replicate n ","%char) + 1)%nat
      by (rewrite length_replicate; lia).
    rewrite <- drop_drop, drop_app_length. reflexivity. }
  assert (Hsj : bfJITCompile_step (comma_loop n) gj =
            Ok {| tok := S (tok gj); machineCode := closed_code (comma_loop n) gj 19;
                  jmpLocIndex := [] |}).
  { rewrite (jit_step_close (comma_loop n) gj 19 []); [|
      unfold gj; cbn [tok]; change (1 + n)%nat with (S n); now rewrite comma_loop_close
      |reflexivity|lia].
    unfold gj at 1 2. cbn [tok]. change (S (1 + n)) with (S (S n)).
    rewrite Hdot, comma_loop_length. simpl span_len.
    destruct (Nat.ltb_spec (S (S n) + 0) (S (S (S n)))); [reflexivity|lia]. }
  pose proof (generates_step _ _ _ _ Hj
                ltac:(rewrite comma_loop_length; unfold gj; simpl; lia) Hsj) as Hf.
  assert (Hsd : bfJITCompile_step (comma_loop n)
                  {| tok := S (tok gj); machineCode := closed_code (comma_loop n) gj 19;
                     jmpLocIndex := [] |} =
            Ok {| tok := S (S (tok gj));
                  machineCode := closed_code (comma_loop n) gj 19 ++ write_code;
                  jmpLocIndex := [] |}).
  { unfold bfJITCompile_step. cbn [tok]. unfold gj at 1. cbn [tok].
    rewrite char_at_drop. change (S (1 + n)) with (S (S n)). rewrite Hdot. reflexivity. }
  pose proof (generates_step _ _ _ _ Hf
                ltac:(rewrite comma_loop_length; unfold gj; simpl; lia) Hsd) as Hf2.
  exists gj, {| tok := S (S (tok gj));
                machineCode := closed_code (comma_loop n) gj 19 ++ write_code;
                jmpLocIndex := [] |}.
  split; [assumption|]. split; [reflexivity|]. split; [assumption|]. split.
  { apply generates_complete; [assumption|]. rewrite comma_loop_length. reflexivity. }
  cbn [machineCode]. apply has_bytes_app_l. unfold closed_code. rewrite Hlen.
  assert (Ht : take (19 - 4) (machineCode gj) = prologue a ++ [0x80; 0x3b; 0x0; 0xf; 0x84]).
  { unfold gj. cbn [machineCode]. rewrite <- app_assoc.
    rewrite take_app_ge by (rewrite length_prologue; lia).
    rewrite length_prologue. reflexivity. }
  rewrite Ht, <- app_assoc.
  replace 10%nat with (length (prologue a)) by apply length_prologue.
  rewrite (app_assoc [0x80; 0x3b; 0x0; 0xf; 0x84]).
  apply has_bytes_middle.
Qed.

Lemma comma_loop_wraps (a : Z) (n : nat) :
  Z.of_nat n = 107374182 ->
  balanced (comma_loop n) = true /\
  ends_looking_ahead (comma_loop n) = false /\
  matched (comma_loop n) 0 (S n) /\
  exists code gi gj df,
    bfJITCompile_code (comma_loop n) a = Ok code /\
    generates (comma_loop n) a gi /\ tok gi = O /\
    generates (comma_loop n) a gj /\ tok gj = S n /\
    length df = 4%nat /\
    has_bytes code (length (machineCode gi)) ([0x80; 0x3b; 0x0; 0xf; 0x84] ++ df) /\
    Z.of_nat (length (machineCode gi) + 9) + sext 32 (le_uint df) = - 2147483628 /\
    Z.of_nat (length (machineCode gj) + 9) = 2147483668 /\
    ~ jumps_linked code (length (machineCode gi)) (length (machineCode gj)).
Proof.
  intros Hn. split; [apply comma_loop_balanced|].
  split; [unfold ends_looking_ahead, comma_loop;
          change (src "].") with ["]"%char; "."%char];
          now rewrite app_comm_cons, last_app_cons|].
  split; [apply comma_loop_matched|].
  destruct (comma_loop_code a n) as (gj & gf & Hgj & Htj & Hlen & Hfinal & Hb).
  replace (Z.of_nat (19 + 20 * n + 9) - 19) with 2147483649 in Hb by lia.
  set (df := _resolveAddrDiff (to_uint32 (to_size_t 2147483649))) in *.
  assert (Hd : sext 32 (le_uint df) = - 2147483647) by (vm_compute; reflexivity).
  assert (Hi : length (machineCode (jit_init a)) = 10%nat) by apply length_prologue.
  exists (machineCode gf ++ epilogue), (jit_init a), gj, df.
  split; [unfold bfJITCompile_code; now rewrite Hfinal|].
  split; [apply generates_init|]. split; [reflexivity|]. split; [assumption|].
  split; [assumption|]. split; [reflexivity|]. rewrite Hi, Hlen.
  split; [now apply has_bytes_app_l|]. split; [rewrite Hd; reflexivity|].
  split; [lia|].
  intros (df' & db' & Hl1 & _ & Hb1 & _ & H3 & _).
  assert (E : [0x80; 0x3b; 0x0; 0xf; 0x84] ++ df' = [0x80; 0x3b; 0x0; 0xf; 0x84] ++ df).
  { apply (has_bytes_inj (machineCode gf ++ epilogue) 10); [assumption| |].
    - now apply has_bytes_app_l.
    - rewrite !length_app, Hl1. reflexivity. }
  apply app_inv_head in E. subst df'. rewrite Hd in H3. lia.
Qed.

(** C5 for a loop whose code is longer than 2^31 bytes: the text
    [huge_loop] is balanced, ends in [.] and its two brackets match,
    but the displacement stored for the forward jump is read back as
    -2147483647, so that the jump leads to offset -2147483628 and not
    behind the block of the closing bracket at offset 2147483668. *)
Lemma huge_loop_jump_wraps :
  balanced huge_loop = true /\
  ends_looking_ahead huge_loop = false /\
  matched huge_loop 0 (S (Z.to_nat 107374182)) /\
  exists code gi gj df,
    bfJITCompile_code huge_loop 0 = Ok code /\
    generates huge_loop 0 gi /\ tok gi = O /\
    generates huge_loop 0 gj /\ tok gj = S (Z.to_nat 107374182) /\
    length df = 4%nat /\
    has_bytes code (length (machineCode gi)) ([0x80; 0x3b; 0x0; 0xf; 0x84] ++ df) /\
    Z.of_nat (length (machineCode gi) + 9) + sext 32 (le_uint df) = - 2147483628 /\
    Z.of_nat (length (machineCode gj) + 9) = 2147483668 /\
    ~ jumps_linked code (length (machineCode gi)) (length (machineCode gj)).
Proof.
  apply (comma_loop_wraps 0 (Z.to_nat 107374182)).
  apply Z2Nat.id. discriminate.
Qed.

(** ** The short jump over trailing closing brackets *)

(** Up to eleven trailing closing brackets, the byte of the short jump
    is read back as 11 n - 2. *)
Lemma elision_displacement (n : nat) :
  (1 <= n <= 11)%nat ->
  sext 8 (to_uint8 (to_size_t (Z.of_nat n * 11 - 2))) = Z.of_nat n * 11 - 2.
Proof.
  intros Hn. do 12 (destruct n as [|n]; [try lia; reflexivity|]). lia.
Qed.

(** After a closing bracket that is followed by [n] more, no jump is
    emitted when [n] is 0, and for [n] up to 11 the jump leads behind
    the code of these [n] brackets. *)
Lemma elision_lands (text : list ascii) (a : Z) (gf g g' : jit) :
  bfJITCompile_loop (length text) text (jit_init a) = Ok gf ->
  generates text a g ->
  (tok g < length text)%nat ->
  classify (char_at text (tok g)) = TClose ->
  bfJITCompile_step text g = Ok g' ->
  let n := span_len "]" (drop (S (tok g)) text) in
  (n = O -> elision text (tok g) = []) /\
  ((1 <= n <= 11)%nat ->
   exists d g'', elision text (tok g) = [0xeb; d] /\
     has_bytes (machineCode gf) (length (machineCode g) + 9) [0xeb; d] /\
     closes text n g' g'' /\
     Z.of_nat (length (machineCode g'')) = Z.of_nat (length (machineCode g')) + sext 8 d).
Proof.
  intros Hfinal Hg Hlt Hc Hstep n. split.
  - intros Hn. unfold elision. fold n. now rewrite Hn.
  - intros Hn.
    destruct (jmpLocIndex g) as [|L rest] eqn:Hstk.
    { rewrite jit_step_close_empty in Hstep by assumption. discriminate. }
    destruct (final_close text a gf Hfinal g L rest Hg Hlt Hc Hstk)
      as (Hs & Hg' & _ & Hb & _).
    rewrite Hstep in Hs. injection Hs as Hs. rewrite <- Hs in Hg'.
    assert (Ht : tok g' = S (tok g)) by now rewrite Hs.
    destruct (closers_run text a gf Hfinal n g' Hg') as (g'' & Hcl & _ & Hlen).
    { now rewrite Ht. }
    assert (He : elision text (tok g) = [0xeb; to_uint8 (to_size_t (Z.of_nat n * 11 - 2))]).
    { unfold elision. fold n. destruct (Nat.ltb_spec 0 n); [reflexivity|lia]. }
    exists (to_uint8 (to_size_t (Z.of_nat n * 11 - 2))), g''.
    split; [exact He|]. split; [|split; [exact Hcl|]].
    + rewrite He in Hb. rewrite app_assoc in Hb. apply has_bytes_prefix in Hb.
      destruct Hb as [_ Hb]. rewrite length_app, length_resolveAddrDiff in Hb. exact Hb.
    + rewrite elision_displacement by assumption.
      destruct (Nat.eqb_spec n 0); lia.
Qed.

Lemma has_bytes_take (code : list Z) (off : nat) (bytes : list Z) :
  take (length bytes) (drop off code) = bytes -> has_bytes code off bytes.
Proof.
  intros H i b Hi. rewrite <- H in Hi.
  apply lookup_take_Some in Hi as [Hi _]. now rewrite lookup_drop in Hi.
Qed.

Ltac generate H :=
  match type of H with
  | generates ?t ?a ?g =>
      let r := eval vm_compute in (bfJITCompile_step t g) in
      match r with
      | Ok ?g' =>
          let H' := fresh in
          assert (H' : generates t a g')
            by (apply (generates_step t a g g' H); [vm_compute; lia|vm_compute; reflexivity]);
          clear H; rename H' into H
      end
  end.

(** C6 at twelve trailing closing brackets.  For [nest_13] the
    generator is, behind the code of the first closing bracket, in a
    state [g1] from which the twelve other closing brackets take it to
    [g2], 130 bytes further on; the last two bytes of the code of [g1]
    are the short jump eb 82, which the processor reads as a jump back
    by 126 bytes.  The interpreter writes the byte 1, the generated
    code leaves the instructions that were generated. *)
Theorem elision_jump_wraps :
  exists code g1 g2,
    bfJITCompile_code nest_13 (tape_addr system_4k) = Ok code /\
    generates nest_13 (tape_addr system_4k) g1 /\ tok g1 = 16%nat /\
    span_len "]" (drop 16 nest_13) = 12%nat /\
    closes nest_13 12 g1 g2 /\
    has_bytes code (length (machineCode g1) - 2) [0xeb; 130] /\
    decode [0xeb; 130] = Some (JmpShort (-126), 2) /\
    Z.of_nat (length (machineCode g2)) = Z.of_nat (length (machineCode g1)) + 130 /\
    and_then (bfRunDefault 100 nest_13 (stdio_init []))
      (fun kf => Ok (stdout (host kf))) = Ok [1] /\
    bfRunJIT 100 system_4k nest_13 (fds_init []) = Undefined.
Proof.
  assert (Hcode : exists code, bfJITCompile_code nest_13 (tape_addr system_4k) = Ok code)
    by (eexists; vm_compute; reflexivity).
  destruct Hcode as [code Hcode].
  destruct (bfJITCompile_code_inv _ _ _ Hcode) as (gf & Hfinal & Ecode).
  pose proof (generates_init nest_13 (tape_addr system_4k)) as Hg.
  do 16 generate Hg.
  match type of Hg with generates _ _ ?g => set (g1 := g) in * end.
  destruct (closers_run _ _ gf Hfinal 12 g1 Hg) as (g2 & Hcl & _ & Hlen);
    [vm_compute; reflexivity|].
  exists code, g1, g2.
  split; [assumption|]. split; [assumption|]. split; [reflexivity|].
  split; [vm_compute; reflexivity|]. split; [assumption|]. split.
  { vm_compute in Hcode. injection Hcode as <-.
    apply has_bytes_take. vm_compute. reflexivity. }
  split; [reflexivity|]. split; [change (if (12 =? 0)%nat then 0 else 2)%nat with 2%nat in Hlen; lia|].
  split; vm_compute; reflexivity.
Qed.

(** * Further properties of the code generator *)

(** ** The immediates of the generated code *)

Lemma resolveAddrDiff_digits (x : Z) :
  length (_resolveAddrDiff x) = 4%nat /\
  Forall is_byte (_resolveAddrDiff x) /\
  le_uint (_resolveAddrDiff x) = x mod 2 ^ 32.
Proof.
  split; [reflexivity|]. unfold _resolveAddrDiff.
  rewrite byte_of_0, !byte_of by (try lia; reflexivity).
  split.
  - repeat constructor; apply Z.mod_pos_bound; lia.
  - cbn [le_uint].
    change (2 ^ 8) with 256. change (2 ^ 16) with (256 * 256).
    change (2 ^ 24) with (256 * 256 * 256).
    rewrite <- !Z.div_div by lia.
    change (2 ^ 32) with 4294967296.
    Z.div_mod_to_equations. lia.
Qed.

(** X1.  The four bytes of [_resolveAddrDiff] are the little-endian digits
    of its argument taken modulo 2^32, for negative arguments too. *)
Theorem resolveAddrDiff_little_endian (x : Z) :
  length (_resolveAddrDiff x) = 4%nat /\
  Forall is_byte (_resolveAddrDiff x) /\
  le_uint (_resolveAddrDiff x) = x mod 2 ^ 32.
Proof. apply resolveAddrDiff_digits. Qed.

Lemma resolvePtrAddr_digits (x : Z) :
  length (_resolvePtrAddr x) = 8%nat /\
  Forall is_byte (_resolvePtrAddr x) /\
  le_uint (_resolvePtrAddr x) = x mod 2 ^ 64.
Proof.
  split; [reflexivity|]. unfold _resolvePtrAddr.
  rewrite byte_of_0, !byte_of by (try lia; reflexivity).
  split.
  - repeat constructor; apply Z.mod_pos_bound; lia.
  - cbn [le_uint].
    change (2 ^ 8) with 256. change (2 ^ 16) with (256 * 256).
    change (2 ^ 24) with (256 * 256 * 256).
    change (2 ^ 32) with (256 * 256 * 256 * 256).
    change (2 ^ 40) with (256 * 256 * 256 * 256 * 256).
    change (2 ^ 48) with (256 * 256 * 256 * 256 * 256 * 256).
    change (2 ^ 56) with (256 * 256 * 256 * 256 * 256 * 256 * 256).
    rewrite <- !Z.div_div by lia.
    change (2 ^ 64) with 18446744073709551616.
    Z.div_mod_to_equations. lia.
Qed.

(** X2.  The eight bytes of [_resolvePtrAddr] are the little-endian digits
    of its argument taken modulo 2^64. *)
Theorem resolvePtrAddr_little_endian (x : Z) :
  length (_resolvePtrAddr x) = 8%nat /\
  Forall is_byte (_resolvePtrAddr x) /\
  le_uint (_resolvePtrAddr x) = x mod 2 ^ 64.
Proof. apply resolvePtrAddr_digits. Qed.

(** ** The size of the generated code *)

Lemma length_closed_code (text : list ascii) (g : jit) (L : nat) :
  (4 <= L <= length (machineCode g))%nat ->
  length (closed_code text g L)
  = (length (machineCode g) + 9 + length (elision text (tok g)))%nat.
Proof.
  intros HL. unfold closed_code.
  rewrite !length_app, length_take, length_drop, !length_resolveAddrDiff. simpl. lia.
Qed.

Lemma length_elision (text : list ascii) (p : nat) : (length (elision text p) <= 2)%nat.
Proof. unfold elision. destruct (_ <? _)%nat; simpl; lia. Qed.

(** An iteration appends at most 20 bytes. *)
Lemma jit_step_size (text : list ascii) (g g' : jit) :
  stack_ok g ->
  bfJITCompile_step text g = Ok g' ->
  (length (machineCode g) <= length (machineCode g') <= length (machineCode g) + 20)%nat.
Proof.
  intros Hok.
  destruct (classify (char_at text (tok g))) eqn:Hc.
  8: { destruct (jmpLocIndex g) as [|L rest] eqn:Estk.
       - now rewrite jit_step_close_empty.
       - unfold stack_ok in Hok. rewrite Estk in Hok. destruct Hok as [HL _].
         rewrite (jit_step_close text g L rest Hc Estk HL).
         destruct (_ <? _)%nat; [|discriminate]. intros [= <-].
         cbn [machineCode]. rewrite length_closed_code by lia.
         pose proof (length_elision text (tok g)). lia. }
  all: unfold bfJITCompile_step; rewrite Hc;
    try (destruct (scan _ _ _); [|discriminate]);
    intros [= <-]; cbn [machineCode];
    rewrite ?length_app; simpl; lia.
Qed.

Lemma generates_size (text : list ascii) (a : Z) (g : jit) :
  generates text a g ->
  (10 <= length (machineCode g) <= 10 + 20 * tok g)%nat.
Proof.
  induction 1 as [|g g' Hg IH Hlt Hstep].
  - cbn [jit_init machineCode tok]. rewrite length_prologue. lia.
  - destruct (generates_inv _ _ _ Hg) as (Hok & _).
    pose proof (jit_step_size text g g' Hok Hstep).
    pose proof (jit_step_tok text g g' Hlt Hstep). lia.
Qed.

(** X3.  Every code that the generator returns has at least the 13 bytes of
    prologue and epilogue and at most 20 bytes more for each character
    of the text. *)
Theorem code_size_bounds (text : list ascii) (a : Z) (code : list Z) :
  bfJITCompile_code text a = Ok code ->
  (13 <= length code <= 13 + 20 * length text)%nat.
Proof.
  intros Hcode. destruct (bfJITCompile_code_inv _ _ _ Hcode) as (gf & Hfinal & ->).
  assert (Hg : generates text a gf)
    by (eapply jit_loop_generates; [apply generates_init|exact Hfinal]).
  pose proof (generates_size text a gf Hg) as Hs.
  rewrite (jit_loop_final _ _ _ _ Hfinal) in Hs.
  rewrite length_app. simpl. lia.
Qed.

Lemma code_size_bounds_witness :
  (13 <= length (prologue 0 ++ read_code ++ write_code ++ epilogue)
   <= 13 + 20 * length (src ",."))%nat.
Proof.
  apply (code_size_bounds (src ",.") 0). reflexivity.
Defined.

(** ** The frame of the generated code *)

Lemma decode_prologue (a : Z) (rest : list Z) :
  decode (prologue a ++ rest) = Some (MovRbx (a mod 2 ^ 64), 10).
Proof.
  destruct (resolvePtrAddr_digits a) as (_ & _ & <-). reflexivity.
Qed.

Lemma has_bytes_take_eq (code : list Z) (bytes : list Z) :
  has_bytes code 0 bytes -> take (length bytes) code = bytes.
Proof.
  intros H. destruct (has_bytes_drop code 0 bytes H) as [rest E].
  change (drop 0 code) with code in E. rewrite E. now rewrite take_app_length.
Qed.

(** X4.  The code that the generator returns starts with the ten bytes of
    the prologue, which no backpatch has touched and which the
    processor reads as the load of the cursor's address into rbx, and
    ends with the three bytes of the epilogue. *)
Theorem code_frame (text : list ascii) (a : Z) (code : list Z) :
  bfJITCompile_code text a = Ok code ->
  exists body,
    code = prologue a ++ body ++ epilogue /\
    decode code = Some (MovRbx (a mod 2 ^ 64), 10) /\
    decode epilogue = Some (PopRax, 1) /\ decode (drop 1 epilogue) = Some (JmpRax, 2).
Proof.
  intros Hcode. destruct (bfJITCompile_code_inv _ _ _ Hcode) as (gf & Hfinal & ->).
  pose proof (prologue_final text a gf Hfinal) as Hp.
  apply has_bytes_take_eq in Hp. rewrite length_prologue in Hp.
  exists (drop 10 (machineCode gf)).
  assert (E : machineCode gf ++ epilogue = prologue a ++ drop 10 (machineCode gf) ++ epilogue).
  { rewrite app_assoc, <- Hp. now rewrite take_drop. }
  split; [exact E|]. split; [|split; reflexivity].
  rewrite E. apply decode_prologue.
Qed.

Lemma code_frame_witness :
  exists body,
    prologue 4096 ++ ([0x80; 0x3; 2] ++ write_code) ++ epilogue
      = prologue 4096 ++ body ++ epilogue /\
    decode (prologue 4096 ++ ([0x80; 0x3; 2] ++ write_code) ++ epilogue)
      = Some (MovRbx (4096 mod 2 ^ 64), 10) /\
    decode epilogue = Some (PopRax, 1) /\ decode (drop 1 epilogue) = Some (JmpRax, 2).
Proof.
  apply (code_frame (src "++.") 4096). reflexivity.
Defined.

(** ** The texts that the generator accepts *)

Lemma covered_skip (c : ascii) (d : nat) (l : list ascii) :
  classify c <> TOpen -> classify c <> TClose ->
  closers_covered d (drop (span_len c l) l) = closers_covered d l.
Proof.
  intros Ho Hc. induction l as [|x l IH]; simpl; [reflexivity|].
  destruct (Ascii.eqb_spec x c) as [->|Hne]; [|reflexivity].
  simpl. rewrite IH. destruct (classify c); congruence.
Qed.

Lemma covered_step (text : list ascii) (g g' : jit) :
  (tok g < length text)%nat ->
  bfJITCompile_step text g = Ok g' ->
  closers_covered (length (jmpLocIndex g')) (drop (tok g') text)
  = closers_covered (length (jmpLocIndex g)) (drop (tok g) text).
Proof.
  intros Hlt Hstep.
  pose proof (classify_cases (char_at text (tok g))) as Hc.
  pose proof (span_len_drop_S text (tok g) _ Hlt eq_refl) as Hsp.
  rewrite (drop_char_at text (tok g) Hlt).
  unfold bfJITCompile_step in Hstep.
  cbn [closers_covered].
  destruct (classify (char_at text (tok g))) eqn:Ecl.
  1-4: (destruct (scan _ _ _) as [m|] eqn:Es; [|discriminate]);
       apply scan_inv in Es as [-> _];
       injection Hstep as <-; cbn [tok jmpLocIndex]; rewrite Hc in Hsp; rewrite Hsp;
       match goal with
       | |- context [S (?t + S ?x - 1)] =>
           replace (S (t + S x - 1)) with (S t + x)%nat by lia
       end;
       rewrite <- drop_drop; apply covered_skip; discriminate.
  1-3, 5-7: injection Hstep as <-; reflexivity.
  destruct (jmpLocIndex g) as [|L rest]; [discriminate|].
  destruct (_ && _); [|discriminate].
  destruct (scan _ _ _); [|discriminate].
  injection Hstep as <-. reflexivity.
Qed.

(** An iteration fails in two ways only: at a closing bracket with
    nothing on the relocation stack, and in a look-ahead that runs up
    to the end of the text. *)
Lemma jit_step_cases (text : list ascii) (g : jit) :
  stack_ok g ->
  (tok g < length text)%nat ->
  (exists g', bfJITCompile_step text g = Ok g') \/
  (bfJITCompile_step text g = Undefined /\
   classify (char_at text (tok g)) = TClose /\ jmpLocIndex g = []) \/
  (bfJITCompile_step text g = Undefined /\ ends_looking_ahead text = true).
Proof.
  intros Hok Hlt. pose proof (classify_cases (char_at text (tok g))) as Hcc.
  destruct (classify (char_at text (tok g))) eqn:Hc.
  8: { destruct (jmpLocIndex g) as [|L rest] eqn:Hstk.
       - right. left. split; [now apply jit_step_close_empty|]. now split.
       - unfold stack_ok in Hok. rewrite Hstk in Hok. destruct Hok as [HL _].
         rewrite (jit_step_close text g L rest Hc Hstk HL).
         destruct (Nat.ltb_spec (S (tok g) + span_len "]" (drop (S (tok g)) text))
                     (length text)) as [|Hge]; [left; eexists; reflexivity|].
         right. right. split; [reflexivity|].
         unfold ends_looking_ahead. rewrite (span_to_end text (tok g) "]" Hlt); [reflexivity|].
         rewrite (span_len_drop_S text (tok g) "]" Hlt Hcc). lia. }
  1-4: unfold bfJITCompile_step; rewrite Hc;
       match goal with
       | |- context [scan ?c ?p ?t] =>
           destruct (scan c p t) eqn:Es;
             [left; eexists; reflexivity
             |right; right; split;
                [reflexivity|now apply (scan_none_end text (tok g) c Hlt)]]
       end.
  all: left; unfold bfJITCompile_step; rewrite Hc; eexists; reflexivity.
Qed.

(** The iteration that comes to the end of the text has not looked
    ahead. *)
Lemma jit_step_last (text : list ascii) (g g' : jit) :
  (tok g < length text)%nat ->
  bfJITCompile_step text g = Ok g' ->
  tok g' = length text ->
  ends_looking_ahead text = false.
Proof.
  intros Hlt Hstep Hend.
  assert (Hl : forall c, char_at text (tok g) = c -> S (tok g) = length text ->
                 last text = Some c).
  { intros c Hc Hs. rewrite last_lookup, <- Hs. simpl.
    destruct (lookup_lt_is_Some_2 text (tok g) Hlt) as [x Hx].
    unfold char_at in Hc. rewrite Hx in Hc. simpl in Hc. now rewrite Hx, Hc. }
  pose proof (classify_cases (char_at text (tok g))) as Hcc.
  unfold bfJITCompile_step in Hstep.
  destruct (classify (char_at text (tok g))) eqn:Hc.
  1-4: (destruct (scan _ _ _) as [m|] eqn:Es; [|discriminate]);
       apply scan_inv in Es as [-> Hin];
       pose proof (span_len_pos text (tok g) _ Hlt Hcc);
       injection Hstep as <-; cbn [tok] in Hend; lia.
  4: { destruct (jmpLocIndex g); [discriminate|]. destruct (_ && _); [|discriminate].
       destruct (scan _ _ _) as [m|] eqn:Es; [|discriminate].
       apply scan_inv in Es as [-> Hin].
       injection Hstep as <-. cbn [tok] in Hend. lia. }
  all: injection Hstep as <-; cbn [tok] in Hend;
    unfold ends_looking_ahead, looks_ahead; rewrite (Hl _ eq_refl Hend), Hc; reflexivity.
Qed.

Lemma jit_loop_covered (text : list ascii) (a : Z) (fuel : nat) :
  forall g, generates text a g -> (length text - tok g <= fuel)%nat ->
  match bfJITCompile_loop fuel text g with
  | Ok _ => closers_covered (length (jmpLocIndex g)) (drop (tok g) text) = true /\
            ((tok g < length text)%nat -> ends_looking_ahead text = false)
  | Undefined => closers_covered (length (jmpLocIndex g)) (drop (tok g) text) = false \/
                 ends_looking_ahead text = true
  | _ => False
  end.
Proof.
  induction fuel as [|fuel IH]; intros g Hg Hm;
    destruct (generates_inv _ _ _ Hg) as (Hok & Hle & _).
  - rewrite jit_loop_done by lia. replace (tok g) with (length text) by lia.
    rewrite drop_all. split; [reflexivity|lia].
  - destruct (Nat.eq_dec (tok g) (length text)) as [He|Hne].
    { rewrite jit_loop_done by assumption. rewrite He, drop_all.
      split; [reflexivity|lia]. }
    rewrite jit_loop_unfold by assumption.
    destruct (jit_step_cases text g Hok ltac:(lia))
      as [[g' Hstep]|[(Hstep & Hc & Hstk)|(Hstep & Hend)]].
    + rewrite Hstep. cbn [and_then].
      pose proof (jit_step_tok text g g' ltac:(lia) Hstep) as Htok.
      rewrite <- (covered_step text g g' ltac:(lia) Hstep).
      assert (Hg' : generates text a g') by (eapply generates_step; eauto; lia).
      specialize (IH g' Hg' ltac:(lia)).
      destruct (bfJITCompile_loop fuel text g') eqn:El; try exact IH.
      destruct IH as [Hcov Hin]. split; [exact Hcov|]. intros _.
      destruct (Nat.eq_dec (tok g') (length text)) as [He'|Hne'].
      * apply (jit_step_last text g g'); [lia|assumption|assumption].
      * apply Hin. lia.
    + rewrite Hstep. cbn [and_then]. left. rewrite Hstk.
      rewrite (drop_char_at text (tok g)) by lia. cbn [closers_covered length].
      now rewrite Hc.
    + rewrite Hstep. cbn [and_then]. now right.
Qed.

(** X5.  The generator returns a code exactly for the texts in which every
    closing bracket has an opening bracket before it that is still open
    and which do not end in one of [+ - < >] or in a closing bracket;
    opening brackets may stay open.  On every other text it runs into
    [back()] on the empty relocation stack or reads [*cend()] in a
    look-ahead.  It does nothing else: it does not terminate the
    process and it does not run on. *)
Theorem generator_accepts (text : list ascii) (a : Z) :
  match bfJITCompile_code text a with
  | Ok _ => closers_covered 0 text = true /\ ends_looking_ahead text = false
  | Undefined => closers_covered 0 text = false \/ ends_looking_ahead text = true
  | _ => False
  end.
Proof.
  unfold bfJITCompile_code.
  pose proof (jit_loop_covered text a (length text) _ (generates_init text a)) as H.
  cbn [jit_init tok jmpLocIndex length] in H.
  specialize (H ltac:(lia)).
  change (drop 0 text) with text in H.
  destruct (bfJITCompile_loop (length text) text (jit_init a)); cbn [and_then]; try exact H.
  destruct H as [Hcov Hin]. split; [exact Hcov|].
  destruct text as [|c r]; [reflexivity|]. apply Hin. simpl. lia.
Qed.

(** ** The short jump, up to eleven trailing closing brackets *)

(** X6.  For a closing bracket at index [j] of an accepted text that is
    followed by [n] further closing brackets: with [n = 0] its
    iteration appends the nine bytes of the compare-and-branch block
    and nothing else; with [n] from 1 to 11 it appends the block and
    one short jump, which is in the final code and whose displacement
    is the length of the code of the [n] trailing brackets. *)
Theorem short_jump_lands (text : list ascii) (a : Z) (code : list Z) (j n : nat) :
  bfJITCompile_code text a = Ok code ->
  classify (char_at text j) = TClose ->
  span_len "]" (drop (S j) text) = n ->
  (n <= 11)%nat ->
  exists g g',
    generates text a g /\ tok g = j /\ bfJITCompile_step text g = Ok g' /\
    (n = O -> length (machineCode g') = (length (machineCode g) + 9)%nat) /\
    ((1 <= n)%nat ->
     length (machineCode g') = (length (machineCode g) + 11)%nat /\
     exists d g'',
       has_bytes code (length (machineCode g) + 9) [0xeb; d] /\
       closes text n g' g'' /\
       Z.of_nat (length (machineCode g'')) = Z.of_nat (length (machineCode g')) + sext 8 d).
Proof.
  intros Hcode Hc Hn Hle.
  destruct (bfJITCompile_code_inv _ _ _ Hcode) as (gf & Hfinal & ->).
  assert (Hj : (j < length text)%nat).
  { apply char_at_lt. intros E. rewrite E in Hc. discriminate. }
  destruct (reach text a gf Hfinal j Hj (or_intror Hc) j _ (generates_init text a))
    as (g & Hg & Ht); [simpl; lia|simpl; lia|].
  rewrite <- Ht in Hc, Hj, Hn.
  destruct (generates_next text a g gf Hfinal Hg Hj) as (g' & Hstep & Hg').
  destruct (elision_lands text a gf g g' Hfinal Hg Hj Hc Hstep) as [H0 H1].
  rewrite Hn in H0, H1.
  destruct (jmpLocIndex g) as [|L rest] eqn:Hstk.
  { rewrite jit_step_close_empty in Hstep by assumption. discriminate. }
  destruct (final_close text a gf Hfinal g L rest Hg Hj Hc Hstk) as (Hs & _ & Hlen & _).
  rewrite Hstep in Hs. injection Hs as Hs. rewrite <- Hs in Hlen.
  exists g, g'. split; [assumption|]. split; [assumption|]. split; [assumption|]. split.
  - intros E. rewrite (H0 E) in Hlen. simpl in Hlen. lia.
  - intros Hn1. destruct (H1 ltac:(lia)) as (d & g'' & He & Hb & Hcl & Hd).
    rewrite He in Hlen. simpl in Hlen. split; [lia|].
    exists d, g''. split; [now apply has_bytes_app_l|]. split; assumption.
Qed.

Lemma short_jump_lands_witness :
  exists g g',
    generates (src "[[-]].") 0 g /\ tok g = 3%nat /\
    bfJITCompile_step (src "[[-]].") g = Ok g' /\
    (1%nat = O -> length (machineCode g') = (length (machineCode g) + 9)%nat) /\
    ((1 <= 1)%nat ->
     length (machineCode g') = (length (machineCode g) + 11)%nat /\
     exists d g'',
       has_bytes
         (prologue 0 ++ [0x80; 0x3b; 0; 0xf; 0x84; 32; 0; 0; 0]
            ++ [0x80; 0x3b; 0; 0xf; 0x84; 12; 0; 0; 0] ++ [0x80; 0x2b; 1]
            ++ [0x80; 0x3b; 0; 0xf; 0x85; 244; 255; 255; 255] ++ [0xeb; 9]
            ++ [0x80; 0x3b; 0; 0xf; 0x85; 224; 255; 255; 255] ++ write_code
            ++ epilogue)
         (length (machineCode g) + 9) [0xeb; d] /\
       closes (src "[[-]].") 1 g' g'' /\
       Z.of_nat (length (machineCode g'')) = Z.of_nat (length (machineCode g')) + sext 8 d).
Proof.
  apply (short_jump_lands (src "[[-]].") 0 _ 3 1).
  - vm_compute. reflexivity.
  - reflexivity.
  - reflexivity.
  - lia.
Defined.

(** ** The address of the tape in the code *)

Lemma jit_step_relocate (text : list ascii) (a a' : Z) (g g2 : jit) (t : list Z) :
  stack_ok g ->
  tok g = tok g2 -> jmpLocIndex g = jmpLocIndex g2 ->
  Forall (fun L => (19 <= L)%nat) (jmpLocIndex g) ->
  machineCode g = prologue a ++ t -> machineCode g2 = prologue a' ++ t ->
  match bfJITCompile_step text g, bfJITCompile_step text g2 with
  | Ok g', Ok g2' =>
      tok g' = tok g2' /\ jmpLocIndex g' = jmpLocIndex g2' /\
      Forall (fun L => (19 <= L)%nat) (jmpLocIndex g') /\
      exists t', machineCode g' = prologue a ++ t' /\ machineCode g2' = prologue a' ++ t'
  | Undefined, Undefined => True
  | _, _ => False
  end.
Proof.
  intros Hok Htok Hstk H19 Hm Hm2.
  assert (Hlen : length (machineCode g) = length (machineCode g2))
    by now rewrite Hm, Hm2, !length_app, !length_prologue.
  assert (Hok2 : stack_ok g2) by (unfold stack_ok in *; now rewrite <- Hlen, <- Hstk).
  destruct (classify (char_at text (tok g))) eqn:Hc.
  8: { destruct (jmpLocIndex g) as [|L rest] eqn:Estk.
       - rewrite !jit_step_close_empty by congruence. exact I.
       - unfold stack_ok in Hok. rewrite Estk in Hok. destruct Hok as [HL _].
         apply Forall_cons in H19 as [HL19 H19].
         rewrite (jit_step_close text g L rest Hc Estk HL).
         rewrite (jit_step_close text g2 L rest) by (rewrite <- ?Htok, <- ?Hlen; auto).
         rewrite <- Htok. destruct (_ <? _)%nat; [|exact I].
         cbn [tok jmpLocIndex machineCode]. split; [congruence|]. split; [reflexivity|].
         split; [assumption|].
         unfold closed_code. rewrite <- Htok, <- Hlen, Hm, Hm2.
         rewrite !(take_app_ge (prologue _)), !(drop_app_ge (prologue _))
           by (rewrite length_prologue; lia).
         rewrite !length_prologue. eexists. split; rewrite <- app_assoc; reflexivity. }
  all: unfold bfJITCompile_step; rewrite <- Htok, Hc, <- Hstk;
    try (destruct (scan _ _ _); [|exact I]); cbn [tok jmpLocIndex machineCode].
  7: { split; [reflexivity|]. rewrite !length_app, Hlen. split; [reflexivity|]. split.
       - constructor; [|assumption]. rewrite <- Hlen, Hm, length_app, length_prologue.
         simpl. lia.
       - rewrite Hm, Hm2. eexists. split; rewrite <- app_assoc; reflexivity. }
  all: split; [reflexivity|]; split; [reflexivity|].
  all: split; [assumption|]; rewrite Hm, Hm2; eexists;
    split; rewrite <- ?app_assoc; try reflexivity.
  all: now rewrite app_nil_r.
Qed.

Lemma jit_loop_relocate (text : list ascii) (a a' : Z) (fuel : nat) :
  forall g g2 t,
  generates text a g ->
  tok g = tok g2 -> jmpLocIndex g = jmpLocIndex g2 ->
  Forall (fun L => (19 <= L)%nat) (jmpLocIndex g) ->
  machineCode g = prologue a ++ t -> machineCode g2 = prologue a' ++ t ->
  match bfJITCompile_loop fuel text g, bfJITCompile_loop fuel text g2 with
  | Ok gf, Ok gf2 => drop 10 (machineCode gf) = drop 10 (machineCode gf2)
  | Undefined, Undefined => True
  | Timeout, Timeout => True
  | _, _ => False
  end.
Proof.
  assert (Hend : forall fuel g g2 t, tok g = tok g2 -> tok g = length text ->
            machineCode g = prologue a ++ t -> machineCode g2 = prologue a' ++ t ->
            match bfJITCompile_loop fuel text g, bfJITCompile_loop fuel text g2 with
            | Ok gf, Ok gf2 => drop 10 (machineCode gf) = drop 10 (machineCode gf2)
            | Undefined, Undefined => True
            | Timeout, Timeout => True
            | _, _ => False
            end).
  { intros f g g2 t Htok He Hm Hm2. rewrite !jit_loop_done by congruence.
    rewrite Hm, Hm2.
    rewrite (drop_app_length' (prologue a)), (drop_app_length' (prologue a'))
      by now rewrite length_prologue.
    reflexivity. }
  induction fuel as [|fuel IH]; intros g g2 t Hg Htok Hstk H19 Hm Hm2;
    destruct (Nat.eq_dec (tok g) (length text)) as [He|Hne];
    try (now apply (Hend _ g g2 t)).
  - simpl. rewrite <- Htok. apply Nat.eqb_neq in Hne. now rewrite Hne.
  - destruct (generates_inv _ _ _ Hg) as (Hok & Hle & _).
    rewrite !jit_loop_unfold by congruence.
    pose proof (jit_step_relocate text a a' g g2 t Hok Htok Hstk H19 Hm Hm2) as Hs.
    destruct (bfJITCompile_step text g) as [g'| | | |] eqn:E1,
             (bfJITCompile_step text g2) as [g2'| | | |] eqn:E2; try contradiction;
      cbn [and_then]; [|exact I].
    destruct Hs as (Htok' & Hstk' & H19' & t' & Hm' & Hm2').
    apply (IH g' g2' t'); auto. eapply generates_step; eauto. lia.
Qed.

(** X7.  The generated code depends on the address of the tape in the
    immediate of the prologue only: behind its first ten bytes the code
    is the same for every address, and the generator accepts or
    rejects a text whatever the address. *)
Theorem code_relocatable (text : list ascii) (a a' : Z) :
  and_then (bfJITCompile_code text a) (fun code => Ok (drop 10 code))
  = and_then (bfJITCompile_code text a') (fun code => Ok (drop 10 code)).
Proof.
  unfold bfJITCompile_code.
  pose proof (jit_loop_relocate text a a' (length text) (jit_init a) (jit_init a') []
                (generates_init text a) eq_refl eq_refl ltac:(constructor)
                ltac:(cbn [jit_init machineCode]; now rewrite app_nil_r)
                ltac:(cbn [jit_init machineCode]; now rewrite app_nil_r)) as H.
  destruct (bfJITCompile_loop (length text) text (jit_init a)) as [gf| | | |] eqn:E1,
           (bfJITCompile_loop (length text) text (jit_init a')) as [gf2| | | |] eqn:E2;
    try contradiction; cbn [and_then]; try reflexivity.
  assert (H10 : forall g, generates text a g \/ generates text a' g ->
            (10 <= length (machineCode g))%nat).
  { intros g [Hg|Hg]; apply generates_inv in Hg; tauto. }
  assert (Hg1 : generates text a gf)
    by (eapply jit_loop_generates; [apply generates_init|exact E1]).
  assert (Hg2 : generates text a' gf2)
    by (eapply jit_loop_generates; [apply generates_init|exact E2]).
  rewrite !drop_app_le by (apply H10; auto). now rewrite H.
Qed.

(** * Properties of the entry point *)

Lemma read_tokens_filter (s v : list ascii) :
  read_tokens s v = v ++ filter (fun c => isspace c = false) s.
Proof.
  revert v. induction s as [|c s IH]; intros v; simpl.
  - now rewrite app_nil_r.
  - destruct (isspace c) eqn:E.
    + rewrite IH. rewrite filter_cons_False by congruence. reflexivity.
    + rewrite IH. rewrite filter_cons_True by assumption. now rewrite <- app_assoc.
Qed.

Lemma filter_idemp_space (s : list ascii) :
  filter (fun c => isspace c = false) (filter (fun c => isspace c = false) s)
  = filter (fun c => isspace c = false) s.
Proof.
  induction s as [|c s IH]; [reflexivity|].
  destruct (isspace c) eqn:E.
  - now rewrite filter_cons_False by congruence.
  - rewrite filter_cons_True by assumption.
    rewrite filter_cons_True by assumption. now rewrite IH.
Qed.

(** X8.  The layout of the program file does not matter: [main] does the
    same on a file and on the file without its spaces, tabs, line
    feeds, vertical tabs, form feeds and carriage returns. *)
Theorem main_strips_whitespace (argv : list string)
    (open_file : string -> option (list ascii)) :
  main argv open_file
  = main argv (fun name => filter (fun c => isspace c = false) <$> open_file name).
Proof.
  unfold main. destruct argv as [|a0 [|name rest]]; try reflexivity.
  destruct (open_file name) as [content|]; [|reflexivity].
  cbn [fmap option_fmap option_map]. now rewrite !read_tokens_filter, filter_idemp_space.
Qed.

(** X9.  [main] calls neither mode exactly when no file name is given,
    when the file cannot be opened or when the file holds nothing but
    whitespace; the three cases are not told apart. *)
Theorem main_runs_nothing (argv : list string)
    (open_file : string -> option (list ascii)) :
  main argv open_file = NoCall <->
  match argv !! 1%nat with
  | None => True
  | Some name =>
      match open_file name with
      | None => True
      | Some content => forallb isspace content = true
      end
  end.
Proof.
  unfold main. destruct argv as [|a0 [|name rest]]; cbn [lookup list_lookup fst];
    try (split; [trivial|reflexivity]).
  destruct (open_file name) as [content|]; [|split; [trivial|reflexivity]].
  rewrite read_tokens_filter. cbn [app].
  destruct (filter (fun c => isspace c = false) content) as [|x l] eqn:E.
  - split; [intros _|reflexivity].
    apply forallb_forall. intros c Hc.
    destruct (isspace c) eqn:Es; [reflexivity|].
    assert (Hin : c ∈ filter (fun c => isspace c = false) content)
      by (apply list_elem_of_filter; split; [assumption|now apply list_elem_of_In]).
    rewrite E in Hin. inversion Hin.
  - cbn [length Nat.ltb Nat.leb]. split.
    + destruct rest as [|flag rest']; [discriminate|].
      destruct (String.eqb flag "--jit"); discriminate.
    + intros Hall. exfalso.
      assert (Hin : x ∈ filter (fun c => isspace c = false) content)
        by (rewrite E; left).
      apply list_elem_of_filter in Hin as [Hx Hin].
      rewrite forallb_forall in Hall.
      apply list_elem_of_In in Hin. apply Hall in Hin. rewrite Hx in Hin. discriminate.
Qed.

(** X10.  When [main] calls a mode, the text that it hands over is the
    content of the file named by the first argument without its
    whitespace, it is not empty, and the mode is the generator exactly
    when the second argument is [--jit]; further arguments are
    ignored. *)
Theorem main_call_text (argv : list string)
    (open_file : string -> option (list ascii)) (v : list ascii) :
  main argv open_file = CallDefault v \/ main argv open_file = CallJIT v ->
  v <> [] /\
  (exists name content,
     argv !! 1%nat = Some name /\ open_file name = Some content /\
     v = filter (fun c => isspace c = false) content) /\
  (main argv open_file = CallJIT v <-> argv !! 2%nat = Some "--jit"%string).
Proof.
  unfold main. destruct argv as [|a0 [|name rest]]; cbn [fst length Nat.ltb Nat.leb];
    try (intros [H|H]; discriminate H).
  destruct (open_file name) as [content|] eqn:Eo;
    [|cbn [fst length Nat.ltb Nat.leb]; intros [H|H]; discriminate H].
  rewrite read_tokens_filter. cbn [app].
  destruct (filter (fun c => isspace c = false) content) as [|x l] eqn:E;
    cbn [length Nat.ltb Nat.leb]; [intros [H|H]; discriminate H|].
  intros Hv.
  assert (Ev : v = x :: l).
  { destruct rest as [|flag rest']; [|destruct (String.eqb flag "--jit")];
      destruct Hv as [H|H]; congruence. }
  subst v. split; [discriminate|]. split.
  { exists name, content. split; [reflexivity|]. split; [exact Eo|]. now rewrite E. }
  destruct rest as [|flag rest']; cbn [lookup list_lookup].
  - split; discriminate.
  - destruct (String.eqb_spec flag "--jit") as [->|Hne].
    + split; reflexivity.
    + split; [discriminate|congruence].
Qed.

Lemma main_call_text_witness :
  src "++." <> [] /\
  (exists name content,
     ["bf"; "hello.bf"; "--jit"]%string !! 1%nat = Some name /\
     (fun _ : string => Some (src "+ +  .")) name = Some content /\
     src "++." = filter (fun c => isspace c = false) content) /\
  (main ["bf"; "hello.bf"; "--jit"]%string (fun _ => Some (src "+ +  ."))
   = CallJIT (src "++.")
   <-> ["bf"; "hello.bf"; "--jit"]%string !! 2%nat = Some "--jit"%string).
Proof.
  apply (main_call_text ["bf"; "hello.bf"; "--jit"]%string
           (fun _ => Some (src "+ +  ."))).
  right. reflexivity.
Defined.

(** * Further properties of the interpreter *)

(** ** What the loop keeps *)

Lemma after_loop (text : list ascii) (n fuel : nat) (k k' : interp) :
  bfInterpret_after n text k = Some k' ->
  bfInterpret_loop (n + fuel) text k = bfInterpret_loop fuel text k'.
Proof.
  revert k. induction n as [|n IH]; intros k; simpl.
  - now intros [= ->].
  - destruct (bfInterpret_step text k) as [k1| | |]; try discriminate. apply IH.
Qed.

Lemma after_trans (text : list ascii) (n m : nat) (k k' k'' : interp) :
  bfInterpret_after n text k = Some k' ->
  bfInterpret_after m text k' = Some k'' ->
  bfInterpret_after (n + m) text k = Some k''.
Proof.
  revert k. induction n as [|n IH]; intros k; simpl.
  - now intros [= ->].
  - destruct (bfInterpret_step text k) as [k1| | |]; try discriminate. apply IH.
Qed.

Lemma after_last (text : list ascii) (n : nat) (k k'' : interp) :
  bfInterpret_after (S n) text k = Some k'' ->
  exists k', bfInterpret_after n text k = Some k' /\ bfInterpret_step text k' = Next k''.
Proof.
  revert k. induction n as [|n IH]; intros k H.
  - simpl in H. destruct (bfInterpret_step text k) as [k1| | |] eqn:E; try discriminate.
    injection H as ->. now exists k.
  - change (bfInterpret_after (S (S n)) text k)
      with (match bfInterpret_step text k with
            | Next k' => bfInterpret_after (S n) text k'
            | _ => None
            end) in H.
    destruct (bfInterpret_step text k) as [k1| | |] eqn:E; try discriminate.
    destruct (IH k1 H) as (k' & Ha & Hs). exists k'. split; [|assumption].
    simpl. now rewrite E.
Qed.

Lemma shift_inv (s s' : bfState) (d : Z) :
  shift s d = Some s' ->
  tape s' = tape s /\ ptr s' = ptr s + d /\ 0 <= ptr s' <= Z.of_nat (length (tape s)).
Proof.
  unfold shift. destruct (_ && _) eqn:E; [|discriminate]. intros [= <-]. simpl.
  apply andb_true_iff in E as [E1 E2]. apply Z.leb_le in E1, E2. auto.
Qed.

Lemma assign_inv (s s' : bfState) (v : Z) :
  assign s v = Some s' ->
  ptr s' = ptr s /\ length (tape s') = length (tape s) /\
  0 <= ptr s < Z.of_nat (length (tape s)).
Proof.
  unfold assign. destruct (_ && _) eqn:E; [|discriminate]. intros [= <-]. simpl.
  apply andb_true_iff in E as [E1 E2]. apply Z.leb_le in E1. apply Z.ltb_lt in E2.
  rewrite length_insert. auto.
Qed.

Lemma run_end (text : list ascii) (p : nat) (c : ascii) :
  (p < length text)%nat ->
  (S p + (S (span_len c (drop (S p) text)) - 1) <= length text)%nat.
Proof.
  intros Hp. pose proof (span_len_le c (drop (S p) text)) as H.
  rewrite length_drop in H. lia.
Qed.

Lemma interp_step_ok (text : list ascii) (k k' : interp) :
  interp_ok text k ->
  bfInterpret_step text k = Next k' ->
  interp_ok text k' /\
  length (tape (machine k')) = length (tape (machine k)).
Proof.
  intros [Hpc Hl Hn Hr Hb Hz] Hstep.
  assert (Hlt : classify (char_at text (program k)) <> TNul -> (program k < length text)%nat).
  { intros H. apply char_at_lt. intros E. rewrite E in H. now apply H. }
  unfold bfInterpret_step in Hstep.
  destruct (classify (char_at text (program k))) eqn:Hc;
    try specialize (Hlt ltac:(discriminate));
    try pose proof (run_end text (program k) "<" Hlt) as Hlt1;
    try pose proof (run_end text (program k) ">" Hlt) as Hlt2;
    try pose proof (run_end text (program k) "+" Hlt) as Hlt3;
    try pose proof (run_end text (program k) "-" Hlt) as Hlt4;
    try pose proof (run_end text (program k) " " Hlt) as Hlt5.
  (* < and > *)
  1, 2: destruct (nskip k =? 0)%nat eqn:Es;
    [ unfold with_machine in Hstep;
      match type of Hstep with
      | match ?o with _ => _ end = _ => destruct o as [s'|] eqn:Esh; [|discriminate]
      end;
      apply shift_inv in Esh as (Et & _ & Hr');
      injection Hstep as <-; split; [|cbn [machine]; now rewrite Et];
      constructor; cbn [program loops nskip machine]; rewrite ?Et; try assumption;
      apply Nat.eqb_eq in Es; congruence
    | unfold skip_to in Hstep; injection Hstep as <-; split; [|reflexivity];
      constructor; cbn [program loops nskip machine]; assumption ].
  (* + and - *)
  1, 2: destruct (nskip k =? 0)%nat eqn:Es;
    [ unfold with_machine in Hstep;
      destruct (deref (machine k)) as [v|] eqn:Ev; cbn [mbind option_bind] in Hstep;
        [|discriminate];
      match type of Hstep with
      | match ?o with _ => _ end = _ => destruct o as [s'|] eqn:Eas; [|discriminate]
      end;
      pose proof (assign_is_byte _ _ _ Hb (to_uchar_is_byte _) Eas) as Hb';
      apply assign_inv in Eas as (Ep & El & _);
      injection Hstep as <-; split; [|cbn [machine]; exact El];
      constructor; cbn [program loops nskip machine]; rewrite ?Ep, ?El; try assumption;
      apply Nat.eqb_eq in Es; congruence
    | unfold skip_to in Hstep; injection Hstep as <-; split; [|reflexivity];
      constructor; cbn [program loops nskip machine]; assumption ].
  (* , *)
  - destruct (nskip k =? 0)%nat eqn:Es.
    + destruct (getchar (host k)) as [r w].
      destruct (assign (machine k) (to_uchar r)) as [s'|] eqn:Eas; [|discriminate].
      pose proof (assign_is_byte _ _ _ Hb (to_uchar_is_byte _) Eas) as Hb'.
      apply assign_inv in Eas as (Ep & El & _).
      injection Hstep as <-. split; [|cbn [machine]; exact El].
      constructor; cbn [program loops nskip machine]; rewrite ?Ep, ?El; try assumption; try lia.
      intros H. apply Nat.eqb_eq in Es. contradiction.
    + unfold skip_to in Hstep. injection Hstep as <-. split; [|reflexivity].
      constructor; cbn [program loops nskip machine]; try assumption; try lia.
  (* . *)
  - destruct (nskip k =? 0)%nat eqn:Es.
    + destruct (deref (machine k)) as [v|] eqn:Ev; [|discriminate].
      injection Hstep as <-. split; [|reflexivity].
      constructor; cbn [program loops nskip machine]; rewrite ?Ev; try assumption; try lia.
    + unfold skip_to in Hstep. injection Hstep as <-. split; [|reflexivity].
      constructor; cbn [program loops nskip machine]; try assumption; try lia.
  (* [ *)
  - destruct (Nat.eqb_spec (length (loops k)) MAX_NESTING) as [|Hne]; [discriminate|].
    destruct (deref (machine k)) as [v|] eqn:Ev; [|discriminate].
    injection Hstep as <-. split; [|reflexivity].
    constructor; cbn [program loops nskip machine length]; try assumption; try lia.
    + destruct (v =? 0); lia.
    + constructor; [|assumption]. split; [lia|].
      replace (S (program k) - 1)%nat with (program k) by lia. exact Hc.
    + rewrite Ev. destruct (Z.eqb_spec v 0) as [->|Hv]; [trivial|]. exact Hz.
  (* ] *)
  - destruct (loops k) as [|top below] eqn:El; [discriminate|].
    destruct (deref (machine k)) as [v|] eqn:Ev; [|discriminate].
    injection Hstep as <-. split; [|reflexivity].
    apply Forall_cons in Hr as [Htop Hbelow]. cbn [length] in Hl, Hn.
    destruct (Z.eqb_spec v 0) as [->|Hv].
    + constructor; cbn [program loops nskip machine]; rewrite ?Ev; try assumption; try lia.
      all: try reflexivity.
    + assert (Hn0 : nskip k = O).
      { destruct (nskip k) eqn:E; [reflexivity|].
        specialize (Hz ltac:(discriminate)). congruence. }
      constructor; cbn [program loops nskip machine length]; try assumption; try lia;
        try (constructor; assumption).
      all: rewrite Hn0; simpl; congruence.
  (* space *)
  - unfold skip_to in Hstep. injection Hstep as <-. split; [|reflexivity].
    constructor; cbn [program loops nskip machine]; assumption.
  (* NUL *)
  - discriminate.
  (* other *)
  - unfold skip_to in Hstep. injection Hstep as <-. split; [|reflexivity].
    constructor; cbn [program loops nskip machine]; try assumption; try lia.
Qed.

Lemma after_ok (text : list ascii) (n : nat) :
  forall k k', interp_ok text k -> bfInterpret_after n text k = Some k' ->
  interp_ok text k' /\ length (tape (machine k')) = length (tape (machine k)).
Proof.
  induction n as [|n IH]; intros k k' Hok; simpl.
  - intros [= <-]. now split.
  - destruct (bfInterpret_step text k) as [k1| | |] eqn:E; try discriminate.
    intros Ha. destruct (interp_step_ok text k k1 Hok E) as [Hok1 Hl1].
    destruct (IH k1 k' Hok1 Ha) as [Hok' Hl']. split; [assumption|congruence].
Qed.

(** X11.  From cells that are bytes, the interpreter keeps between all
    its iterations: the next character is in the text or is the NUL
    behind it; at most 100 loops are open, so [loops] is not overrun;
    no more loops are skipped than are open; every return position
    stands behind an opening bracket of the text; the cells are bytes;
    and while a loop is skipped the current cell is zero. *)
Theorem interp_keeps_invariants (text : list ascii) (n : nat) (s : bfState)
    (w : stdio) (k : interp) :
  Forall is_byte (tape s) ->
  bfInterpret_after n text (interp_init s w) = Some k ->
  interp_ok text k.
Proof.
  intros Hb Ha. apply (after_ok text n (interp_init s w) k); [|exact Ha].
  constructor; cbn [interp_init program loops nskip machine length]; try assumption;
    try (unfold MAX_NESTING; lia); try congruence.
  constructor.
Qed.

Lemma interp_keeps_invariants_witness :
  interp_ok (src "+[>,<-]")
    {| program := 2; loops := [2%nat]; nskip := 0;
       machine := {| tape := [1; 0]; ptr := 0 |}; host := stdio_init [7] |}.
Proof.
  apply (interp_keeps_invariants (src "+[>,<-]") 2 {| tape := [0; 0]; ptr := 0 |}
           (stdio_init [7])).
  - repeat constructor; unfold is_byte; lia.
  - reflexivity.
Defined.

(** ** The streams *)

Lemma interp_step_streams (text : list ascii) (k k' : interp) :
  bfInterpret_step text k = Next k' ->
  exists out consumed,
    stdout (host k') = stdout (host k) ++ out /\
    stdin (host k) = consumed ++ stdin (host k') /\
    (length out + length consumed <= 1)%nat.
Proof.
  intros Hstep.
  assert (Hsame : host k' = host k -> exists out consumed,
            stdout (host k') = stdout (host k) ++ out /\
            stdin (host k) = consumed ++ stdin (host k') /\
            (length out + length consumed <= 1)%nat).
  { intros ->. exists [], []. rewrite app_nil_r. simpl. auto. }
  unfold bfInterpret_step, with_machine, skip_to in Hstep.
  destruct (classify (char_at text (program k)));
    repeat match type of Hstep with
           | context [if ?b then _ else _] => destruct b
           | context [match ?o with Some _ => _ | None => _ end] =>
               destruct o eqn:?; try discriminate
           | context [match loops k with [] => _ | _ :: _ => _ end] =>
               destruct (loops k); try discriminate
           end;
    try discriminate;
    try (injection Hstep as <-; apply Hsame; reflexivity).
  - (* , *)
    unfold getchar in Hstep. destruct (stdin (host k)) as [|b rest] eqn:Ein.
    + destruct (assign _ _); [|discriminate]. injection Hstep as <-.
      exists [], []. cbn [host stdout stdin]. rewrite app_nil_r. simpl. auto.
    + destruct (assign _ _); [|discriminate]. injection Hstep as <-.
      exists [], [b]. cbn [host stdout stdin]. rewrite app_nil_r. simpl. auto.
  - (* . *)
    injection Hstep as <-. eexists [_], []. cbn [host putchar stdout stdin]. simpl. auto.
Qed.

(** X12.  The interpreter only appends to its output and only takes bytes
    from the front of its input, at most one byte in one iteration:
    after [n] iterations the output is the old output followed by
    new bytes, and the old input is consumed bytes followed by the
    input that is left. *)
Theorem interp_streams_grow (text : list ascii) (n : nat) (k k' : interp) :
  bfInterpret_after n text k = Some k' ->
  exists out consumed,
    stdout (host k') = stdout (host k) ++ out /\
    stdin (host k) = consumed ++ stdin (host k') /\
    (length out + length consumed <= n)%nat.
Proof.
  revert k. induction n as [|n IH]; intros k; simpl.
  - intros [= <-]. exists [], []. rewrite app_nil_r. simpl. auto.
  - destruct (bfInterpret_step text k) as [k1| | |] eqn:E; try discriminate.
    intros Ha. destruct (interp_step_streams text k k1 E) as (o1 & c1 & Ho1 & Hc1 & Hl1).
    destruct (IH k1 Ha) as (o2 & c2 & Ho2 & Hc2 & Hl2).
    exists (o1 ++ o2), (c1 ++ c2). rewrite Ho2, Ho1, Hc1, Hc2, !length_app, !app_assoc.
    split; [reflexivity|]. split; [reflexivity|]. lia.
Qed.

Lemma interp_streams_grow_witness :
  exists out consumed,
    [7; 8] = [] ++ out /\ [7; 9] = consumed ++ [9] /\
    (length out + length consumed <= 4)%nat.
Proof.
  apply (interp_streams_grow (src ",.+.") 4
           (interp_init {| tape := [0]; ptr := 0 |} (stdio_init [7; 9]))
           {| program := 4; loops := []; nskip := 0;
              machine := {| tape := [8]; ptr := 0 |};
              host := {| stdin := [9]; stdin_eof := false; stdout := [7; 8] |} |}).
  reflexivity.
Defined.

(** ** Skipping a loop *)

Lemma suppressed_plain_step (text : list ascii) (k : interp) :
  nskip k <> O ->
  classify (char_at text (program k)) <> TOpen ->
  classify (char_at text (program k)) <> TClose ->
  classify (char_at text (program k)) <> TNul ->
  exists pc,
    bfInterpret_step text k =
      Next {| program := pc; loops := loops k; nskip := nskip k;
              machine := machine k; host := host k |} /\
    (program k < pc)%nat /\
    forall i, (program k + i < pc)%nat ->
      char_at text (program k + i) = char_at text (program k).
Proof.
  intros Hn Ho Hc Hz.
  assert (Hrun : forall c, char_at text (program k) = c ->
            (program k < S (program k) + (S (span_len c (drop (S (program k)) text)) - 1))%nat /\
            forall i, (program k + i
                       < S (program k) + (S (span_len c (drop (S (program k)) text)) - 1))%nat ->
              char_at text (program k + i) = char_at text (program k)).
  { intros c Ec. split; [lia|]. intros [|i] Hi; [now rewrite Nat.add_0_r|].
    rewrite Ec. replace (program k + S i)%nat with (S (program k) + i)%nat by lia.
    apply span_len_char_at. lia. }
  assert (Hone : (program k < S (program k))%nat /\
            forall i, (program k + i < S (program k))%nat ->
              char_at text (program k + i) = char_at text (program k)).
  { split; [lia|]. intros i Hi. replace i with O by lia. now rewrite Nat.add_0_r. }
  pose proof (classify_cases (char_at text (program k))) as Hcc.
  apply Nat.eqb_neq in Hn.
  unfold bfInterpret_step, skip_to.
  destruct (classify (char_at text (program k))); try congruence; rewrite ?Hn;
    eexists; (split; [reflexivity|]); auto.
Qed.

Lemma max_depth_ge (d : nat) (l : list ascii) : (d <= max_depth d l)%nat.
Proof. destruct l; simpl; lia. Qed.

Lemma max_depth_skip (text : list ascii) (d j n : nat) :
  forall p, (p + n <= j)%nat -> (p + n <= length text)%nat ->
  (forall i, (i < n)%nat ->
     classify (char_at text (p + i)) <> TOpen /\ classify (char_at text (p + i)) <> TClose) ->
  (max_depth d (take (j - (p + n)) (drop (p + n) text))
   <= max_depth d (take (j - p) (drop p text)))%nat.
Proof.
  induction n as [|n IH]; intros p Hj Hlen Hpl.
  - now rewrite Nat.add_0_r.
  - rewrite (segment_cons text p j) by lia.
    destruct (Hpl O ltac:(lia)) as [Ho Hc]. rewrite Nat.add_0_r in Ho, Hc.
    replace (p + S n)%nat with (S p + n)%nat by lia.
    etransitivity; [apply (IH (S p)); [lia|lia|]|].
    + intros i Hi. replace (S p + i)%nat with (p + S i)%nat by lia. apply Hpl. lia.
    + cbn [max_depth]. destruct (classify (char_at text p)); try congruence; lia.
Qed.

Section Skipping.

Variable text : list ascii.
Variable j : nat.
Hypothesis Hclose : classify (char_at text j) = TClose.

(** While a loop is skipped, the interpreter comes to the closing
    bracket that ends the text in which [length pre] loops are left
    open, with these loops popped and nothing else changed. *)
Lemma skip_segment (m : nat) :
  forall k pre base,
  nskip k = S (length pre) ->
  loops k = pre ++ base ->
  deref (machine k) = Some 0 ->
  (program k <= j)%nat -> (j - program k <= m)%nat ->
  balanced_from (length pre) (take (j - program k) (drop (program k) text)) = true ->
  (forall q, (program k <= q < j)%nat -> char_at text q <> NUL) ->
  (length base + max_depth (length pre) (take (j - program k) (drop (program k) text))
   <= MAX_NESTING)%nat ->
  exists n, (n <= j - program k)%nat /\
    bfInterpret_after n text k =
      Some {| program := j; loops := base; nskip := 1;
              machine := machine k; host := host k |}.
Proof.
  assert (Hj : (j < length text)%nat).
  { apply char_at_lt. intros E. rewrite E in Hclose. discriminate. }
  assert (Hend : forall k pre base,
            nskip k = S (length pre) -> loops k = pre ++ base -> program k = j ->
            balanced_from (length pre) (take (j - program k) (drop (program k) text)) = true ->
            exists n, (n <= j - program k)%nat /\
              bfInterpret_after n text k =
                Some {| program := j; loops := base; nskip := 1;
                        machine := machine k; host := host k |}).
  { intros k pre base Hn Hl He Hbal. exists O. split; [lia|].
    replace (j - program k)%nat with O in Hbal by lia. simpl in Hbal.
    destruct pre; [|discriminate]. simpl in Hn, Hl. simpl.
    rewrite <- He, <- Hl, <- Hn. now destruct k. }
  induction m as [|m IH]; intros k pre base Hn Hl Hv Hle Hm Hbal Hnul Hdepth.
  - apply (Hend k pre base); auto. lia.
  - destruct (Nat.eq_dec (program k) j) as [He|Hne]; [now apply (Hend k pre base)|].
    assert (Hlt : (program k < length text)%nat) by lia.
    destruct (classify (char_at text (program k))) eqn:Hc.
    7: { (* [ *)
      rewrite segment_cons in Hbal, Hdepth by lia.
      cbn [balanced_from max_depth] in Hbal, Hdepth. rewrite Hc in Hbal, Hdepth.
      pose proof (max_depth_ge (S (length pre))
                    (take (j - S (program k)) (drop (S (program k)) text))) as Hge.
      assert (Hstep : bfInterpret_step text k =
                Next {| program := S (program k); loops := S (program k) :: loops k;
                        nskip := S (nskip k); machine := machine k; host := host k |}).
      { unfold bfInterpret_step. rewrite Hc, Hv.
        destruct (Nat.eqb_spec (length (loops k)) MAX_NESTING) as [E|E]; [|reflexivity].
        rewrite Hl, length_app in E. lia. }
      destruct (IH {| program := S (program k); loops := S (program k) :: loops k;
                      nskip := S (nskip k); machine := machine k; host := host k |}
                  (S (program k) :: pre) base) as (n & Hn' & Ha);
        cbn [program loops nskip machine host length] in *.
      - now rewrite Hn.
      - now rewrite Hl.
      - exact Hv.
      - lia.
      - lia.
      - exact Hbal.
      - intros q Hq. apply Hnul. lia.
      - lia.
      - exists (S n). split; [lia|]. simpl. now rewrite Hstep. }
    7: { (* ] *)
      rewrite segment_cons in Hbal, Hdepth by lia.
      cbn [balanced_from max_depth] in Hbal, Hdepth. rewrite Hc in Hbal, Hdepth.
      destruct pre as [|top pre]; [discriminate|].
      cbn [length Nat.pred] in Hbal, Hdepth, Hn. simpl in Hl.
      assert (Hstep : bfInterpret_step text k =
                Next {| program := S (program k); loops := pre ++ base;
                        nskip := S (length pre); machine := machine k; host := host k |}).
      { unfold bfInterpret_step. rewrite Hc, Hl, Hv, Hn. reflexivity. }
      destruct (IH {| program := S (program k); loops := pre ++ base;
                      nskip := S (length pre); machine := machine k; host := host k |}
                  pre base) as (n & Hn' & Ha);
        cbn [program loops nskip machine host length] in *.
      - reflexivity.
      - reflexivity.
      - exact Hv.
      - lia.
      - lia.
      - exact Hbal.
      - intros q Hq. apply Hnul. lia.
      - lia.
      - exists (S n). split; [lia|]. simpl. now rewrite Hstep. }
    8: { exfalso. apply (Hnul (program k)); [lia|].
         pose proof (classify_cases (char_at text (program k))) as Hcc.
         now rewrite Hc in Hcc. }
    all: destruct (suppressed_plain_step text k) as (pc & Hstep & Hpc & Hch);
      [rewrite Hn; discriminate|congruence|congruence|congruence|];
      assert (Hpcj : (pc <= j)%nat);
      [ destruct (Nat.le_gt_cases pc j) as [|Hgt]; [assumption|exfalso];
        specialize (Hch (j - program k)%nat);
        replace (program k + (j - program k))%nat with j in Hch by lia;
        rewrite Hch in Hclose by lia; congruence |];
      assert (Hplain : forall i, (i < pc - program k)%nat ->
                classify (char_at text (program k + i)) <> TOpen /\
                classify (char_at text (program k + i)) <> TClose);
      [ intros i Hi; rewrite Hch by lia; rewrite Hc; split; discriminate |];
      pose proof (segment_skip text (length pre) j (pc - program k) (program k)
                    ltac:(lia) ltac:(lia) Hplain) as Hsk;
      pose proof (max_depth_skip text (length pre) j (pc - program k) (program k)
                    ltac:(lia) ltac:(lia) Hplain) as Hmd;
      replace (program k + (pc - program k))%nat with pc in Hsk, Hmd by lia;
      destruct (IH {| program := pc; loops := loops k; nskip := nskip k;
                      machine := machine k; host := host k |} pre base)
        as (n & Hn' & Ha);
      cbn [program loops nskip machine host] in *;
      [ assumption | assumption | assumption | lia | lia
      | now rewrite <- Hsk
      | intros q Hq; apply Hnul; lia
      | lia
      | exists (S n); split; [lia|]; simpl; now rewrite Hstep ].
Qed.

End Skipping.

Lemma segment_lookup (text : list ascii) (p j q : nat) :
  (p <= q < j)%nat -> (q < length text)%nat ->
  take (j - p) (drop p text) !! (q - p)%nat = Some (char_at text q).
Proof.
  intros Hq Hlen. rewrite lookup_take_lt by lia. rewrite lookup_drop.
  replace (p + (q - p))%nat with q by lia.
  unfold char_at. destruct (lookup_lt_is_Some_2 text q Hlen) as [x ->]. reflexivity.
Qed.

Lemma skip_loop (text : list ascii) (i j : nat) (k : interp) :
  matched text i j ->
  program k = i ->
  nskip k = O ->
  deref (machine k) = Some 0 ->
  forallb (fun c => negb (Ascii.eqb c NUL)) (take (j - S i) (drop (S i) text)) = true ->
  (S (length (loops k)) + max_depth 0 (take (j - S i) (drop (S i) text))
   <= MAX_NESTING)%nat ->
  exists n, (n <= S (j - i))%nat /\
    bfInterpret_after n text k =
      Some {| program := S j; loops := loops k; nskip := 0;
              machine := machine k; host := host k |}.
Proof.
  intros (Ho & Hc & Hij & Hbal) Hp Hn Hv Hnul Hdepth.
  assert (Hj : (j < length text)%nat).
  { apply char_at_lt. intros E. rewrite E in Hc. discriminate. }
  pose proof (max_depth_ge 0 (take (j - S i) (drop (S i) text))) as Hge.
  set (k1 := {| program := S i; loops := S i :: loops k; nskip := 1;
                machine := machine k; host := host k |}).
  assert (Hs1 : bfInterpret_step text k = Next k1).
  { unfold bfInterpret_step. rewrite Hp, Ho, Hv, Hn.
    destruct (Nat.eqb_spec (length (loops k)) MAX_NESTING) as [E|E]; [lia|reflexivity]. }
  destruct (skip_segment text j Hc (j - S i) k1 [] (S i :: loops k)) as (n & Hn' & Ha);
    cbn [k1 program loops nskip machine host length app]; try reflexivity; try assumption;
    try lia.
  { intros q Hq Eq.
    rewrite forallb_forall in Hnul. specialize (Hnul (char_at text q)).
    rewrite Eq in Hnul. discriminate Hnul.
    apply list_elem_of_In. rewrite <- Eq. apply list_elem_of_lookup. exists (q - S i)%nat.
    apply segment_lookup; lia. }
  set (kj := {| program := j; loops := S i :: loops k; nskip := 1;
                machine := machine k; host := host k |}) in *.
  assert (Hs2 : bfInterpret_step text kj =
            Next {| program := S j; loops := loops k; nskip := 0;
                    machine := machine k; host := host k |}).
  { unfold bfInterpret_step, kj. cbn [program loops nskip machine host].
    rewrite Hc, Hv. reflexivity. }
  exists (1 + (n + 1))%nat. split; [cbn [k1 program] in Hn'; lia|].
  apply (after_trans text 1 (n + 1) k k1); [simpl; now rewrite Hs1|].
  apply (after_trans text n 1 k1 kj); [exact Ha|]. simpl. now rewrite Hs2.
Qed.

(** X13.  A loop that is reached with zero in the current cell is skipped as
    a whole: from its opening bracket the interpreter comes, in at
    most one iteration for each character, behind the matching closing
    bracket with tape, cursor, streams and open loops as before,
    provided the loop holds no NUL and is not nested deeper than the
    100 entries of [loops] allow. *)
Theorem zero_cell_skips_loop (text : list ascii) (i j : nat) (k : interp) :
  matched text i j ->
  program k = i ->
  nskip k = O ->
  deref (machine k) = Some 0 ->
  forallb (fun c => negb (Ascii.eqb c NUL)) (take (j - S i) (drop (S i) text)) = true ->
  (S (length (loops k)) + max_depth 0 (take (j - S i) (drop (S i) text))
   <= MAX_NESTING)%nat ->
  exists n, (n <= S (j - i))%nat /\
    bfInterpret_after n text k =
      Some {| program := S j; loops := loops k; nskip := 0;
              machine := machine k; host := host k |}.
Proof. apply skip_loop. Qed.

Lemma zero_cell_skips_loop_witness :
  exists n, (n <= S (7 - 1))%nat /\
    bfInterpret_after n (src ">[-[.]+],")
      {| program := 1; loops := []; nskip := 0;
         machine := {| tape := [5; 0]; ptr := 1 |}; host := stdio_init [3] |} =
      Some {| program := 8; loops := []; nskip := 0;
              machine := {| tape := [5; 0]; ptr := 1 |}; host := stdio_init [3] |}.
Proof.
  apply (zero_cell_skips_loop (src ">[-[.]+],") 1 7
           {| program := 1; loops := []; nskip := 0;
              machine := {| tape := [5; 0]; ptr := 1 |}; host := stdio_init [3] |}).
  - unfold matched. split; [reflexivity|]. split; [reflexivity|]. split; [lia|reflexivity].
  - reflexivity.
  - reflexivity.
  - reflexivity.
  - reflexivity.
  - vm_compute. lia.
Defined.

(** ** The limit of 100 open loops *)

Lemma open_brackets (text : list ascii) (s : bfState) (w : stdio) (v : Z) (n : nat) :
  deref s = Some v ->
  (n <= MAX_NESTING)%nat ->
  (forall i, (i < n)%nat -> char_at text i = "["%char) ->
  exists k, bfInterpret_after n text (interp_init s w) = Some k /\
    program k = n /\ length (loops k) = n /\ machine k = s.
Proof.
  intros Hv. induction n as [|n IH]; intros Hn Hch.
  - exists (interp_init s w). repeat split.
  - destruct IH as (k & Ha & Hp & Hl & Hm); [lia|intros i Hi; apply Hch; lia|].
    assert (Hc : classify (char_at text (program k)) = TOpen)
      by (rewrite Hp, Hch by lia; reflexivity).
    eexists. split; [|split; [|split]].
    + replace (S n) with (n + 1)%nat by lia. apply (after_trans text n 1 _ k); [exact Ha|].
      simpl. unfold bfInterpret_step. rewrite Hc, Hm, Hv.
      destruct (Nat.eqb_spec (length (loops k)) MAX_NESTING) as [E|E]; [lia|reflexivity].
    + cbn [program]. now rewrite Hp.
    + cbn [loops length]. now rewrite Hl.
    + cbn [machine]. first [reflexivity|exact Hm].
Qed.

(** X14.  The interpreter terminates the process at the 101st of 101 opening
    brackets that follow one another at the start of a text, whatever
    the cell holds and whatever follows; 100 nested loops are still
    accepted. *)
Theorem nesting_limit_is_100 :
  (forall rest s w v fuel,
     deref s = Some v ->
     bfInterpret (101 + fuel) (replicate 101 "["%char ++ rest) s w = Terminate) /\
  (forall s w,
     deref s = Some 0 ->
     exists kf,
       bfInterpret 202 (replicate 100 "["%char ++ replicate 100 "]"%char) s w = Ok kf /\
       machine kf = s /\ host kf = w /\ loops kf = []).
Proof.
  split.
  - intros rest s w v fuel Hv.
    destruct (open_brackets (replicate 101 "["%char ++ rest) s w v 100 Hv)
      as (k & Ha & Hp & Hl & Hm).
    { unfold MAX_NESTING. lia. }
    { intros i Hi. rewrite char_at_app_l by (rewrite length_replicate; lia).
      unfold char_at. rewrite lookup_replicate_2 by lia. reflexivity. }
    unfold bfInterpret. change (101 + fuel)%nat with (100 + S fuel)%nat.
    rewrite (after_loop _ _ _ _ _ Ha).
    assert (Hc : char_at (replicate 101 "["%char ++ rest) (program k) = "["%char).
    { rewrite Hp, char_at_app_l by (rewrite length_replicate; lia).
      unfold char_at. rewrite lookup_replicate_2 by lia. reflexivity. }
    assert (Hs : bfInterpret_step (replicate 101 "["%char ++ rest) k = Abort).
    { unfold bfInterpret_step. rewrite Hc. change (classify "["%char) with TOpen. cbv iota.
      rewrite Hl. reflexivity. }
    cbn [bfInterpret_loop]. now rewrite Hs.
  - intros s w Hv.
    assert (Hm : matched (replicate 100 "["%char ++ replicate 100 "]"%char) 0 199).
    { unfold matched. split; [vm_compute; reflexivity|]. split; [vm_compute; reflexivity|].
      split; [lia|vm_compute; reflexivity]. }
    assert (Hnul : forallb (fun c => negb (Ascii.eqb c NUL))
                     (take (199 - 1)
                        (drop 1 (replicate 100 "["%char ++ replicate 100 "]"%char))) = true)
      by (vm_compute; reflexivity).
    assert (Hd : max_depth 0
                   (take (199 - 1)
                      (drop 1 (replicate 100 "["%char ++ replicate 100 "]"%char))) = 99%nat)
      by (vm_compute; reflexivity).
    destruct (skip_loop _ 0 199 (interp_init s w) Hm eq_refl eq_refl Hv Hnul)
      as (n & Hn & Ha).
    { rewrite Hd. cbn [interp_init loops length]. unfold MAX_NESTING. lia. }
    eexists. split.
    + unfold bfInterpret. replace 202%nat with (n + S (201 - n))%nat by lia.
      rewrite (after_loop _ _ _ _ _ Ha). apply interp_halt. vm_compute. reflexivity.
    + repeat split.
Qed.

(** * Further properties of the generated code at run time *)

(** ** A buffer larger than a page *)

(** X15.  Whenever the instruction buffer is larger than one page, and pages
    have at least two bytes, the region that [mmap] returns for the
    length that [setupExecutableMem] passes is smaller than the
    buffer, so that the copy loop writes behind it. *)
Theorem copy_overruns_beyond_one_page (fuel : nat) (sys : system) (code : list Z)
    (s : bfState) (io : fds) :
  mmap_fails sys = false ->
  2 <= pageSize sys ->
  pageSize sys < Z.of_nat (length code) ->
  mapped_bytes (mmap_length (Z.of_nat (length code)) (pageSize sys)) (pageSize sys)
    < Z.of_nat (length code) /\
  setupExecutableMem fuel sys code s io = Undefined.
Proof.
  intros Hm Hps Hsize.
  pose proof (mapped_bytes_too_small _ _ Hps Hsize) as Hlt.
  split; [exact Hlt|]. unfold setupExecutableMem. rewrite Hm.
  destruct (Z.leb_spec (Z.of_nat (length code))
              (mapped_bytes (mmap_length (Z.of_nat (length code)) (pageSize sys))
                 (pageSize sys))); [lia|reflexivity].
Qed.

Lemma copy_overruns_beyond_one_page_witness :
  mapped_bytes (mmap_length (Z.of_nat (length (replicate 4097 0))) (pageSize system_4k))
    (pageSize system_4k) < Z.of_nat (length (replicate 4097 0)) /\
  setupExecutableMem 0 system_4k (replicate 4097 0) bfState_init (fds_init []) = Undefined.
Proof.
  apply (copy_overruns_beyond_one_page 0 system_4k (replicate 4097 0)).
  - reflexivity.
  - simpl. lia.
  - rewrite length_replicate. simpl. lia.
Defined.

(** ** Runs of [>] and [<] beyond 127 *)

Lemma code_pointer_run (c x : ascii) (n : nat) (a : Z) :
  c = ">"%char \/ c = "<"%char ->
  classify x = TOther ->
  bfJITCompile_code (replicate (S n) c ++ [x]) a =
    Ok (prologue a ++ (run_opcode c ++ [Z.of_nat (S n) mod 256]) ++ epilogue).
Proof.
  intros Hc Hx. unfold bfJITCompile_code. rewrite length_app, length_replicate.
  change (S n + length [x])%nat with (S (n + 1)).
  change (replicate (S n) c ++ [x]) with ([] ++ replicate (S n) c ++ [x]).
  rewrite jit_loop_unfold
    by (cbn [jit_init tok]; rewrite !length_app, length_replicate; simpl; lia).
  rewrite (jit_step_run [] [x] c n (jit_init a));
    [|destruct Hc as [->| ->]; simpl; tauto|discriminate
     |intros E; unfold char_at in E; simpl in E; rewrite E in Hx;
      destruct Hc as [->| ->]; discriminate
     |reflexivity].
  cbn [and_then]. replace (n + 1)%nat with (S n) by lia.
  change ([] ++ replicate (S n) c ++ [x]) with (replicate (S n) c ++ [x]).
  rewrite jit_loop_unfold
    by (cbn [tok]; rewrite !length_app, length_replicate; simpl; lia).
  assert (Hs : bfJITCompile_step (replicate (S n) c ++ [x])
                 {| tok := length (@nil ascii) + S n;
                    machineCode := machineCode (jit_init a) ++ run_opcode c
                                     ++ [Z.of_nat (S n) mod 256];
                    jmpLocIndex := jmpLocIndex (jit_init a) |} =
               Ok {| tok := S (S n);
                     machineCode := machineCode (jit_init a) ++ run_opcode c
                                      ++ [Z.of_nat (S n) mod 256];
                     jmpLocIndex := jmpLocIndex (jit_init a) |}).
  { unfold bfJITCompile_step. cbn [tok length Nat.add].
    rewrite <- (length_replicate (S n) c) at 2. rewrite char_at_middle, Hx. reflexivity. }
  rewrite Hs. cbn [and_then].
  rewrite jit_loop_done
    by (cbn [tok]; rewrite !length_app, length_replicate; simpl; lia).
  cbn [and_then machineCode jit_init]. now rewrite <- !app_assoc.
Qed.

Lemma has_bytes_head (bytes rest : list Z) : has_bytes (bytes ++ rest) 0 bytes.
Proof. intros i b Hi. simpl. now apply lookup_app_l_Some. Qed.

Lemma has_bytes_at (l bytes r : list Z) (off : nat) :
  off = length l -> has_bytes (l ++ bytes ++ r) off bytes.
Proof. intros ->. apply has_bytes_middle. Qed.

(** The run of the code of one run of [>] or [<]: four instructions. *)
Lemma jit_pointer_run (c x : ascii) (n : nat) (s : bfState) (sys : system) (io : fds) :
  c = ">"%char \/ c = "<"%char ->
  classify x = TOther ->
  mmap_fails sys = false ->
  17 <= pageSize sys ->
  0 <= tape_addr sys + ptr s < 2 ^ 64 ->
  bfJITCompile 4 sys (replicate (S n) c ++ [x]) s io =
    Ok {| rip := 15; rax := return_addr sys;
          rbx := (if Ascii.eqb c ">"
                  then tape_addr sys + ptr s + sext 8 (Z.of_nat (S n) mod 256)
                  else tape_addr sys + ptr s - sext 8 (Z.of_nat (S n) mod 256)) mod 2 ^ 64;
          rdi := 0; rsi := 0; rdx := 0;
          zf := (if Ascii.eqb c ">"
                 then tape_addr sys + ptr s + sext 8 (Z.of_nat (S n) mod 256)
                 else tape_addr sys + ptr s - sext 8 (Z.of_nat (S n) mod 256)) mod 2 ^ 64 =? 0;
          stack := []; mem := tape s; files := io |}.
Proof.
  intros Hc Hx Hm Hps Ha. unfold bfJITCompile.
  rewrite (code_pointer_run c x n _ Hc Hx). cbn [and_then].
  set (a := tape_addr sys + ptr s) in *.
  set (b := Z.of_nat (S n) mod 256).
  unfold setupExecutableMem. rewrite Hm.
  assert (Hlen : length (prologue a ++ (run_opcode c ++ [b]) ++ epilogue) = 17%nat).
  { rewrite !length_app, length_prologue. destruct Hc as [->| ->]; reflexivity. }
  rewrite Hlen. rewrite mapped_bytes_one_page by lia.
  destruct (Z.leb_spec (Z.of_nat 17) (pageSize sys)); [|lia].
  set (pad := replicate (Z.to_nat (pageSize sys - Z.of_nat 17)) 0).
  set (region := (prologue a ++ (run_opcode c ++ [b]) ++ epilogue) ++ pad).
  assert (Er1 : region = prologue a ++ (run_opcode c ++ [b]) ++ (epilogue ++ pad))
    by (unfold region; now rewrite <- !app_assoc).
  assert (Er2 : region = (prologue a ++ (run_opcode c ++ [b])) ++ epilogue ++ pad)
    by (unfold region; now rewrite <- !app_assoc).
  assert (Hb0 : has_bytes region 0 (prologue a)).
  { rewrite Er1. apply has_bytes_head. }
  assert (Hb1 : has_bytes region 10 (run_opcode c ++ [b])).
  { rewrite Er1. apply has_bytes_at. now rewrite length_prologue. }
  assert (Hb2 : has_bytes region 14 epilogue).
  { rewrite Er2. apply has_bytes_at. rewrite !length_app, length_prologue.
    destruct Hc as [->| ->]; reflexivity. }
  clearbody region.
  cbn [x86_run].
  erewrite (x86_step_chunk _ _ region (entry_state sys s io) 0 0 _
              (MovRbx (le_uint (_resolvePtrAddr a))) 10 Hb0);
    [|reflexivity|intros ?; reflexivity|simpl; lia].
  cbn [exec entry_state rip rax rbx rdi rsi rdx zf stack mem files].
  rewrite le_uint_resolvePtrAddr by assumption.
  destruct Hc as [->| ->].
  - erewrite (x86_step_chunk _ _ region _ 10 0 _ (AddRbx (sext 8 b)) 4 Hb1);
      [|reflexivity|intros ?; reflexivity|simpl; lia].
    cbn [exec rip rax rbx rdi rsi rdx zf stack mem files].
    erewrite (x86_step_chunk _ _ region _ 14 0 _ PopRax 1 Hb2);
      [|reflexivity|intros ?; reflexivity|simpl; lia].
    cbn [exec rip rax rbx rdi rsi rdx zf stack mem files].
    erewrite (x86_step_chunk _ _ region _ 14 1 _ JmpRax 2 Hb2);
      [|reflexivity|intros ?; reflexivity|simpl; lia].
    cbn [exec rip rax rbx rdi rsi rdx zf stack mem files].
    rewrite Z.eqb_refl. reflexivity.
  - erewrite (x86_step_chunk _ _ region _ 10 0 _ (SubRbx (sext 8 b)) 4 Hb1);
      [|reflexivity|intros ?; reflexivity|simpl; lia].
    cbn [exec rip rax rbx rdi rsi rdx zf stack mem files].
    erewrite (x86_step_chunk _ _ region _ 14 0 _ PopRax 1 Hb2);
      [|reflexivity|intros ?; reflexivity|simpl; lia].
    cbn [exec rip rax rbx rdi rsi rdx zf stack mem files].
    erewrite (x86_step_chunk _ _ region _ 14 1 _ JmpRax 2 Hb2);
      [|reflexivity|intros ?; reflexivity|simpl; lia].
    cbn [exec rip rax rbx rdi rsi rdx zf stack mem files].
    rewrite Z.eqb_refl. reflexivity.
Qed.

Lemma interp_pointer_run (n : nat) (x : ascii) (s : bfState) (w : stdio) :
  classify x = TOther ->
  0 <= ptr s -> ptr s + Z.of_nat (S n) <= Z.of_nat (length (tape s)) ->
  exists kf,
    bfInterpret 3 (replicate (S n) ">"%char ++ [x]) s w = Ok kf /\
    machine kf = {| tape := tape s; ptr := ptr s + Z.of_nat (S n) |} /\ host kf = w.
Proof.
  intros Hx H0 H1. unfold bfInterpret.
  assert (Hs : bfInterpret_step (replicate (S n) ">"%char ++ [x]) (interp_init s w) =
            Next {| program := S n; loops := []; nskip := 0;
                    machine := {| tape := tape s; ptr := ptr s + Z.of_nat (S n) |};
                    host := w |}).
  { unfold bfInterpret_step. cbn [interp_init program nskip machine loops host].
    change (char_at (replicate (S n) ">"%char ++ [x]) 0) with ">"%char.
    change (classify ">"%char) with TGt. cbv iota.
    change (drop 1 (replicate (S n) ">"%char ++ [x])) with (replicate n ">"%char ++ [x]).
    assert (Hsp : span_len ">" (replicate n ">"%char ++ [x]) = n).
    { rewrite span_len_replicate_app, span_len_tother;
        [lia|repeat constructor; assumption|discriminate]. }
    rewrite Hsp. cbn [Nat.eqb]. unfold shift.
    destruct (Z.leb_spec 0 (ptr s + Z.of_nat (S n))); [|lia].
    destruct (Z.leb_spec (ptr s + Z.of_nat (S n)) (Z.of_nat (length (tape s)))); [|lia].
    cbn [andb with_machine]. do 2 f_equal. lia. }
  rewrite (interp_next _ _ _ _ Hs).
  destruct (interp_tail (replicate (S n) ">"%char) [x] 2
              {| program := S n; loops := []; nskip := 0;
                 machine := {| tape := tape s; ptr := ptr s + Z.of_nat (S n) |};
                 host := w |}) as (kf & Hrun & Hmach & Hhost).
  - repeat constructor. assumption.
  - cbn [program]. now rewrite length_replicate.
  - simpl. lia.
  - exists kf. split; [exact Hrun|]. split; assumption.
Qed.

(** X16.  A run of 128 to 255 characters [>], followed by a character
    that is no command, is within the limit that the source states for
    runs, and the interpreter moves the cursor right by the length of
    the run; the generated instruction has the length as an immediate
    of 8 bits that the processor extends with its sign, so that the
    generated code moves the cursor left by 256 minus the length.  A
    run of [<] of that length moves it right by as much. *)
Theorem pointer_run_beyond_127 (n : nat) (x : ascii) (s : bfState) (sys : system)
    (io : fds) :
  (128 <= n <= 255)%nat ->
  classify x = TOther ->
  mmap_fails sys = false ->
  17 <= pageSize sys ->
  256 <= tape_addr sys + ptr s ->
  tape_addr sys + ptr s + 256 < 2 ^ 64 ->
  (exists mf, bfJITCompile 4 sys (replicate n ">"%char ++ [x]) s io = Ok mf /\
     rbx mf = tape_addr sys + ptr s - (256 - Z.of_nat n) /\
     mem mf = tape s /\ files mf = io) /\
  (exists mf, bfJITCompile 4 sys (replicate n "<"%char ++ [x]) s io = Ok mf /\
     rbx mf = tape_addr sys + ptr s + (256 - Z.of_nat n) /\
     mem mf = tape s /\ files mf = io) /\
  (forall w, 0 <= ptr s -> ptr s + Z.of_nat n <= Z.of_nat (length (tape s)) ->
     exists kf, bfInterpret 3 (replicate n ">"%char ++ [x]) s w = Ok kf /\
       ptr (machine kf) = ptr s + Z.of_nat n /\ tape (machine kf) = tape s).
Proof.
  intros Hn Hx Hm Hps Ha0 Ha1.
  destruct n as [|n]; [lia|].
  assert (Hb : Z.of_nat (S n) mod 256 = Z.of_nat (S n)) by (apply Z.mod_small; lia).
  assert (Hs : sext 8 (Z.of_nat (S n)) = Z.of_nat (S n) - 256).
  { unfold sext. change (2 ^ (8 - 1)) with 128. change (2 ^ 8) with 256.
    destruct (Z.ltb_spec (Z.of_nat (S n)) 128); lia. }
  split; [|split].
  - eexists. split; [apply (jit_pointer_run ">" x n s sys io); auto; lia|].
    cbn [rbx mem files Ascii.eqb Bool.eqb]. rewrite Hb, Hs.
    split; [|split; reflexivity]. rewrite Z.mod_small; lia.
  - eexists. split; [apply (jit_pointer_run "<" x n s sys io); auto; lia|].
    cbn [rbx mem files Ascii.eqb Bool.eqb]. rewrite Hb, Hs.
    split; [|split; reflexivity]. rewrite Z.mod_small; lia.
  - intros w H0 H1.
    destruct (interp_pointer_run n x s w Hx H0 H1) as (kf & Hrun & Hmach & _).
    exists kf. split; [exact Hrun|]. rewrite Hmach. split; reflexivity.
Qed.

Lemma pointer_run_beyond_127_witness :
  (exists mf, bfJITCompile 4 system_4k (replicate 200 ">"%char ++ src "a")
                {| tape := replicate 300 0; ptr := 1 |} (fds_init []) = Ok mf /\
     rbx mf = tape_addr system_4k + 1 - (256 - Z.of_nat 200) /\
     mem mf = replicate 300 0 /\ files mf = fds_init []) /\
  (exists kf, bfInterpret 3 (replicate 200 ">"%char ++ src "a")
                {| tape := replicate 300 0; ptr := 1 |} (stdio_init []) = Ok kf /\
     ptr (machine kf) = 1 + Z.of_nat 200 /\ tape (machine kf) = replicate 300 0).
Proof.
  destruct (pointer_run_beyond_127 200 "a" {| tape := replicate 300 0; ptr := 1 |}
              system_4k (fds_init []))
    as (H & _ & Hi).
  - lia.
  - reflexivity.
  - reflexivity.
  - simpl. lia.
  - simpl. lia.
  - simpl. lia.
  - split; [exact H|]. apply (Hi (stdio_init [])).
    + simpl. lia.
    + cbn [tape ptr]. rewrite length_replicate. lia.
Defined.

(** ** Reading at the end of input in the generated code *)

(** X17.  The code of one [,]: with a byte on descriptor 0 the call of
    [read] stores it in the current cell and takes it from the input;
    at the end of input [read] returns 0 and stores nothing, and the
    cell keeps its value (the interpreter stores 255 there). *)
Theorem jit_comma_reads_or_keeps (s : bfState) (sys : system) (io : fds) :
  mmap_fails sys = false ->
  33 <= pageSize sys ->
  0 <= tape_addr sys ->
  tape_addr sys + Z.of_nat (length (tape s)) < 2 ^ 64 ->
  0 <= ptr s < Z.of_nat (length (tape s)) ->
  exists mf,
    bfJITCompile 8 sys [","%char] s io = Ok mf /\
    fd1 (files mf) = fd1 io /\
    match fd0 io with
    | [] => mem mf = tape s /\ fd0 (files mf) = []
    | b :: rest => mem mf = <[Z.to_nat (ptr s) := b]> (tape s) /\ fd0 (files mf) = rest
    end.
Proof.
  intros Hm Hps Ha0 Ha1 Hp. unfold bfJITCompile.
  set (a := tape_addr sys + ptr s) in *.
  change (bfJITCompile_code [","%char] a) with (Ok (prologue a ++ read_code ++ epilogue)).
  cbn [and_then]. unfold setupExecutableMem. rewrite Hm.
  assert (Hlen : length (prologue a ++ read_code ++ epilogue) = 33%nat).
  { rewrite !length_app, length_prologue. reflexivity. }
  rewrite Hlen. rewrite mapped_bytes_one_page by lia.
  destruct (Z.leb_spec (Z.of_nat 33) (pageSize sys)); [|lia].
  set (pad := replicate (Z.to_nat (pageSize sys - Z.of_nat 33)) 0).
  set (region := (prologue a ++ read_code ++ epilogue) ++ pad).
  assert (Er1 : region = prologue a ++ read_code ++ (epilogue ++ pad))
    by (unfold region; now rewrite <- !app_assoc).
  assert (Er2 : region = (prologue a ++ read_code) ++ epilogue ++ pad)
    by (unfold region; now rewrite <- !app_assoc).
  assert (Hb0 : has_bytes region 0 (prologue a)).
  { rewrite Er1. apply has_bytes_head. }
  assert (Hb1 : has_bytes region 10 read_code).
  { rewrite Er1. apply has_bytes_at. now rewrite length_prologue. }
  assert (Hb2 : has_bytes region 30 epilogue).
  { rewrite Er2. apply has_bytes_at. rewrite !length_app, length_prologue. reflexivity. }
  clearbody region.
  cbn [x86_run].
  erewrite (x86_step_chunk _ _ region (entry_state sys s io) 0 0 _
              (MovRbx (le_uint (_resolvePtrAddr a))) 10 Hb0);
    [|reflexivity|intros ?; reflexivity|simpl; lia].
  cbn [exec entry_state rip rax rbx rdi rsi rdx zf stack mem files].
  rewrite le_uint_resolvePtrAddr by (unfold a; lia).
  erewrite (x86_step_chunk _ _ region _ 10 0 _ (MovEax SYS_read) 5 Hb1);
    [|reflexivity|intros ?; reflexivity|simpl; lia].
  cbn [exec rip rax rbx rdi rsi rdx zf stack mem files].
  erewrite (x86_step_chunk _ _ region _ 10 5 _ (MovEdi 0) 5 Hb1);
    [|reflexivity|intros ?; reflexivity|simpl; lia].
  cbn [exec rip rax rbx rdi rsi rdx zf stack mem files].
  erewrite (x86_step_chunk _ _ region _ 10 10 _ MovRsiRbx 3 Hb1);
    [|reflexivity|intros ?; reflexivity|simpl; lia].
  cbn [exec rip rax rbx rdi rsi rdx zf stack mem files].
  erewrite (x86_step_chunk _ _ region _ 10 13 _ (MovEdx 1) 5 Hb1);
    [|reflexivity|intros ?; reflexivity|simpl; lia].
  cbn [exec rip rax rbx rdi rsi rdx zf stack mem files].
  erewrite (x86_step_chunk _ _ region _ 10 18 _ Syscall 2 Hb1);
    [|reflexivity|intros ?; reflexivity|simpl; lia].
  cbn [exec rip rax rbx rdi rsi rdx zf stack mem files].
  unfold syscall. cbn [rip rax rbx rdi rsi rdx zf stack mem files].
  rewrite !Z.eqb_refl. cbn [andb].
  destruct (fd0 io) as [|b rest] eqn:Ein.
  - erewrite (x86_step_chunk _ _ region _ 30 0 _ PopRax 1 Hb2);
      [|reflexivity|intros ?; reflexivity|simpl; lia].
    cbn [exec rip rax rbx rdi rsi rdx zf stack mem files].
    erewrite (x86_step_chunk _ _ region _ 30 1 _ JmpRax 2 Hb2);
      [|reflexivity|intros ?; reflexivity|simpl; lia].
    cbn [exec rip rax rbx rdi rsi rdx zf stack mem files].
    rewrite Z.eqb_refl. eexists. split; [reflexivity|].
    cbn [mem files fd0 fd1]. rewrite Ein. auto.
  - unfold store. cbn [mem].
    destruct (Z.leb_spec (tape_addr sys) a); [|unfold a in *; lia].
    destruct (Z.ltb_spec a (tape_addr sys + Z.of_nat (length (tape s))));
      [|unfold a in *; lia].
    cbn [andb].
    erewrite (x86_step_chunk _ _ region _ 30 0 _ PopRax 1 Hb2);
      [|reflexivity|intros ?; reflexivity|simpl; lia].
    cbn [exec rip rax rbx rdi rsi rdx zf stack mem files].
    erewrite (x86_step_chunk _ _ region _ 30 1 _ JmpRax 2 Hb2);
      [|reflexivity|intros ?; reflexivity|simpl; lia].
    cbn [exec rip rax rbx rdi rsi rdx zf stack mem files].
    rewrite Z.eqb_refl. eexists. split; [reflexivity|].
    cbn [mem files fd0 fd1]. split; [reflexivity|]. split; [|reflexivity].
    f_equal. unfold a. lia.
Qed.

Lemma jit_comma_reads_or_keeps_witness :
  exists mf,
    bfJITCompile 8 system_4k [","%char] {| tape := [9; 9]; ptr := 1 |} (fds_init []) = Ok mf /\
    fd1 (files mf) = [] /\ mem mf = [9; 9] /\ fd0 (files mf) = [].
Proof.
  apply (jit_comma_reads_or_keeps {| tape := [9; 9]; ptr := 1 |} system_4k (fds_init [])).
  - reflexivity.
  - simpl. lia.
  - simpl. lia.
  - simpl. lia.
  - simpl. lia.
Defined.

(** ** A NUL in the text of the generator *)

Lemma scan_cons (c x : ascii) (q : nat) (p : list ascii) :
  scan c (S q) (x :: p) = scan c q p.
Proof. reflexivity. Qed.

Lemma jit_step_shifted (c : ascii) (p : list ascii) (g g2 : jit) :
  tok g = S (tok g2) ->
  machineCode g = machineCode g2 ->
  jmpLocIndex g = jmpLocIndex g2 ->
  match bfJITCompile_step (c :: p) g, bfJITCompile_step p g2 with
  | Ok g', Ok g2' =>
      tok g' = S (tok g2') /\ machineCode g' = machineCode g2' /\
      jmpLocIndex g' = jmpLocIndex g2'
  | Undefined, Undefined => True
  | _, _ => False
  end.
Proof.
  intros Ht Hm Hs. unfold bfJITCompile_step. rewrite Ht, Hm, Hs.
  change (char_at (c :: p) (S (tok g2))) with (char_at p (tok g2)).
  rewrite !scan_cons.
  pose proof (classify_cases (char_at p (tok g2))) as Hcc.
  assert (Hlt : classify (char_at p (tok g2)) <> TNul -> (tok g2 < length p)%nat).
  { intros H. apply char_at_lt. intros E. rewrite E in H. now apply H. }
  destruct (classify (char_at p (tok g2))) eqn:Hc; cbn [tok machineCode jmpLocIndex];
    try specialize (Hlt ltac:(discriminate));
    try pose proof (span_len_pos p (tok g2) _ Hlt Hcc);
    try (destruct (scan _ _ _) as [m|] eqn:Es; [apply scan_inv in Es as [-> _]|exact I]);
    cbn [tok machineCode jmpLocIndex];
    try (split; [|split]; first [reflexivity|lia]).
  destruct (jmpLocIndex g2) as [|L rest]; [exact I|].
  destruct (_ && _); [|exact I].
  destruct (scan _ _ _); [|exact I]. cbn [tok machineCode jmpLocIndex].
  split; [|split]; reflexivity.
Qed.

Lemma jit_loop_shifted (c : ascii) (p : list ascii) (fuel : nat) :
  forall g g2,
  tok g = S (tok g2) ->
  machineCode g = machineCode g2 ->
  jmpLocIndex g = jmpLocIndex g2 ->
  match bfJITCompile_loop fuel (c :: p) g, bfJITCompile_loop fuel p g2 with
  | Ok gf, Ok gf2 => machineCode gf = machineCode gf2
  | Undefined, Undefined => True
  | Timeout, Timeout => True
  | _, _ => False
  end.
Proof.
  induction fuel as [|fuel IH]; intros g g2 Ht Hm Hs; cbn [bfJITCompile_loop length];
    rewrite Ht; change (S (tok g2) =? S (length p))%nat with (tok g2 =? length p)%nat;
    destruct (tok g2 =? length p)%nat; try assumption; try exact I.
  pose proof (jit_step_shifted c p g g2 Ht Hm Hs) as H.
  destruct (bfJITCompile_step (c :: p) g) as [g'| | | |],
           (bfJITCompile_step p g2) as [g2'| | | |]; try contradiction; try exact I.
  destruct H as (Ht' & Hm' & Hs'). now apply IH.
Qed.

Lemma jit_code_skip_front (c : ascii) (p : list ascii) (a : Z) :
  In (classify c) [TNul; TSpace; TOther] ->
  bfJITCompile_code (c :: p) a = bfJITCompile_code p a.
Proof.
  intros Hc. unfold bfJITCompile_code. cbn [length].
  assert (Hs : bfJITCompile_step (c :: p) (jit_init a) =
            Ok {| tok := 1; machineCode := prologue a; jmpLocIndex := [] |}).
  { unfold bfJITCompile_step. cbn [jit_init tok machineCode jmpLocIndex].
    change (char_at (c :: p) 0) with c. simpl in Hc.
    destruct Hc as [<-|[<-|[<-|[]]]]; reflexivity. }
  rewrite jit_loop_unfold by (cbn [jit_init tok length]; lia).
  rewrite Hs. cbn [and_then].
  pose proof (jit_loop_shifted c p (length p)
                {| tok := 1; machineCode := prologue a; jmpLocIndex := [] |}
                (jit_init a) eq_refl eq_refl eq_refl) as H.
  destruct (bfJITCompile_loop (length p) (c :: p) _) as [gf| | | |],
           (bfJITCompile_loop (length p) p (jit_init a)) as [gf2| | | |];
    try contradiction; cbn [and_then]; try reflexivity.
  now rewrite H.
Qed.

(** X18.  The generator does not stop at a NUL: a text that starts with a
    NUL is compiled to the code of the text behind the NUL, whereas
    the interpreter returns at the NUL at once, with nothing
    changed. *)
Theorem generator_passes_over_nul (p : list ascii) (a : Z) :
  bfJITCompile_code (NUL :: p) a = bfJITCompile_code p a /\
  (forall fuel s w, bfInterpret (S fuel) (NUL :: p) s w = Ok (interp_init s w)).
Proof.
  split; [apply jit_code_skip_front; left; reflexivity|].
  intros fuel s w. reflexivity.
Qed.

(** ** The loop stack and the nesting of the text *)

Lemma open_after_app (l1 l2 : list ascii) :
  forall stk p,
  open_after stk p (l1 ++ l2)
  = match open_after stk p l1 with
    | Some s => open_after s (p + length l1) l2
    | None => None
    end.
Proof.
  induction l1 as [|c l1 IH]; intros stk p; cbn [app open_after length].
  - now rewrite Nat.add_0_r.
  - replace (p + S (length l1))%nat with (S p + length l1)%nat by lia.
    destruct (classify c); rewrite ?IH; try reflexivity.
    destruct stk; [reflexivity|]. now rewrite IH.
Qed.

Lemma take_S_char (text : list ascii) (q : nat) :
  (q < length text)%nat -> take (S q) text = take q text ++ [char_at text q].
Proof.
  intros Hq. destruct (lookup_lt_is_Some_2 text q Hq) as [x Hx].
  unfold char_at. rewrite Hx. simpl. now apply take_S_r.
Qed.

Lemma open_at_S (text : list ascii) (q : nat) :
  (q < length text)%nat ->
  open_at text (S q)
  = match open_at text q with
    | Some s => open_after s q [char_at text q]
    | None => None
    end.
Proof.
  intros Hq. unfold open_at. rewrite take_S_char by assumption.
  rewrite open_after_app. rewrite length_take_le by lia. reflexivity.
Qed.

(** Over characters that are no brackets the open brackets stay. *)
Lemma open_at_plain (text : list ascii) (n : nat) :
  forall q, (q + n <= length text)%nat ->
  (forall i, (i < n)%nat ->
     classify (char_at text (q + i)) <> TOpen /\ classify (char_at text (q + i)) <> TClose) ->
  open_at text (q + n) = open_at text q.
Proof.
  induction n as [|n IH]; intros q Hlen Hpl.
  - now rewrite Nat.add_0_r.
  - replace (q + S n)%nat with (S (q + n)) by lia.
    rewrite open_at_S by lia. rewrite IH; [|lia|intros i Hi; apply Hpl; lia].
    destruct (Hpl n ltac:(lia)) as [Ho Hc].
    destruct (open_at text q) as [s|]; [|reflexivity].
    cbn [open_after]. destruct (classify (char_at text (q + n))); congruence.
Qed.

(** A position on the stack of open brackets was pushed with the same
    positions below it. *)
Lemma open_at_entry (text : list ascii) (q : nat) :
  (q <= length text)%nat ->
  forall stk pre t rest,
  open_at text q = Some stk -> stk = pre ++ t :: rest ->
  (1 <= t <= q)%nat /\ open_at text t = Some (t :: rest).
Proof.
  induction q as [|q IH]; intros Hq stk pre t rest Hs E.
  - unfold open_at in Hs. simpl in Hs. injection Hs as <-. now destruct pre.
  - rewrite open_at_S in Hs by lia.
    destruct (open_at text q) as [s|] eqn:Eq; [|discriminate].
    specialize (IH ltac:(lia) s).
    cbn [open_after] in Hs.
    destruct (classify (char_at text q)) eqn:Hc;
      try (injection Hs as <-; destruct (IH pre t rest eq_refl E) as [Ht Ho];
           split; [lia|assumption]).
    + (* [ *) injection Hs as <-. destruct pre as [|x pre]; simpl in E.
      * injection E as <- <-. split; [lia|].
        rewrite open_at_S by lia. rewrite Eq. cbn [open_after]. now rewrite Hc.
      * injection E as <- ->. destruct (IH pre t rest eq_refl eq_refl) as [Ht Ho].
        split; [lia|assumption].
    + (* ] *) destruct s as [|x below]; [discriminate|]. injection Hs as <-.
      destruct (IH (x :: pre) t rest eq_refl) as [Ht Ho]; [now rewrite E|].
      split; [lia|assumption].
Qed.

Lemma interp_step_nesting (text : list ascii) (k k' : interp) :
  (program k <= length text)%nat ->
  open_at text (program k) = Some (loops k) ->
  bfInterpret_step text k = Next k' ->
  open_at text (program k') = Some (loops k').
Proof.
  intros Hle Hinv Hstep.
  assert (Hlt : classify (char_at text (program k)) <> TNul -> (program k < length text)%nat).
  { intros H. apply char_at_lt. intros E. rewrite E in H. now apply H. }
  assert (Hone : classify (char_at text (program k)) <> TOpen ->
                 classify (char_at text (program k)) <> TClose ->
                 (program k < length text)%nat ->
                 open_at text (S (program k)) = Some (loops k)).
  { intros Ho Hc Hl. rewrite open_at_S by assumption. rewrite Hinv. cbn [open_after].
    destruct (classify (char_at text (program k))); congruence. }
  assert (Hrun : forall c, char_at text (program k) = c ->
                 classify c <> TOpen -> classify c <> TClose -> classify c <> TNul ->
                 open_at text (S (program k) + (S (span_len c (drop (S (program k)) text)) - 1))
                 = Some (loops k)).
  { intros c Ec Ho Hc Hn. rewrite <- Ec in Ho, Hc, Hn. specialize (Hlt Hn).
    rewrite <- (Hone Ho Hc Hlt).
    replace (S (span_len c (drop (S (program k)) text)) - 1)%nat
      with (span_len c (drop (S (program k)) text)) by lia.
    apply open_at_plain.
    - pose proof (span_len_le c (drop (S (program k)) text)) as H.
      rewrite length_drop in H. lia.
    - intros i Hi. rewrite (span_len_char_at text (S (program k)) i c Hi).
      rewrite <- Ec. now split. }
  pose proof (classify_cases (char_at text (program k))) as Hcc.
  unfold bfInterpret_step, with_machine, skip_to in Hstep.
  destruct (classify (char_at text (program k))) eqn:Hc.
  1-4: pose proof (Hrun _ Hcc) as Hr; rewrite Hcc in Hc;
    specialize (Hr ltac:(rewrite Hc; discriminate) ltac:(rewrite Hc; discriminate)
                   ltac:(rewrite Hc; discriminate));
    destruct (nskip k =? 0)%nat;
    [ match type of Hstep with
      | match ?o with _ => _ end = _ => destruct o; [|discriminate]
      end
    | ]; injection Hstep as <-; exact Hr.
  - (* , *)
    specialize (Hone ltac:(discriminate) ltac:(discriminate) (Hlt ltac:(discriminate))).
    destruct (nskip k =? 0)%nat.
    + destruct (getchar (host k)) as [r w]. destruct (assign _ _); [|discriminate].
      injection Hstep as <-. exact Hone.
    + injection Hstep as <-. exact Hone.
  - (* . *)
    specialize (Hone ltac:(discriminate) ltac:(discriminate) (Hlt ltac:(discriminate))).
    destruct (nskip k =? 0)%nat.
    + destruct (deref _); [|discriminate]. injection Hstep as <-. exact Hone.
    + injection Hstep as <-. exact Hone.
  - (* [ *)
    destruct (_ =? _)%nat; [discriminate|]. destruct (deref _); [|discriminate].
    injection Hstep as <-. cbn [program loops].
    rewrite open_at_S by (apply Hlt; discriminate). rewrite Hinv. cbn [open_after].
    now rewrite Hc.
  - (* ] *)
    destruct (loops k) as [|top below] eqn:El; [discriminate|].
    destruct (deref _) as [v|]; [|discriminate].
    injection Hstep as <-. cbn [program loops].
    destruct (v =? 0).
    + rewrite open_at_S by (apply Hlt; discriminate). rewrite Hinv. cbn [open_after].
      now rewrite Hc.
    + destruct (open_at_entry text (program k) Hle (top :: below) [] top below Hinv eq_refl)
        as [_ Ho].
      exact Ho.
  - (* space *)
    pose proof (Hrun _ Hcc) as Hr. rewrite Hcc in Hc.
    specialize (Hr ltac:(rewrite Hc; discriminate) ltac:(rewrite Hc; discriminate)
                   ltac:(rewrite Hc; discriminate)).
    injection Hstep as <-. exact Hr.
  - discriminate.
  - specialize (Hone ltac:(discriminate) ltac:(discriminate) (Hlt ltac:(discriminate))).
    injection Hstep as <-. exact Hone.
Qed.

Lemma after_nesting (text : list ascii) (n : nat) :
  forall k k', interp_ok text k -> open_at text (program k) = Some (loops k) ->
  bfInterpret_after n text k = Some k' ->
  open_at text (program k') = Some (loops k').
Proof.
  induction n as [|n IH]; intros k k' Hok Hinv; simpl.
  - now intros [= <-].
  - destruct (bfInterpret_step text k) as [k1| | |] eqn:E; try discriminate.
    intros Ha. destruct (interp_step_ok text k k1 Hok E) as [Hok1 _].
    apply (IH k1 k' Hok1); [|exact Ha].
    apply (interp_step_nesting text k k1); [apply Hok|assumption|assumption].
Qed.

(** X19.  Between all iterations of the interpreter, suppressed or not, the
    loop stack holds exactly the return positions of the brackets that
    are open at the current position of the text, innermost first; so
    a closing bracket that jumps back returns behind its own opening
    bracket, with the stack as it was there. *)
Theorem interp_loops_follow_nesting (text : list ascii) (n : nat) (s : bfState)
    (w : stdio) (k : interp) :
  0 <= ptr s <= Z.of_nat (length (tape s)) ->
  Forall is_byte (tape s) ->
  bfInterpret_after n text (interp_init s w) = Some k ->
  open_at text (program k) = Some (loops k) /\
  (forall top below, loops k = top :: below ->
     (1 <= top <= program k)%nat /\
     classify (char_at text (top - 1)) = TOpen /\
     open_at text top = Some (top :: below)).
Proof.
  intros Hp Hb Ha.
  assert (Hok0 : interp_ok text (interp_init s w)).
  { constructor; cbn [interp_init program loops nskip machine length]; try assumption;
      try (unfold MAX_NESTING; lia); try congruence. constructor. }
  pose proof (after_nesting text n _ k Hok0 eq_refl Ha) as Hinv.
  destruct (after_ok text n _ k Hok0 Ha) as [Hok _].
  split; [exact Hinv|]. intros top below El.
  destruct (open_at_entry text (program k) (ok_program _ _ Hok) _ [] top below Hinv El)
    as [Ht Ho].
  split; [exact Ht|]. split; [|exact Ho].
  pose proof (ok_return _ _ Hok) as Hr. rewrite El in Hr.
  apply Forall_cons in Hr as [[_ Hc] _]. exact Hc.
Qed.

Lemma interp_loops_follow_nesting_witness :
  open_at (src "+[>+[-]<-]") 5 = Some [5%nat; 2%nat] /\
  (forall top below, [5%nat; 2%nat] = top :: below ->
     (1 <= top <= 5)%nat /\
     classify (char_at (src "+[>+[-]<-]") (top - 1)) = TOpen /\
     open_at (src "+[>+[-]<-]") top = Some (top :: below)).
Proof.
  apply (interp_loops_follow_nesting (src "+[>+[-]<-]") 5 {| tape := [0; 0]; ptr := 0 |}
           (stdio_init [])
           {| program := 5; loops := [5%nat; 2%nat]; nskip := 0;
              machine := {| tape := [1; 1]; ptr := 1 |}; host := stdio_init [] |}).
  - simpl. lia.
  - repeat constructor; unfold is_byte; lia.
  - reflexivity.
Defined.
